(** * go-arg: schema builder and token interpreter

    A shallow embedding of [parse.go] and [reflect.go].  Go strings are
    byte strings ([String.string]); Go slices that matter for aliasing are
    modelled over an explicit heap of backing arrays; the destination
    structs reached through [reflect] are modelled as typed value trees. *)

From Stdlib Require Import ZArith String Ascii List Lia Bool.
From stdpp Require Import base option list gmap strings.
Import ListNotations.
Set Warnings "-register-all".
Local Open Scope string_scope.
Local Open Scope list_scope.
Local Open Scope nat_scope.
Local Abbreviation length := List.length.

(** ** The parts of package [strings] that the program calls *)

Module strings.

(** [strings.HasPrefix] *)
Definition HasPrefix (s pre : string) : bool := String.prefix pre s.

Fixpoint mem_ascii (c : ascii) (cutset : string) : bool :=
  match cutset with
  | EmptyString => false
  | String d rest => if Ascii.eqb c d then true else mem_ascii c rest
  end.

(** [strings.TrimLeft]: drop the leading bytes that belong to [cutset]. *)
Fixpoint TrimLeft (s cutset : string) : string :=
  match s with
  | EmptyString => EmptyString
  | String c rest => if mem_ascii c cutset then TrimLeft rest cutset else s
  end.

(** [strings.Index]: byte offset of the first occurrence, or -1. *)
Definition Index (s sub : string) : Z :=
  match String.index 0 sub s with
  | Some n => Z.of_nat n
  | None => (-1)%Z
  end.

(** [s[:pos]] and [s[pos+1:]] for an offset returned by [Index]. *)
Definition upto (s : string) (pos : Z) : string :=
  String.substring 0 (Z.to_nat pos) s.
Definition after (s : string) (pos : Z) : string :=
  String.substring (Z.to_nat pos + 1) (String.length s - (Z.to_nat pos + 1)) s.

(** [strings.Split] with a one-byte separator. *)
Fixpoint split_go (sep : ascii) (cur : string) (s : string) : list string :=
  match s with
  | EmptyString => [String.rev cur]
  | String c rest =>
      if Ascii.eqb c sep then String.rev cur :: split_go sep EmptyString rest
      else split_go sep (String c cur) rest
  end.
Definition Split (s : string) (sep : ascii) : list string :=
  split_go sep EmptyString s.

(** [strings.Join] *)
Definition Join (l : list string) (sep : string) : string := String.concat sep l.

Definition lower_ascii (c : ascii) : ascii :=
  let n := nat_of_ascii c in
  if (65 <=? n)%nat && (n <=? 90)%nat then ascii_of_nat (n + 32) else c.
Definition upper_ascii (c : ascii) : ascii :=
  let n := nat_of_ascii c in
  if (97 <=? n)%nat && (n <=? 122)%nat then ascii_of_nat (n - 32) else c.

Fixpoint map_ascii (f : ascii -> ascii) (s : string) : string :=
  match s with
  | EmptyString => EmptyString
  | String c rest => String (f c) (map_ascii f rest)
  end.

(** [strings.ToLower] / [strings.ToUpper] on ASCII field names. *)
Definition ToLower : string -> string := map_ascii lower_ascii.
Definition ToUpper : string -> string := map_ascii upper_ascii.

End strings.

(** ** Go slices of strings over a heap of backing arrays

    [path.Child] is written the way it is because [append] may write
    into the backing array that its argument shares with other slices.
    To say anything about that, the slice header and the arrays are
    modelled explicitly. *)

Module GoSlice.

(** A slice header: address of the backing array, offset of the first
    element inside it, length and capacity.  The nil slice has length
    and capacity 0. *)
Record slice := mkSlice { ptr : nat; off : nat; len : nat; cap : nat }.

Definition nil_slice : slice := mkSlice 0 0 0 0.

(** The heap: one backing array per address; allocation extends it. *)
Abbreviation heap := (list (list string)).

Definition array_at (h : heap) (a : nat) : list string := default [] (h !! a).

(** The elements a slice shows. *)
Definition read (h : heap) (s : slice) : list string :=
  take (len s) (drop (off s) (array_at h (ptr s))).

(** The header describes memory that exists. *)
Definition valid (h : heap) (s : slice) : Prop :=
  len s <= cap s /\
  (cap s = 0 \/ exists a, h !! ptr s = Some a /\ off s + cap s <= length a).

Definition alloc (h : heap) (a : list string) : nat * heap := (length h, h ++ [a]).

(** [make([]string, n)] *)
Definition make (n : nat) (h : heap) : slice * heap :=
  let '(p, h') := alloc h (replicate n EmptyString) in
  (mkSlice p 0 n n, h').

Definition store (h : heap) (a i : nat) (x : string) : heap :=
  match h !! a with
  | Some arr => <[a := <[i := x]> arr]> h
  | None => h
  end.

Fixpoint store_all (h : heap) (a i : nat) (xs : list string) : heap :=
  match xs with
  | [] => h
  | x :: xs' => store_all (store h a i x) a (S i) xs'
  end.

Section Append.
(** The runtime's growth policy for a full slice; the new capacity is
    never below what the append needs. *)
Variable growcap : nat -> nat.

(** [append(s, x)]: in place when there is spare capacity, into a
    fresh array otherwise. *)
Definition append (s : slice) (x : string) (h : heap) : slice * heap :=
  if len s <? cap s then
    (mkSlice (ptr s) (off s) (S (len s)) (cap s),
     store h (ptr s) (off s + len s) x)
  else
    let newcap := Nat.max (S (len s)) (growcap (cap s)) in
    let arr := read h s ++ [x] ++ replicate (newcap - S (len s)) EmptyString in
    let '(p, h') := alloc h arr in
    (mkSlice p 0 (S (len s)) newcap, h').

(** [copy(dst, src)] *)
Definition copy (dst src : slice) (h : heap) : heap :=
  let n := Nat.min (len dst) (len src) in
  store_all h (ptr dst) (off dst) (take n (read h src)).

(** [path] as it lies in memory. *)
Record path := mkPath { root : nat; fields : slice }.

(** [path.Child] *)
Definition Child (p : path) (child : string) (h : heap) : path * heap :=
  let '(subfields, h1) := make (len (fields p) + 1) h in
  let '(tmp, h2) := append (fields p) child h1 in
  let h3 := copy subfields tmp h2 in
  (mkPath (root p) subfields, h3).

End Append.

End GoSlice.

(** ** Types and values as [reflect] shows them *)

(** [reflect.Kind] *)
Inductive Kind :=
| Invalid | Bool | Int | Int8 | Int16 | Int32 | Int64
| Uint | Uint8 | Uint16 | Uint32 | Uint64 | Uintptr
| Float32 | Float64 | Complex64 | Complex128
| Array | Chan | Func | Interface | Map | Ptr | Slice | String_ | Struct
| UnsafePointer.

Definition Kind_eqb (a b : Kind) : bool :=
  match a, b with
  | Invalid, Invalid | Bool, Bool | Int, Int | Int8, Int8 | Int16, Int16
  | Int32, Int32 | Int64, Int64 | Uint, Uint | Uint8, Uint8 | Uint16, Uint16
  | Uint32, Uint32 | Uint64, Uint64 | Uintptr, Uintptr | Float32, Float32
  | Float64, Float64 | Complex64, Complex64 | Complex128, Complex128
  | Array, Array | Chan, Chan | Func, Func | Interface, Interface | Map, Map
  | Ptr, Ptr | Slice, Slice | String_, String_ | Struct, Struct
  | UnsafePointer, UnsafePointer => true
  | _, _ => false
  end.

(** [reflect.StructField]: the name, the type, whether the field is
    embedded, and the struct tag as the key/value pairs it holds. *)
Record StructField (T : Type) := mkField {
  Name : string;
  Type_ : T;
  Anonymous : bool;
  Tag : list (string * string)
}.
Arguments mkField {T}.
Arguments Name {T}.
Arguments Type_ {T}.
Arguments Anonymous {T}.
Arguments Tag {T}.

(** [reflect.Type].  [TNamed] stands for every type whose inside the
    program never looks into: the basic types and named types of any
    kind.  Types are finite trees; a struct that refers to itself
    through a pointer has no counterpart here. *)
Inductive rtype :=
| TNamed (name : string) (k : Kind)
| TPtr (elem : rtype)
| TSlice (elem : rtype)
| TStruct (name : string) (fs : list (StructField rtype)).

Definition Kind_of (t : rtype) : Kind :=
  match t with
  | TNamed _ k => k
  | TPtr _ => Ptr
  | TSlice _ => Slice
  | TStruct _ _ => Struct
  end.

(** [Type.Elem] of a pointer or slice type. *)
Definition Elem (t : rtype) : option rtype :=
  match t with
  | TPtr e | TSlice e => Some e
  | _ => None
  end.

(** [Type.Name]: empty for unnamed pointer and slice types. *)
Definition Name_of (t : rtype) : string :=
  match t with
  | TNamed n _ | TStruct n _ => n
  | _ => ""
  end.

(** [Type.String] *)
Fixpoint String_of (t : rtype) : string :=
  match t with
  | TNamed n _ | TStruct n _ => n
  | TPtr e => "*" +:+ String_of e
  | TSlice e => "[]" +:+ String_of e
  end.

(** [StructTag.Lookup] and [StructTag.Get] *)
Fixpoint Lookup (tag : list (string * string)) (key : string) : option string :=
  match tag with
  | [] => None
  | (k, v) :: rest => if String.eqb k key then Some v else Lookup rest key
  end.
Definition Get (tag : list (string * string)) (key : string) : string :=
  default "" (Lookup tag key).

(** What a scalar location holds. *)
Inductive datum :=
| DInt (z : Z)
| DBool (b : bool)
| DString (s : string)
| DOther (text : string).

(** A value together with its type: a scalar, a pointer (nil or to an
    owned value), a slice (nil or its elements) or a struct. *)
Inductive value :=
| VScalar (t : rtype) (d : datum)
| VPtr (elem : rtype) (p : option value)
| VSlice (elem : rtype) (l : option (list value))
| VStruct (t : rtype) (fields : list (string * value)).

(** [Value.Type] *)
Definition Type_of (v : value) : rtype :=
  match v with
  | VScalar t _ => t
  | VPtr e _ => TPtr e
  | VSlice e _ => TSlice e
  | VStruct t _ => t
  end.

Definition zero_datum (k : Kind) : datum :=
  match k with
  | Bool => DBool false
  | String_ => DString ""
  | Int | Int8 | Int16 | Int32 | Int64
  | Uint | Uint8 | Uint16 | Uint32 | Uint64 | Uintptr => DInt 0
  | _ => DOther ""
  end.

(** [reflect.Zero] *)
Fixpoint Zero (t : rtype) : value :=
  match t with
  | TNamed n k => VScalar t (zero_datum k)
  | TPtr e => VPtr e None
  | TSlice e => VSlice e None
  | TStruct n fs =>
      VStruct t ((fix fields (l : list (StructField rtype)) :=
                    match l with
                    | [] => []
                    | f :: l' => (Name f, Zero (Type_ f)) :: fields l'
                    end) fs)
  end.

(** [Kind.String] *)
Definition Kind_String (k : Kind) : string :=
  match k with
  | Invalid => "invalid" | Bool => "bool" | Int => "int" | Int8 => "int8"
  | Int16 => "int16" | Int32 => "int32" | Int64 => "int64" | Uint => "uint"
  | Uint8 => "uint8" | Uint16 => "uint16" | Uint32 => "uint32"
  | Uint64 => "uint64" | Uintptr => "uintptr" | Float32 => "float32"
  | Float64 => "float64" | Complex64 => "complex64"
  | Complex128 => "complex128" | Array => "array" | Chan => "chan"
  | Func => "func" | Interface => "interface" | Map => "map" | Ptr => "ptr"
  | Slice => "slice" | String_ => "string" | Struct => "struct"
  | UnsafePointer => "unsafe.Pointer"
  end.

(** ** Errors and outcomes *)

(** A Go [error] of this package: one of the two sentinels, or a message
    made by [errors.New] or [fmt.Errorf]. *)
Inductive error :=
| ErrHelp
| ErrVersion
| Errorf (msg : string).

(** [error.Error] *)
Definition Error (e : error) : string :=
  match e with
  | ErrHelp => "help requested by user"
  | ErrVersion => "version requested by user"
  | Errorf msg => msg
  end.

(** ** What the program takes from outside

    Method sets of the destination types, the methods themselves, the
    go-scalar package and the CSV reader are not part of the program;
    they are an interface the development is parametric in. *)
Class External := {
  (** [t.Implements(argUnmarshalerType)] *)
  implementsArg : rtype -> bool;
  (** [t.Implements(textUnmarshalerType)] *)
  implementsText : rtype -> bool;
  (** [scalar.CanParse] *)
  scalar_CanParse : rtype -> bool;
  (** [UnmarshalArg] called on a value: the value afterwards, and the error *)
  UnmarshalArg : value -> string -> value * option error;
  (** [scalar.ParseValue]: the value afterwards, and the error *)
  scalar_ParseValue : value -> string -> value * option error;
  (** [csv.NewReader(strings.NewReader(s)).Read()] *)
  csv_Read : string -> list string + error
}.

(** ** reflect.go *)

Section Reflect.
Context `{External}.

Definition canParseWrapped (t : rtype) : bool :=
  if implementsArg t || implementsArg (TPtr t) then true
  else scalar_CanParse t.

(** [isBoolean] *)
Definition isBoolean (t : rtype) : bool :=
  if implementsArg t then false
  else if implementsText t then false
  else if Kind_eqb (Kind_of t) Bool then true
  else match t with
       | TPtr e => Kind_eqb (Kind_of e) Bool
       | _ => false
       end.

Definition unwrap (k : Kind) (t : rtype) : rtype :=
  if Kind_eqb (Kind_of t) k then default t (Elem t) else t.

(** [canParse]: (parseable, boolean, multiple) *)
Definition canParse (t : rtype) : bool * bool * bool :=
  if canParseWrapped t then (true, isBoolean t, false)
  else
    (* Look inside pointer types *)
    let t1 := unwrap Ptr t in
    (* Look inside slice types *)
    let multiple := Kind_eqb (Kind_of t1) Slice in
    let t2 := unwrap Slice t1 in
    if canParseWrapped t2 then (true, isBoolean t2, multiple)
    else
      (* Look inside pointer types (again, in case of []*Type) *)
      let t3 := unwrap Ptr t2 in
      if canParseWrapped t3 then (true, isBoolean t3, multiple)
      else (false, false, false).

End Reflect.

(** ** parse.go: paths, specs and commands *)

(** [path]: the index of the destination struct and the field names to
    traverse.  From here on the field chain is the list of names the
    slice shows; [GoSlice.Child] below is shown to compute [Child] on
    every heap. *)
Record path := mkPath { root : nat; fields : list string }.

(** [path.String] *)
Definition path_String (p : path) : string :=
  match fields p with
  | [] => "args"
  | _ => "args." +:+ strings.Join (fields p) "."
  end.

(** [path.Child] *)
Definition Child (p : path) (child : string) : path :=
  {| root := root p; fields := fields p ++ [child] |}.

(** [spec]: a command line option *)
Record spec := mkSpec {
  dest : path;
  typ : rtype;
  long : string;
  short : string;
  multiple : bool;
  required : bool;
  positional : bool;
  separate : bool;
  help : string;
  env : string;
  boolean : bool
}.

(** A [*spec]: the address the spec was allocated at, and the spec found
    there.  Specs are not written to once the command tree is built, so
    the pointee travels with the pointer; the address is what
    [map[*spec]bool] keys on. *)
Record specptr := mkPtr { addr : nat; pointee : spec }.

(** [command]: a named subcommand, or the top-level command.  [parent]
    is a back reference that nothing here follows; it is kept as the
    destination path of the parent. *)
Inductive command :=
  mkCommand (name : string) (help : string) (dest : path)
            (specs : list specptr) (subcommands : list command)
            (parent : option path).

Definition name (c : command) : string := let 'mkCommand n _ _ _ _ _ := c in n.
Definition cmd_help (c : command) : string := let 'mkCommand _ h _ _ _ _ := c in h.
Definition cmd_dest (c : command) : path := let 'mkCommand _ _ d _ _ _ := c in d.
Definition specs (c : command) : list specptr := let 'mkCommand _ _ _ s _ _ := c in s.
Definition subcommands (c : command) : list command :=
  let 'mkCommand _ _ _ _ s _ := c in s.
Definition parent (c : command) : option path := let 'mkCommand _ _ _ _ _ p := c in p.

(** [walkFields]: call [visit] for each field of a struct, expanding
    struct fields for which it answers true.  The visitor's captured
    variables are the state [S] threaded through. *)
Section WalkFields.
Context {S : Type}.
Variable visit : StructField rtype -> rtype -> S -> S * bool.

Fixpoint walkFields (t : rtype) (st : S) {struct t} : S :=
  match t with
  | TStruct _ fs =>
      (fix loop (l : list (StructField rtype)) (st : S) {struct l} : S :=
         match l with
         | [] => st
         | field :: l' =>
             let '(st1, expand) := visit field t st in
             let st2 :=
               if expand && Kind_eqb (Kind_of (Type_ field)) Struct
               then walkFields (Type_ field) st1
               else st1 in
             loop l' st2
         end) fs st
  | _ => st
  end.
End WalkFields.

(** What the visitor closure of [cmdFromStruct] captures and changes:
    [errs], [cmd.specs], [cmd.subcommands]; [next] is the next free
    address for a [&spec]. *)
Record walk := mkWalk {
  errs : list string;
  w_specs : list specptr;
  w_subcommands : list command;
  next : nat
}.

(** The per-field variables of the visitor while it reads the tag. *)
Record fieldvars := mkVars {
  v_spec : spec;
  v_isSubcommand : bool;
  v_walk : walk
}.

Definition add_err (w : walk) (e : string) : walk :=
  mkWalk (errs w ++ [e]) (w_specs w) (w_subcommands w) (next w).

Definition set_long (s : spec) (x : string) : spec :=
  mkSpec (dest s) (typ s) x (short s) (multiple s) (required s) (positional s)
         (separate s) (help s) (env s) (boolean s).
Definition set_short (s : spec) (x : string) : spec :=
  mkSpec (dest s) (typ s) (long s) x (multiple s) (required s) (positional s)
         (separate s) (help s) (env s) (boolean s).
Definition set_required (s : spec) : spec :=
  mkSpec (dest s) (typ s) (long s) (short s) (multiple s) true (positional s)
         (separate s) (help s) (env s) (boolean s).
Definition set_positional (s : spec) : spec :=
  mkSpec (dest s) (typ s) (long s) (short s) (multiple s) (required s) true
         (separate s) (help s) (env s) (boolean s).
Definition set_separate (s : spec) : spec :=
  mkSpec (dest s) (typ s) (long s) (short s) (multiple s) (required s)
         (positional s) true (help s) (env s) (boolean s).
Definition set_help (s : spec) (x : string) : spec :=
  mkSpec (dest s) (typ s) (long s) (short s) (multiple s) (required s)
         (positional s) (separate s) x (env s) (boolean s).
Definition set_env (s : spec) (x : string) : spec :=
  mkSpec (dest s) (typ s) (long s) (short s) (multiple s) (required s)
         (positional s) (separate s) (help s) x (boolean s).
Definition set_boolean_multiple (s : spec) (b m : bool) : spec :=
  mkSpec (dest s) (typ s) (long s) (short s) m (required s)
         (positional s) (separate s) (help s) (env s) b.

(** [key[n:]] *)
Definition from (n : nat) (s : string) : string :=
  String.substring n (String.length s - n) s.

Section Build.
Context `{External}.

(** One turn of the loop over the comma-separated keys of the tag
    (the body of [for _, key := range strings.Split(tag, ",")]).
    [build] is the recursive call of [cmdFromStruct] on the field's
    type.  The boolean is false when the visitor returns from inside
    the loop. *)
Definition tagKey (build : string -> nat -> (command * nat) + error)
    (owner : rtype) (field : StructField rtype) (tag : string)
    (cmddest : path) (key0 : string) (v : fieldvars) : fieldvars * bool :=
  let key1 := strings.TrimLeft key0 " " in
  let pos := strings.Index key1 ":" in
  let value := if (pos =? -1)%Z then "" else strings.after key1 pos in
  let key := if (pos =? -1)%Z then key1 else strings.upto key1 pos in
  let sp := v_spec v in
  let w := v_walk v in
  let keep s := (mkVars s (v_isSubcommand v) w, true) in
  if strings.HasPrefix key "---" then
    (mkVars sp (v_isSubcommand v)
       (add_err w (Name_of owner +:+ "." +:+ Name field +:+ ": too many hyphens")),
     true)
  else if strings.HasPrefix key "--" then keep (set_long sp (from 2 key))
  else if strings.HasPrefix key "-" then
    if negb (String.length key =? 2) then
      (mkVars sp (v_isSubcommand v)
         (add_err w (Name_of owner +:+ "." +:+ Name field
                     +:+ ": short arguments must be one character only")),
       false)
    else keep (set_short sp (from 1 key))
  else if String.eqb key "required" then keep (set_required sp)
  else if String.eqb key "positional" then keep (set_positional sp)
  else if String.eqb key "separate" then keep (set_separate sp)
  else if String.eqb key "help" then keep (set_help sp value)
  else if String.eqb key "env" then
    (* Use override name if provided *)
    keep (set_env sp (if negb (String.eqb value "") then value
                      else strings.ToUpper (Name field)))
  else if String.eqb key "subcommand" then
    (* decide on a name for the subcommand *)
    let cmdname := if String.eqb value "" then strings.ToLower (Name field)
                   else value in
    (* parse the subcommand recursively *)
    match build cmdname (next w) with
    | inr err => (mkVars sp (v_isSubcommand v) (add_err w (Error err)), false)
    | inl (subcmd, next') =>
        let subcmd' :=
          mkCommand (name subcmd) (Get (Tag field) "help") (cmd_dest subcmd)
                    (specs subcmd) (subcommands subcmd) (Some cmddest) in
        (mkVars sp true
           (mkWalk (errs w) (w_specs w) (w_subcommands w ++ [subcmd']) next'),
         true)
    end
  else
    (mkVars sp (v_isSubcommand v)
       (add_err w ("unrecognized tag '" +:+ key +:+ "' on field " +:+ tag)),
     false).

Fixpoint tagKeys (build : string -> nat -> (command * nat) + error)
    (owner : rtype) (field : StructField rtype) (tag : string)
    (cmddest : path) (keys : list string) (v : fieldvars) : fieldvars * bool :=
  match keys with
  | [] => (v, true)
  | key :: rest =>
      let '(v', go_on) := tagKey build owner field tag cmddest key v in
      if go_on then tagKeys build owner field tag cmddest rest v'
      else (v', false)
  end.

(** The visitor closure passed to [walkFields] by [cmdFromStruct]. *)
Definition visit (build : rtype -> string -> path -> nat -> (command * nat) + error)
    (cmddest : path) (field : StructField rtype) (t : rtype) (w : walk)
    : walk * bool :=
  (* Check for the ignore switch in the tag *)
  let tag := Get (Tag field) "arg" in
  if String.eqb tag "-" then (w, false)
  (* If this is an embedded struct then recurse into its fields *)
  else if Anonymous field && Kind_eqb (Kind_of (Type_ field)) Struct then (w, true)
  else
    let subdest := Child cmddest (Name field) in
    let sp0 :=
      mkSpec subdest (Type_ field) (strings.ToLower (Name field)) "" false false
             false false (default "" (Lookup (Tag field) "help")) "" false in
    (* Look at the tag *)
    let '(v, go_on) :=
      if negb (String.eqb tag "") then
        tagKeys (fun n => build (Type_ field) n subdest) t field tag cmddest
                (strings.Split tag ",") (mkVars sp0 false w)
      else (mkVars sp0 false w, true) in
    let w1 := v_walk v in
    if negb go_on then (w1, false)
    else if negb (v_isSubcommand v) then
      let '(parseable, isbool, ismult) := canParse (Type_ field) in
      let sp := set_boolean_multiple (v_spec v) isbool ismult in
      let w2 := mkWalk (errs w1) (w_specs w1 ++ [mkPtr (next w1) sp])
                       (w_subcommands w1) (S (next w1)) in
      if negb parseable then
        (add_err w2 (Name_of t +:+ "." +:+ Name field +:+ ": "
                     +:+ String_of (Type_ field) +:+ " fields are not supported"),
         false)
      else (w2, false)
    else (w1, false).

(** [cmdFromStruct].  [free] is the first free address; the result
    carries the next free address after the build.  A pointer type is
    a [TPtr]; a [TNamed] type shows no element type and is refused like
    any type that is no pointer. *)
Fixpoint cmdFromStruct (name : string) (dest : path) (t : rtype) (free : nat)
    {struct t} : (command * nat) + error :=
  match t with
  | TPtr e =>
      if negb (Kind_eqb (Kind_of e) Struct) then
        inr (Errorf ("subcommands must be pointers to structs but "
                     +:+ path_String dest +:+ " is a pointer to "
                     +:+ Kind_String (Kind_of e)))
      else
        let w :=
          walkFields (visit (fun ft n d nx => cmdFromStruct n d ft nx) dest)
                     e (mkWalk [] [] [] free) in
        if (0 <? length (errs w)) then
          inr (Errorf (strings.Join (errs w) (String "010"%char EmptyString)))
        else
          (* check that we don't have both positionals and subcommands *)
          let hasPositional :=
            existsb (fun p => positional (pointee p)) (w_specs w) in
          if hasPositional && (0 <? length (w_subcommands w)) then
            inr (Errorf (path_String dest
                         +:+ " cannot have both subcommands and positional arguments"))
          else
            inl (mkCommand name "" dest (w_specs w) (w_subcommands w) None,
                 next w)
  | _ =>
      (* commands can only be created from pointers to structs *)
      inr (Errorf ("subcommands must be pointers to structs but "
                   +:+ path_String dest +:+ " is a "
                   +:+ Kind_String (Kind_of t)))
  end.

End Build.

(** ** Reaching into the destination structs *)

(** Whether the field [x] of struct type [t] is an embedded struct. *)
Definition embedded (t : rtype) (x : string) : bool :=
  match t with
  | TStruct _ fs =>
      existsb (fun f => String.eqb (Name f) x && Anonymous f
                        && Kind_eqb (Kind_of (Type_ f)) Struct) fs
  | _ => false
  end.

Fixpoint direct (fname : string) (l : list (string * value)) : option value :=
  match l with
  | [] => None
  | (n, x) :: l' => if String.eqb n fname then Some x else direct fname l'
  end.

(** [Value.FieldByName] on a struct value: the field of that name, or
    else the field promoted from an embedded struct.  [None] is the
    zero [Value] that reflect returns when there is no such field. *)
Fixpoint FieldByName (v : value) (fname : string) {struct v} : option value :=
  match v with
  | VStruct t fs =>
      match direct fname fs with
      | Some x => Some x
      | None =>
          (fix promoted (l : list (string * value)) : option value :=
             match l with
             | [] => None
             | (n, x) :: l' =>
                 if embedded t n then
                   match FieldByName x fname with
                   | Some y => Some y
                   | None => promoted l'
                   end
                 else promoted l'
             end) fs
      end
  | _ => None
  end.

Fixpoint set_direct (fname : string) (new : value) (l : list (string * value))
    : list (string * value) :=
  match l with
  | [] => []
  | (n, x) :: l' =>
      if String.eqb n fname then (n, new) :: l'
      else (n, x) :: set_direct fname new l'
  end.

(** The struct after a store through the [Value] that [FieldByName]
    returned. *)
Fixpoint SetField (v : value) (fname : string) (new : value) {struct v} : value :=
  match v with
  | VStruct t fs =>
      match direct fname fs with
      | Some _ => VStruct t (set_direct fname new fs)
      | None =>
          VStruct t
            ((fix promoted (l : list (string * value)) : list (string * value) :=
                match l with
                | [] => []
                | (n, x) :: l' =>
                    if embedded t n then
                      match FieldByName x fname with
                      | Some _ => (n, SetField x fname new) :: l'
                      | None => (n, x) :: promoted l'
                      end
                    else (n, x) :: promoted l'
                end) fs)
      end
  | _ => v
  end.

(** What [Parser.val] hands back: the zero [Value] (a nil pointer was
    met on the way), a panic, or the value at the path. *)
Inductive rv :=
| RInvalid
| RPanic
| RVal (v : value).

(** The loop of [Parser.val], started at [v]. *)
Fixpoint val_from (v : value) (fs : list string) : rv :=
  match fs with
  | [] => RVal v
  | field :: rest =>
      match v with
      | VPtr _ None => RInvalid
      | _ =>
          let s := match v with VPtr _ (Some x) => x | _ => v end in
          match s with
          | VStruct _ _ =>
              match FieldByName s field with
              | Some x => val_from x rest
              | None => RPanic
              end
          | _ => RPanic
          end
      end
  end.

(** The structure rooted at [v] after [new] was stored through the
    [Value] that [val_from v fs] returned. *)
Fixpoint assign_from (v : value) (fs : list string) (new : value) : value :=
  match fs with
  | [] => new
  | field :: rest =>
      let inside s :=
        match FieldByName s field with
        | Some x => SetField s field (assign_from x rest new)
        | None => s
        end in
      match v with
      | VPtr e None => v
      | VPtr e (Some x) => VPtr e (Some (inside x))
      | _ => inside v
      end
  end.

(** [Parser.val] on the list of roots. *)
Definition val (roots : list value) (dest : path) : rv :=
  match roots !! root dest with
  | Some v => val_from v (fields dest)
  | None => RPanic
  end.

(** The roots after a store through [val roots dest]. *)
Definition assign (roots : list value) (dest : path) (new : value) : list value :=
  match roots !! root dest with
  | Some v => <[root dest := assign_from v (fields dest) new]> roots
  | None => roots
  end.

(** ** parse.go: the interpreter *)

(** [isFlag]: true for a token such as "-v" or "--user" but not "-" or "--" *)
Definition isFlag (s : string) : bool :=
  strings.HasPrefix s "-" && negb (String.eqb (strings.TrimLeft s "-") "").

(** [findOption] *)
Fixpoint findOption (specs : list specptr) (name : string) : option specptr :=
  match specs with
  | [] => None
  | sp :: rest =>
      if positional (pointee sp) then findOption rest name
      else if String.eqb (long (pointee sp)) name
              || String.eqb (short (pointee sp)) name then Some sp
      else findOption rest name
  end.

(** [findSubcommand] *)
Fixpoint findSubcommand (cmds : list command) (nm : string) : option command :=
  match cmds with
  | [] => None
  | cmd :: rest =>
      if String.eqb (name cmd) nm then Some cmd else findSubcommand rest nm
  end.

(** The name and the inline value of a flag token: the dashes are
    trimmed and the token is cut at the first equals sign. *)
Definition flag_name (arg : string) : string :=
  let opt := strings.TrimLeft arg "-" in
  let pos := strings.Index opt "=" in
  if (pos =? -1)%Z then opt else strings.upto opt pos.
Definition flag_value (arg : string) : string :=
  let opt := strings.TrimLeft arg "-" in
  let pos := strings.Index opt "=" in
  if (pos =? -1)%Z then "" else strings.after opt pos.

(** How a piece of the interpreter ends: it goes on with a result, it
    returns an error, it panics, or the model's loop counter ran out. *)
Inductive ctl (A : Type) :=
| Go (a : A)
| Ret (e : error)
| Pan
| OutOfFuel.
Arguments Go {A}.
Arguments Ret {A}.
Arguments Pan {A}.
Arguments OutOfFuel {A}.

(** [Parser], and the local variables of [Parser.process] that change
    while the arguments are walked. *)
Record Parser := mkParser {
  cmd : command;
  roots : list value;
  lastCmd : option command
}.

Record session := mkSession {
  parser : Parser;
  wasPresent : gmap nat bool;
  curCmd : command;
  active : list specptr;        (* the local [specs] *)
  allpositional : bool;
  positionals : list string
}.

Definition with_roots (st : session) (r : list value) : session :=
  mkSession (mkParser (cmd (parser st)) r (lastCmd (parser st)))
            (wasPresent st) (curCmd st) (active st) (allpositional st)
            (positionals st).
Definition mark_present (st : session) (sp : specptr) : session :=
  mkSession (parser st) (<[addr sp := true]> (wasPresent st)) (curCmd st)
            (active st) (allpositional st) (positionals st).
Definition with_positionals (st : session) (l : list string) : session :=
  mkSession (parser st) (wasPresent st) (curCmd st) (active st)
            (allpositional st) l.
Definition present (st : session) (sp : specptr) : bool :=
  default false (wasPresent st !! addr sp).

(** The variables of [Parser.process] as it sets them before reading
    the environment: nothing seen yet, the top-level command current,
    and a copy of its specs. *)
Definition start (p : Parser) : session :=
  mkSession (mkParser (cmd p) (roots p) (Some (cmd p))) ∅ (cmd p)
            (specs (cmd p)) false [].

Definition is_numeric_kind (k : Kind) : bool :=
  match k with
  | Int | Int8 | Int16 | Int32 | Int64 | Float32 | Float64
  | Uint | Uint8 | Uint16 | Uint32 | Uint64 | Uintptr => true
  | _ => false
  end.

Section Interpreter.
Context `{External}.
(** The process environment, as [os.LookupEnv] reads it. *)
Variable environ : gmap string string.

(** [parseValue].  [canset] and [canaddr] are [v.CanSet()] and
    [v.CanAddr()]; the result is the value afterwards and the error. *)
Definition parseValue (canset canaddr : bool) (v : value) (s : string)
    : value * option error :=
  let after_alloc (v : value) :=
    (* If it implements ArgUnmarshaler then use that *)
    if implementsArg (Type_of v) then UnmarshalArg v s
    (* If it's a value instead of a pointer, check its address as well *)
    else if canaddr && implementsArg (TPtr (Type_of v)) then
      match UnmarshalArg (VPtr (Type_of v) (Some v)) s with
      | (VPtr _ (Some v'), err) => (v', err)
      | (_, err) => (v, err)
      end
    else scalar_ParseValue v s in
  match v with
  | VPtr e None =>
      (* If we have a nil pointer then allocate a new object *)
      if negb canset then scalar_ParseValue v s
      else after_alloc (VPtr e (Some (Zero e)))
  | _ => after_alloc v
  end.

(** [nextIsNumeric] *)
Fixpoint nextIsNumeric (t : rtype) (s : string) : bool :=
  match t with
  | TPtr e => nextIsNumeric e s
  | _ =>
      if is_numeric_kind (Kind_of t) then
        match parseValue false false (VPtr t (Some (Zero t))) s with
        | (_, None) => true
        | (_, Some _) => false
        end
      else false
  end.

(** The loop of [setSlice] over the values, on the contents [acc] of
    the destination slice. *)
Fixpoint setSlice_loop (elem : rtype) (ptr : bool) (acc : list value)
    (values : list string) : list value * option error :=
  match values with
  | [] => (acc, None)
  | s :: rest =>
      match parseValue true true (Zero elem) s with
      | (_, Some err) => (acc, Some err)
      | (x, None) =>
          let item := if ptr then VPtr elem (Some x) else x in
          setSlice_loop elem ptr (acc ++ [item]) rest
      end
  end.

(** [setSlice]: the destination afterwards, and how the call ended. *)
Definition setSlice (dest : rv) (values : list string) (trunc : bool)
    : rv * ctl unit :=
  match dest with
  | RPanic => (dest, Pan)
  | RInvalid => (dest, Ret (Errorf "field is not writable"))
  | RVal (VSlice e l) =>
      let ptr := Kind_eqb (Kind_of e) Ptr && negb (implementsText e)
                 && negb (implementsArg e) in
      let elem := if ptr then default e (Elem e) else e in
      (* Truncate the dest slice in case default values exist *)
      let l1 := match l with
                | Some _ => if trunc then Some [] else l
                | None => None
                end in
      let '(items, err) := setSlice_loop elem ptr (default [] l1) values in
      (* [reflect.Append] leaves a nil slice nil only if nothing was added *)
      let l2 := match l1, items with
                | None, [] => None
                | _, _ => Some items
                end in
      (RVal (VSlice e l2),
       match err with Some e => Ret e | None => Go tt end)
  | RVal (VPtr e p) =>
      (* a pointer to a slice: [SetLen] and [reflect.Append] panic *)
      match p, trunc, values with
      | Some _, true, _ => (dest, Pan)
      | _, _, [] => (dest, Go tt)
      | _, _, s :: _ =>
          match parseValue true true (Zero e) s with
          | (_, Some err) => (dest, Ret err)
          | (_, None) => (dest, Pan)
          end
      end
  | RVal _ => (dest, Pan)
  end.

(** A store through the [Value] that [p.val(dest)] returned. *)
Definition put (st : session) (d : path) (r : rv) : session :=
  match r with
  | RVal v => with_roots st (assign (roots (parser st)) d v)
  | _ => st
  end.

(** [parseValue(p.val(dest), s)]: the zero [Value] makes
    [v.Interface()] panic. *)
Definition parseValue_at (st : session) (d : path) (s : string)
    : session * ctl unit :=
  match val (roots (parser st)) d with
  | RVal v =>
      let '(v', err) := parseValue true true v s in
      (put st d (RVal v'),
       match err with Some e => Ret e | None => Go tt end)
  | _ => (st, Pan)
  end.

(** [setSlice(p.val(dest), values, trunc)] *)
Definition setSlice_at (st : session) (d : path) (values : list string)
    (trunc : bool) : session * ctl unit :=
  let '(r, c) := setSlice (val (roots (parser st)) d) values trunc in
  (put st d r, c).

(** [Parser.captureEnvVars] *)
Fixpoint captureEnvVars (specs : list specptr) (st : session)
    : session * ctl unit :=
  match specs with
  | [] => (st, Go tt)
  | sp :: rest =>
      let s := pointee sp in
      if String.eqb (env s) "" then captureEnvVars rest st
      else
        match environ !! env s with
        | None => captureEnvVars rest st
        | Some value =>
            let '(st1, c) :=
              if multiple s then
                (* expect a CSV string in the case of multiple values *)
                match csv_Read value with
                | inr err =>
                    (st, Ret (Errorf
                       ("error reading a CSV string from environment variable "
                        +:+ env s +:+ " with multiple values: " +:+ Error err)))
                | inl values =>
                    match setSlice_at st (dest s) values (negb (separate s)) with
                    | (st', Ret err) =>
                        (st', Ret (Errorf
                           ("error processing environment variable " +:+ env s
                            +:+ " with multiple values: " +:+ Error err)))
                    | r => r
                    end
                end
              else
                match parseValue_at st (dest s) value with
                | (st', Ret err) =>
                    (st', Ret (Errorf
                       ("error processing environment variable " +:+ env s
                        +:+ ": " +:+ Error err)))
                | r => r
                end in
            match c with
            | Go _ => captureEnvVars rest (mark_present st1 sp)
            | _ => (st1, c)
            end
        end
  end.

(** The inner loop that gathers the values of a multiple-value
    option from the tokens after the flag. *)
Fixpoint collect (separate : bool) (rest : list string) : list string :=
  match rest with
  | [] => []
  | a :: rest' =>
      if isFlag a then []
      else a :: (if separate then [] else collect separate rest')
  end.

(** The subcommand branch of the loop body, once [subcmd] is found. *)
Definition enter (subcmd : command) (st : session) : session * ctl unit :=
  (* instantiate the field to point to a new struct *)
  match val (roots (parser st)) (cmd_dest subcmd) with
  | RVal (VPtr e _) =>
      let st1 := put st (cmd_dest subcmd) (RVal (VPtr e (Some (Zero e)))) in
      (* add the new options to the set of allowed options *)
      let st2 := mkSession (parser st1) (wasPresent st1) (curCmd st1)
                           (active st1 ++ specs subcmd) (allpositional st1)
                           (positionals st1) in
      (* capture environment vars for these new options *)
      match captureEnvVars (specs subcmd) st2 with
      | (st3, Go _) =>
          (mkSession (mkParser (cmd (parser st3)) (roots (parser st3)) (Some subcmd))
                     (wasPresent st3) subcmd (active st3) (allpositional st3)
                     (positionals st3),
           Go tt)
      | r => r
      end
  | _ => (st, Pan)
  end.

(** The flag branch of the loop body, once the spec is found.  The
    result carries the index the loop goes on from. *)
Definition option_ (args : list string) (i : nat) (arg value : string)
    (sp : specptr) (st0 : session) : session * ctl nat :=
  let s := pointee sp in
  let st := mark_present st0 sp in
  (* deal with the case of multiple values *)
  if multiple s then
    let values := if String.eqb value ""
                  then collect (separate s) (drop (i + 1) args)
                  else [value] in
    let i' := if String.eqb value "" then i + length values else i in
    match setSlice_at st (dest s) values (negb (separate s)) with
    | (st', Go _) => (st', Go (i' + 1))
    | (st', Ret err) =>
        (st', Ret (Errorf ("error processing " +:+ arg +:+ ": " +:+ Error err)))
    | (st', Pan) => (st', Pan)
    | (st', OutOfFuel) => (st', OutOfFuel)
    end
  else
    (* if it's a flag and it has no value then set the value to true *)
    let value1 := if boolean s && String.eqb value "" then "true" else value in
    (* if we have something like "--foo" then the value is the next argument *)
    let next_value : ctl (string * nat) :=
      if String.eqb value1 "" then
        match args !! (i + 1) with
        | None => Ret (Errorf ("missing value for " +:+ arg))
        | Some nxt =>
            if negb (nextIsNumeric (typ s) nxt) && isFlag nxt
            then Ret (Errorf ("missing value for " +:+ arg))
            else Go (nxt, i + 1)
        end
      else Go (value1, i) in
    match next_value with
    | Go (value2, i') =>
        match parseValue_at st (dest s) value2 with
        | (st', Go _) => (st', Go (i' + 1))
        | (st', Ret err) =>
            (st', Ret (Errorf ("error processing " +:+ arg +:+ ": " +:+ Error err)))
        | (st', Pan) => (st', Pan)
        | (st', OutOfFuel) => (st', OutOfFuel)
        end
    | Ret e => (st, Ret e)
    | Pan => (st, Pan)
    | OutOfFuel => (st, OutOfFuel)
    end.

(** One turn of the loop over the arguments: the body of
    [for i := 0; i < len(args); i++], with the index of the next turn. *)
Definition step (args : list string) (i : nat) (st : session)
    : session * ctl nat :=
  match args !! i with
  | None => (st, Pan)
  | Some arg =>
      if String.eqb arg "--" then
        (mkSession (parser st) (wasPresent st) (curCmd st) (active st) true
                   (positionals st),
         Go (i + 1))
      else if negb (isFlag arg) || allpositional st then
        (* each subcommand can have either subcommands or positionals, but not both *)
        if length (subcommands (curCmd st)) =? 0 then
          (with_positionals st (positionals st ++ [arg]), Go (i + 1))
        else
          (* if we have a subcommand then make sure it is valid for the current context *)
          match findSubcommand (subcommands (curCmd st)) arg with
          | None => (st, Ret (Errorf ("invalid subcommand: " +:+ arg)))
          | Some subcmd =>
              match enter subcmd st with
              | (st', Go _) => (st', Go (i + 1))
              | (st', Ret e) => (st', Ret e)
              | (st', Pan) => (st', Pan)
              | (st', OutOfFuel) => (st', OutOfFuel)
              end
          end
      (* check for special --help and --version flags *)
      else if String.eqb arg "-h" || String.eqb arg "--help" then (st, Ret ErrHelp)
      else if String.eqb arg "--version" then (st, Ret ErrVersion)
      else
        (* check for an equals sign, as in "--foo=bar" *)
        let value := flag_value arg in
        let opt := flag_name arg in
        (* lookup the spec for this option *)
        match findOption (active st) opt with
        | None => (st, Ret (Errorf ("unknown argument " +:+ arg)))
        | Some sp => option_ args i arg value sp st
        end
  end.

(** The loop over the arguments.  Every turn moves the index forward,
    so [length args] turns are enough ([loop_fuel] below). *)
Fixpoint loop (fuel : nat) (args : list string) (i : nat) (st : session)
    : session * ctl unit :=
  if i <? length args then
    match fuel with
    | 0 => (st, OutOfFuel)
    | S fuel' =>
        match step args i st with
        | (st', Go i') => loop fuel' args i' st'
        | (st', Ret e) => (st', Ret e)
        | (st', Pan) => (st', Pan)
        | (st', OutOfFuel) => (st', OutOfFuel)
        end
    end
  else (st, Go tt).

(** The loop that hands the collected positionals to the positional
    specs, in the order of the specs. *)
Fixpoint process_positionals (specs : list specptr) (st : session)
    : session * ctl unit :=
  match specs with
  | [] => (st, Go tt)
  | sp :: rest =>
      let s := pointee sp in
      if negb (positional s) then process_positionals rest st
      else
        match positionals st with
        | [] => (st, Go tt)
        | first :: others =>
            let st1 := mark_present st sp in
            if multiple s then
              match setSlice_at st1 (dest s) (positionals st1) true with
              | (st2, Go _) => process_positionals rest (with_positionals st2 [])
              | (st2, Ret err) =>
                  (st2, Ret (Errorf ("error processing " +:+ long s +:+ ": "
                                     +:+ Error err)))
              | r => r
              end
            else
              match parseValue_at st1 (dest s) first with
              | (st2, Go _) => process_positionals rest (with_positionals st2 others)
              | (st2, Ret err) =>
                  (st2, Ret (Errorf ("error processing " +:+ long s +:+ ": "
                                     +:+ Error err)))
              | r => r
              end
        end
  end.

(** The final loop: the first required spec that was not seen. *)
Fixpoint check_required (specs : list specptr) (st : session) : option error :=
  match specs with
  | [] => None
  | sp :: rest =>
      let s := pointee sp in
      if required s && negb (present st sp) then
        let name := if negb (positional s) then "--" +:+ long s else long s in
        Some (Errorf (name +:+ " is required"))
      else check_required rest st
  end.

(** The part of [Parser.process] after the environment was read. *)
Definition process_args (args : list string) (st : session)
    : session * ctl unit :=
  (* process each string from the command line *)
  match loop (length args) args 0 st with
  | (st1, Go _) =>
      (* process positionals *)
      match process_positionals (active st1) st1 with
      | (st2, Go _) =>
          match positionals st2 with
          | first :: _ =>
              (st2, Ret (Errorf ("too many positional arguments at '"
                                 +:+ first +:+ "'")))
          | [] =>
              (* finally check that all the required args were provided *)
              match check_required (active st2) st2 with
              | Some e => (st2, Ret e)
              | None => (st2, Go tt)
              end
          end
      | r => r
      end
  | r => r
  end.

(** [Parser.process]: the parser afterwards (its roots are the
    destination structs) and how the call ended; [Go tt] is the nil
    error. *)
Definition process (p : Parser) (args : list string) : Parser * ctl unit :=
  let st := start p in
  (* deal with environment vars *)
  let '(st', c) :=
    match captureEnvVars (active st) st with
    | (st1, Go _) => process_args args st1
    | r => r
    end in
  (parser st', c).

(** The loop of [Parser.Parse] over the raw arguments. *)
Fixpoint help_requested (args : list string) : bool :=
  match args with
  | [] => false
  | arg :: rest =>
      if String.eqb arg "-h" || String.eqb arg "--help" then true
      else if String.eqb arg "--" then false
      else help_requested rest
  end.

(** [Parser.Parse] *)
Definition Parse (p : Parser) (args : list string) : Parser * ctl unit :=
  match process p args with
  | (p', Ret err) =>
      (* make sure help text supercedes other errors *)
      if help_requested args then (p', Ret ErrHelp) else (p', Ret err)
  | r => r
  end.

(** The loop of [NewParser] over the destination values.  [i] is the
    index of [dest] among the roots. *)
Fixpoint NewParser_loop (prog : string) (dests : list value) (i : nat)
    (acc : command) (free : nat) : ctl command :=
  match dests with
  | [] => Go acc
  | dest :: rest =>
      let t := Type_of dest in
      if negb (Kind_eqb (Kind_of t) Ptr) then Pan
      else
        match cmdFromStruct prog (mkPath i []) t free with
        | inr err => Ret err
        | inl (c, next') =>
            NewParser_loop prog rest (S i)
              (mkCommand (name acc) (cmd_help acc) (cmd_dest acc)
                         (specs acc ++ specs c)
                         (subcommands acc ++ subcommands c) (parent acc))
              next'
        end
  end.

(** [NewParser]; [prog] is the program name it picked.  The version
    and description strings play no part in parsing and are left out. *)
Definition NewParser (prog : string) (dests : list value) : ctl Parser :=
  match NewParser_loop prog dests 0
          (mkCommand prog "" (mkPath 0 []) [] [] None) 0 with
  | Go c => Go (mkParser c dests None)
  | Ret e => Ret e
  | Pan => Pan
  | OutOfFuel => OutOfFuel
  end.

End Interpreter.

(** ** An instance of the outside interface

    Decimal integers, booleans and strings, no custom unmarshalers, and
    comma-separated lists without quoting.  It is what the examples
    below run the program with. *)

Module Plain.

Definition digit (c : ascii) : option Z :=
  let n := nat_of_ascii c in
  if (48 <=? n) && (n <=? 57) then Some (Z.of_nat (n - 48)) else None.

Fixpoint digits (acc : Z) (s : string) : option Z :=
  match s with
  | EmptyString => Some acc
  | String c rest =>
      match digit c with
      | Some d => digits (acc * 10 + d) rest
      | None => None
      end
  end.

(** An optional sign followed by at least one decimal digit. *)
Definition decimal (s : string) : option Z :=
  match s with
  | EmptyString => None
  | String "-"%char (String _ _ as rest) => Z.opp <$> digits 0 rest
  | String "+"%char (String _ _ as rest) => digits 0 rest
  | _ => digits 0 s
  end.

Definition int_range (k : Kind) : option (Z * Z) :=
  match k with
  | Int | Int64 => Some (- 2 ^ 63, 2 ^ 63 - 1)
  | Int8 => Some (- 2 ^ 7, 2 ^ 7 - 1)
  | Int16 => Some (- 2 ^ 15, 2 ^ 15 - 1)
  | Int32 => Some (- 2 ^ 31, 2 ^ 31 - 1)
  | Uint | Uint64 | Uintptr => Some (0, 2 ^ 64 - 1)
  | Uint8 => Some (0, 2 ^ 8 - 1)
  | Uint16 => Some (0, 2 ^ 16 - 1)
  | Uint32 => Some (0, 2 ^ 32 - 1)
  | _ => None
  end%Z.

Definition parse_bool (s : string) : option bool :=
  if existsb (String.eqb s) ["1"; "t"; "T"; "TRUE"; "true"; "True"] then Some true
  else if existsb (String.eqb s) ["0"; "f"; "F"; "FALSE"; "false"; "False"]
  then Some false
  else None.

Definition parse_scalar (t : rtype) (s : string) : datum + error :=
  match Kind_of t with
  | String_ => inl (DString s)
  | Bool =>
      match parse_bool s with
      | Some b => inl (DBool b)
      | None => inr (Errorf ("invalid syntax: " +:+ s))
      end
  | k =>
      match int_range k, decimal s with
      | Some (lo, hi), Some z =>
          if (lo <=? z)%Z && (z <=? hi)%Z then inl (DInt z)
          else inr (Errorf ("value out of range: " +:+ s))
      | Some _, None => inr (Errorf ("invalid syntax: " +:+ s))
      | None, _ => inr (Errorf ("cannot parse into " +:+ String_of t))
      end
  end.

Definition into (v : value) (s : string) : value * option error :=
  match v with
  | VScalar t _ =>
      match parse_scalar t s with
      | inl d => (VScalar t d, None)
      | inr e => (v, Some e)
      end
  | _ => (v, Some (Errorf ("cannot parse into " +:+ String_of (Type_of v))))
  end.

Definition ParseValue (v : value) (s : string) : value * option error :=
  match v with
  | VPtr e None =>
      let '(x, err) := into (Zero e) s in (VPtr e (Some x), err)
  | VPtr e (Some x) =>
      let '(x', err) := into x s in (VPtr e (Some x'), err)
  | _ => into v s
  end.

Definition can_kind (k : Kind) : bool :=
  match k with
  | Bool | String_ | Int | Int8 | Int16 | Int32 | Int64
  | Uint | Uint8 | Uint16 | Uint32 | Uint64 | Uintptr => true
  | _ => false
  end.

Definition CanParse (t : rtype) : bool :=
  match t with
  | TPtr e => can_kind (Kind_of e)
  | _ => can_kind (Kind_of t)
  end.

#[export] Instance runtime : External := {|
  implementsArg := fun _ => false;
  implementsText := fun _ => false;
  scalar_CanParse := CanParse;
  UnmarshalArg := fun v _ => (v, None);
  scalar_ParseValue := ParseValue;
  csv_Read := fun s => inl (strings.Split s ","%char)
|}.

Definition tint : rtype := TNamed "int" Int.
Definition tstring : rtype := TNamed "string" String_.
Definition tbool : rtype := TNamed "bool" Bool.

End Plain.

(** ** A destination struct to run the program on

<<
    type ServeCmd struct { Port int `arg:"required"` }
    type Args struct {
      Serve   *ServeCmd `arg:"subcommand:serve"`
      Tag     []string  `arg:"separate"`
      Names   []string
      Foo     int       `arg:"env:FOO"`
      Count   int
      Verbose bool      `arg:"-v"`
    }
>> *)

Module Sample.
Import Plain.

Definition serveT : rtype :=
  TStruct "ServeCmd" [mkField "Port" tint false [("arg", "required")]].

Definition argsT : rtype :=
  TStruct "Args"
    [mkField "Serve" (TPtr serveT) false [("arg", "subcommand:serve")];
     mkField "Tag" (TSlice tstring) false [("arg", "separate")];
     mkField "Names" (TSlice tstring) false [];
     mkField "Foo" tint false [("arg", "env:FOO")];
     mkField "Count" tint false [];
     mkField "Verbose" tbool false [("arg", "-v")]].

(** [&Args{}] *)
Definition args0 : value := VPtr argsT (Some (Zero argsT)).

(** [NewParser(Config{Program: "prog"}, &Args{})] *)
Definition program : Parser :=
  match NewParser "prog" [args0] with
  | Go p => p
  | _ => mkParser (mkCommand "prog" "" (mkPath 0 []) [] [] None) [args0] None
  end.

(** A struct that declares a positional and a subcommand side by side:
<<
    type Both struct {
      Input string    `arg:"positional"`
      Serve *ServeCmd `arg:"subcommand"`
    }
>> *)
Definition bothT : rtype :=
  TStruct "Both"
    [mkField "Input" tstring false [("arg", "positional")];
     mkField "Serve" (TPtr serveT) false [("arg", "subcommand")]].

(** A struct with two offending fields, the first one by a tag key
    that does not exist:
<<
    type Opts struct {
      Port  int `arg:"bogus"`
      Level int `arg:"-xy"`
    }
>> *)
Definition optsT : rtype :=
  TStruct "Opts"
    [mkField "Port" tint false [("arg", "bogus")];
     mkField "Level" tint false [("arg", "-xy")]].

(** A struct with a channel field and an overlong short name:
<<
    type Bad struct {
      Events chan int
      Level  int `arg:"-xy"`
    }
>> *)
Definition badT : rtype :=
  TStruct "Bad"
    [mkField "Events" (TNamed "chan int" Chan) false [];
     mkField "Level" tint false [("arg", "-xy")]].

(** Two destinations for one parser, the first with a positional, the
    second with a subcommand:
<<
    type Files struct {
      Input string `arg:"positional"`
    }
    type Cmds struct {
      Serve *ServeCmd `arg:"subcommand"`
    }
>> *)
Definition filesT : rtype :=
  TStruct "Files" [mkField "Input" tstring false [("arg", "positional")]].
Definition cmdsT : rtype :=
  TStruct "Cmds" [mkField "Serve" (TPtr serveT) false [("arg", "subcommand")]].

(** [&Files{}] and [&Cmds{}] *)
Definition files0 : value := VPtr filesT (Some (Zero filesT)).
Definition cmds0 : value := VPtr cmdsT (Some (Zero cmdsT)).

(** The command and the next free address that a build returned. *)
Definition built (r : (command * nat) + error) : command * nat :=
  match r with
  | inl x => x
  | inr _ => (mkCommand "" "" (mkPath 0 []) [] [] None, 0)
  end.
Definition files_built : command * nat :=
  built (cmdFromStruct "prog" (mkPath 0 []) (TPtr filesT) 0).
Definition cmds_built : command * nat :=
  built (cmdFromStruct "prog" (mkPath 1 []) (TPtr cmdsT) (snd files_built)).

(** A struct with a field that is switched off and one that is not:
<<
    type Quiet struct {
      Level  int
      Events chan int `arg:"-"`
      Name   string
    }
>> *)
Definition quietT : rtype :=
  TStruct "Quiet"
    [mkField "Level" tint false [];
     mkField "Events" (TNamed "chan int" Chan) false [("arg", "-")];
     mkField "Name" tstring false []].

(** A destination without subcommands:
<<
    type Copy struct {
      Input  string   `arg:"positional,required"`
      Output []string `arg:"positional"`
      Force  bool     `arg:"-f"`
      Name   string
      Jobs   *int     `arg:"env:JOBS"`
    }
>> *)
Definition copyT : rtype :=
  TStruct "Copy"
    [mkField "Input" tstring false [("arg", "positional,required")];
     mkField "Output" (TSlice tstring) false [("arg", "positional")];
     mkField "Force" tbool false [("arg", "-f")];
     mkField "Name" tstring false [];
     mkField "Jobs" (TPtr tint) false [("arg", "env:JOBS")]].

(** [NewParser(Config{Program: "cp"}, &Copy{})] *)
Definition copy : Parser :=
  match NewParser "cp" [VPtr copyT (Some (Zero copyT))] with
  | Go p => p
  | _ => mkParser (mkCommand "cp" "" (mkPath 0 []) [] [] None) [] None
  end.

(** The spec of [copy] that stores into the field [f]. *)
Definition copy_spec (f : string) : specptr :=
  default (mkPtr 0 (mkSpec (mkPath 0 []) tint "" "" false false false false "" ""
                           false))
          (head (filter (fun sp => bool_decide (fields (dest (pointee sp)) = [f]))
                        (specs (cmd copy)))).

(** The field of the destination struct at a chain of names, after a
    run. *)
Definition field_after (r : Parser * ctl unit) (chain : list string) : rv :=
  val (roots (fst r)) (mkPath 0 chain).

Definition str (s : string) : value := VScalar tstring (DString s).
Definition int (z : Z) : value := VScalar tint (DInt z).

(** The spec of the top-level command that a flag name resolves to. *)
Definition spec_named (nm : string) : specptr :=
  default (mkPtr 0 (mkSpec (mkPath 0 []) tint "" "" false false false false "" ""
                           false))
          (findOption (specs (cmd program)) nm).

(** The subcommand [serve] and its option [port]. *)
Definition serve_cmd : command :=
  default (cmd program) (findSubcommand (subcommands (cmd program)) "serve").
Definition port_spec : specptr :=
  default (spec_named "") (findOption (specs serve_cmd) "port").

(** The parser over a destination whose slices hold defaults:
    [&Args{Names: []string{"old"}, Tag: []string{"kept"}}]. *)
Definition with_defaults : Parser :=
  mkParser (cmd program)
    (assign (assign (roots program) (mkPath 0 ["Names"])
               (VSlice tstring (Some [str "old"])))
            (mkPath 0 ["Tag"]) (VSlice tstring (Some [str "kept"])))
    None.

End Sample.

(** ** What the statements below are written with *)

(** The path a [GoSlice.path] stands for on a given heap. *)
Definition shown (h : GoSlice.heap) (p : GoSlice.path) : path :=
  mkPath (GoSlice.root p) (GoSlice.read h (GoSlice.fields p)).

(** No level of a command tree has both a positional spec and a
    subcommand. *)
Definition hasPositional (l : list specptr) : bool :=
  existsb (fun p => positional (pointee p)) l.

Fixpoint exclusive (c : command) : bool :=
  match c with
  | mkCommand _ _ _ sps subs _ =>
      negb (hasPositional sps && (0 <? length subs))
      && forallb exclusive subs
  end.

Definition subs_exclusive (w : walk) : Prop :=
  Forall (fun c => exclusive c = true) (w_subcommands w).

(** The loop of [walkFields] over a list of fields of [owner], as a
    function of its own: [walkFields] on a struct is this loop over all
    its fields. *)
Fixpoint walkList {S : Type} (visit : StructField rtype -> rtype -> S -> S * bool)
    (owner : rtype) (l : list (StructField rtype)) (st : S) : S :=
  match l with
  | [] => st
  | field :: l' =>
      let '(st1, expand) := visit field owner st in
      walkList visit owner l'
        (if expand && Kind_eqb (Kind_of (Type_ field)) Struct
         then walkFields visit (Type_ field) st1
         else st1)
  end.

(** The error lists the diagnostic [d] as one of its lines. *)
Definition reported (d : string) (e : error) : Prop :=
  ∃ ds, e = Errorf (strings.Join ds (String "010"%char EmptyString)) ∧ d ∈ ds.

(** [needle] occurs in [s]. *)
Definition contains (s needle : string) : bool :=
  match String.index 0 needle s with
  | Some _ => true
  | None => false
  end.

(** The token at index [i] is a flag that the loop body resolves to
    the spec [sp]. *)
Definition flag_at (st : session) (args : list string) (i : nat)
    (arg : string) (sp : specptr) : Prop :=
  args !! i = Some arg ∧ arg ≠ "--" ∧ isFlag arg = true
  ∧ allpositional st = false
  ∧ arg ≠ "-h" ∧ arg ≠ "--help" ∧ arg ≠ "--version"
  ∧ findOption (active st) (flag_name arg) = Some sp.

(** None of the specs has its environment variable set. *)
Definition env_unset (environ : gmap string string) (l : list specptr) : bool :=
  forallb (fun sp => String.eqb (env (pointee sp)) ""
                     || match environ !! env (pointee sp) with
                        | None => true
                        | Some _ => false
                        end) l.

(** [sp] is the only required spec of the list. *)
Definition only_required (l : list specptr) (sp : specptr) : Prop :=
  ∀ s, s ∈ l → required (pointee s) = true → s = sp.

(** The contents of a slice after a truncation. *)
Definition truncated (l : option (list value)) : option (list value) :=
  match l with
  | Some _ => Some []
  | None => None
  end.

(** The key the loop over a tag looks at: blanks trimmed on the left,
    cut at the first colon. *)
Definition tag_key (key0 : string) : string :=
  let key1 := strings.TrimLeft key0 " " in
  let pos := strings.Index key1 ":" in
  if (pos =? -1)%Z then key1 else strings.upto key1 pos.

(** The field is neither ignored nor an embedded struct, it has no
    [arg] tag and its type cannot be parsed. *)
Definition unsupported_field `{External} (f : StructField rtype) : Prop :=
  Get (Tag f) "arg" = ""
  ∧ Anonymous f && Kind_eqb (Kind_of (Type_ f)) Struct = false
  ∧ fst (fst (canParse (Type_ f))) = false.

(** The first key of the field's [arg] tag is a short name of more
    than one character. *)
Definition long_short_field (f : StructField rtype) : Prop :=
  Get (Tag f) "arg" ≠ "-" ∧ Get (Tag f) "arg" ≠ ""
  ∧ Anonymous f && Kind_eqb (Kind_of (Type_ f)) Struct = false
  ∧ ∃ key0 more,
      strings.Split (Get (Tag f) "arg") "," = key0 :: more
      ∧ strings.HasPrefix (tag_key key0) "--" = false
      ∧ strings.HasPrefix (tag_key key0) "-" = true
      ∧ String.length (tag_key key0) ≠ 2.

Definition newline : string := String "010"%char EmptyString.

(** Every token of [values] is coerced, into the element type [e] of
    a slice, to the value at the same place in [items]. *)
Definition coerced `{External} (e : rtype) (values : list string)
    (items : list value) : Prop :=
  Forall2 (fun s x => parseValue true true (Zero e) s = (x, None)) values items.

(** The string is made of dashes only. *)
Fixpoint only_dashes (s : string) : bool :=
  match s with
  | EmptyString => true
  | String c rest => Ascii.eqb c "-" && only_dashes rest
  end.

(** A type with the pointers around it taken off. *)
Fixpoint strip_ptr (t : rtype) : rtype :=
  match t with
  | TPtr e => strip_ptr e
  | _ => t
  end.




(** The name a required spec is reported under. *)
Definition required_name (s : spec) : string :=
  if negb (positional s) then "--" +:+ long s else long s.

(** The spec answers to the option name: it is not positional and
    the name is its long or its short name. *)
Definition answers (sp : specptr) (nm : string) : bool :=
  negb (positional (pointee sp))
  && (String.eqb (long (pointee sp)) nm || String.eqb (short (pointee sp)) nm).

(** * Properties *)

(** ** [path.Child] on the heap *)

Lemma store_length h a i x : length (GoSlice.store h a i x) = length h.
Proof.
  unfold GoSlice.store. destruct (h !! a); [apply length_insert | done].
Qed.

Lemma store_lookup_ne h a b i x :
  a ≠ b → GoSlice.store h a i x !! b = h !! b.
Proof.
  intros Hne. unfold GoSlice.store. destruct (h !! a); [|done].
  by apply list_lookup_insert_ne.
Qed.

Lemma store_lookup_eq h a i x arr :
  h !! a = Some arr → GoSlice.store h a i x !! a = Some (<[i:=x]> arr).
Proof.
  intros Ha. unfold GoSlice.store. rewrite Ha.
  apply list_lookup_insert_eq. by eapply lookup_lt_Some.
Qed.

Lemma store_all_lookup_ne xs : ∀ h a b i,
  a ≠ b → GoSlice.store_all h a i xs !! b = h !! b.
Proof.
  induction xs as [|x xs IH]; intros h a b i Hne; simpl; [done|].
  rewrite IH by done. by apply store_lookup_ne.
Qed.

Lemma store_all_lookup_eq xs : ∀ h a i arr,
  h !! a = Some arr → i + length xs <= length arr →
  GoSlice.store_all h a i xs !! a
  = Some (take i arr ++ xs ++ drop (i + length xs) arr).
Proof.
  induction xs as [|x xs IH]; intros h a i arr Ha Hlen; simpl in *.
  - by rewrite Nat.add_0_r, take_drop.
  - erewrite IH; [|by apply store_lookup_eq|rewrite length_insert; lia].
    f_equal.
    rewrite (take_S_r _ _ x) by (apply list_lookup_insert_eq; lia).
    rewrite take_insert_ge by lia.
    rewrite drop_insert_lt by lia.
    rewrite <- app_assoc. simpl.
    by replace (i + S (length xs)) with (S (i + length xs)) by lia.
Qed.

Lemma store_all_length xs : ∀ h a i, length (GoSlice.store_all h a i xs) = length h.
Proof.
  induction xs as [|x xs IH]; intros; simpl; [done|].
  by rewrite IH, store_length.
Qed.

Lemma read_length h s : GoSlice.valid h s → length (GoSlice.read h s) = GoSlice.len s.
Proof.
  intros [Hle [Hz | (arr & Ha & Hb)]]; unfold GoSlice.read, GoSlice.array_at.
  - rewrite length_take. lia.
  - rewrite Ha. simpl. rewrite length_take, length_drop. lia.
Qed.

Lemma read_same_array h h' s :
  h' !! GoSlice.ptr s = h !! GoSlice.ptr s → GoSlice.read h' s = GoSlice.read h s.
Proof. intros E. unfold GoSlice.read, GoSlice.array_at. by rewrite E. Qed.

Lemma read_empty h s : GoSlice.len s = 0 → GoSlice.read h s = [].
Proof. intros E. unfold GoSlice.read. by rewrite E. Qed.

(** Writing the cell just past a slice's last element leaves what the
    slice shows alone. *)
Lemma read_insert_past h h' s arr x :
  h !! GoSlice.ptr s = Some arr →
  h' !! GoSlice.ptr s = Some (<[GoSlice.off s + GoSlice.len s := x]> arr) →
  GoSlice.read h' s = GoSlice.read h s.
Proof.
  intros Ha Hb. unfold GoSlice.read, GoSlice.array_at. rewrite Ha, Hb. simpl.
  rewrite drop_insert_ge by lia. rewrite take_insert_ge by lia. done.
Qed.

(** What [path.Child] does to the heap: the new chain lies in a fresh
    array at address [length h]; of the arrays that were there, only the
    one under [p] can change, and only in the cell just past [p]'s last
    element, when [p] has spare capacity. *)
Lemma Child_effect growcap h p child :
  GoSlice.valid h (GoSlice.fields p) →
  ∃ h',
    GoSlice.Child growcap p child h
    = (GoSlice.mkPath (GoSlice.root p)
         (GoSlice.mkSlice (length h) 0 (GoSlice.len (GoSlice.fields p) + 1)
                          (GoSlice.len (GoSlice.fields p) + 1)), h')
    ∧ length h < length h'
    ∧ h' !! length h = Some (GoSlice.read h (GoSlice.fields p) ++ [child])
    ∧ ∀ a arr, h !! a = Some arr →
        h' !! a = Some arr
        ∨ (a = GoSlice.ptr (GoSlice.fields p)
           ∧ GoSlice.len (GoSlice.fields p) < GoSlice.cap (GoSlice.fields p)
           ∧ h' !! a = Some (<[GoSlice.off (GoSlice.fields p)
                               + GoSlice.len (GoSlice.fields p) := child]> arr)).
Proof.
  destruct p as [r [pt o ln cp]]. simpl. intros Hv.
  pose proof (read_length _ _ Hv) as Hlen. simpl in Hlen.
  destruct Hv as [Hle Hmem]. simpl in *.
  unfold GoSlice.Child, GoSlice.make, GoSlice.alloc, GoSlice.append,
    GoSlice.copy. simpl.
  set (rep := replicate (ln + 1) EmptyString).
  set (s := GoSlice.mkSlice pt o ln cp) in *.
  destruct (ln <? cp) eqn:Hlt.
  - apply Nat.ltb_lt in Hlt.
    destruct Hmem as [Hz | (arr0 & Ha & Hb)]; [lia|].
    assert (Hpt : pt < length h) by (by eapply lookup_lt_Some).
    set (h1 := h ++ [rep]).
    assert (Ha1 : h1 !! pt = Some arr0) by (unfold h1; by rewrite lookup_app_l).
    set (h2 := GoSlice.store h1 pt (o + ln) child).
    assert (Ha2 : h2 !! pt = Some (<[o + ln := child]> arr0))
      by (by apply store_lookup_eq).
    assert (Hrep : h2 !! length h = Some rep).
    { unfold h2. rewrite store_lookup_ne by lia. unfold h1.
      rewrite lookup_app_r by lia. by rewrite Nat.sub_diag. }
    set (tmp := GoSlice.mkSlice pt o (S ln) cp).
    assert (Htmp : GoSlice.read h2 tmp = GoSlice.read h s ++ [child]).
    { unfold GoSlice.read, GoSlice.array_at. simpl. rewrite Ha2, Ha. simpl.
      rewrite drop_insert_ge by lia.
      replace (o + ln - o) with ln by lia.
      rewrite (take_S_r _ _ child).
      - by rewrite take_insert_ge by lia.
      - apply list_lookup_insert_eq. rewrite length_drop. lia. }
    eexists. split; [reflexivity|].
    assert (Hxs : take (Nat.min (ln + 1) (GoSlice.len tmp)) (GoSlice.read h2 tmp)
                  = GoSlice.read h s ++ [child]).
    { rewrite Htmp. apply take_ge. rewrite length_app, Hlen. simpl. lia. }
    rewrite Hxs.
    assert (Hxl : length (GoSlice.read h s ++ [child]) = ln + 1)
      by (rewrite length_app, Hlen; simpl; lia).
    split; [|split].
    + rewrite store_all_length. unfold h2. rewrite store_length.
      unfold h1. rewrite length_app. simpl. lia.
    + erewrite store_all_lookup_eq; [|exact Hrep|].
      * simpl. rewrite drop_ge; [by rewrite app_nil_r|].
        unfold rep. rewrite length_replicate. lia.
      * unfold rep. rewrite length_replicate. lia.
    + intros a arr Hin.
      assert (a < length h) by (by eapply lookup_lt_Some).
      rewrite store_all_lookup_ne by lia.
      destruct (decide (a = pt)) as [->|Hne].
      * right. split; [done|]. split; [done|]. congruence.
      * left. unfold h2. rewrite store_lookup_ne by done.
        unfold h1. by rewrite lookup_app_l.
  - apply Nat.ltb_ge in Hlt.
    set (h1 := h ++ [rep]).
    assert (Hr1 : GoSlice.read h1 s = GoSlice.read h s).
    { destruct Hmem as [Hz | (arr0 & Ha & Hb)].
      - rewrite !read_empty; [done | simpl; lia | simpl; lia].
      - apply read_same_array. simpl. unfold h1.
        apply lookup_app_l. by eapply lookup_lt_Some. }
    rewrite Hr1.
    set (newcap := Nat.max (S ln) (growcap cp)).
    set (arr := GoSlice.read h s ++ child :: replicate (newcap - S ln) EmptyString).
    set (h2 := h1 ++ [arr]).
    set (tmp := GoSlice.mkSlice (length h1) 0 (S ln) newcap).
    assert (Hl1 : length h1 = S (length h))
      by (unfold h1; rewrite length_app; simpl; lia).
    assert (Hrep : h2 !! length h = Some rep).
    { unfold h2. rewrite lookup_app_l by lia. unfold h1.
      rewrite lookup_app_r by lia. by rewrite Nat.sub_diag. }
    assert (Htmp : GoSlice.read h2 tmp = GoSlice.read h s ++ [child]).
    { unfold GoSlice.read at 1, GoSlice.array_at. simpl.
      unfold h2. rewrite lookup_app_r by lia. rewrite Nat.sub_diag. simpl.
      unfold arr. rewrite (cons_middle child), app_assoc. apply take_app_length'.
      rewrite length_app, Hlen. simpl. lia. }
    eexists. split; [reflexivity|].
    assert (Hxs : take (Nat.min (ln + 1) (GoSlice.len tmp)) (GoSlice.read h2 tmp)
                  = GoSlice.read h s ++ [child]).
    { rewrite Htmp. apply take_ge. rewrite length_app, Hlen. simpl. lia. }
    rewrite Hxs.
    assert (Hxl : length (GoSlice.read h s ++ [child]) = ln + 1)
      by (rewrite length_app, Hlen; simpl; lia).
    split; [|split].
    + rewrite store_all_length. unfold h2. rewrite length_app. lia.
    + erewrite store_all_lookup_eq; [|exact Hrep|].
      * simpl. rewrite drop_ge; [by rewrite app_nil_r|].
        unfold rep. rewrite length_replicate. lia.
      * unfold rep. rewrite length_replicate. lia.
    + intros a arr' Hin.
      assert (a < length h) by (by eapply lookup_lt_Some).
      rewrite store_all_lookup_ne by lia.
      left. unfold h2. rewrite lookup_app_l by lia.
      unfold h1. by rewrite lookup_app_l.
Qed.

Lemma read_whole h s arr :
  h !! GoSlice.ptr s = Some arr → GoSlice.off s = 0 → GoSlice.len s = length arr →
  GoSlice.read h s = arr.
Proof.
  intros Ha Ho Hl. unfold GoSlice.read, GoSlice.array_at.
  rewrite Ha, Ho, Hl. simpl. by rewrite drop_0, take_ge.
Qed.

(** The receiver of [Child] shows the same chain afterwards and is
    still valid. *)
Lemma Child_keeps_receiver growcap h p child c h' :
  GoSlice.valid h (GoSlice.fields p) →
  GoSlice.Child growcap p child h = (c, h') →
  GoSlice.valid h' (GoSlice.fields p)
  ∧ GoSlice.read h' (GoSlice.fields p) = GoSlice.read h (GoSlice.fields p).
Proof.
  intros Hv Hc. destruct (Child_effect growcap h p child Hv) as (h0 & E & _ & _ & Hframe).
  rewrite E in Hc. injection Hc as <- <-.
  destruct Hv as [Hle [Hz | (arr & Ha & Hb)]].
  - split; [split; [done | by left]|].
    rewrite !read_empty; [done | lia | lia].
  - destruct (Hframe _ _ Ha) as [Hsame | (_ & _ & Hins)].
    + split; [split; [done | right; eauto]|].
      apply read_same_array. congruence.
    + split.
      * split; [done|]. right. eexists. split; [exact Hins|].
        by rewrite length_insert.
      * by eapply read_insert_past.
Qed.

(** C9.  For every path [p] that is valid on the heap and every field
    name, [p.Child(child)] returns a path with [p]'s root whose chain is
    [p]'s chain with the name appended, in an array of its own; [p]
    still shows its own chain afterwards; and a sibling made from [p]
    by a later [Child] call leaves the first child's chain as it was:
    the two children lie in different arrays. *)
Theorem Child_appends_without_aliasing
    (growcap : nat → nat) (h : GoSlice.heap) (p : GoSlice.path)
    (child other : string) :
  GoSlice.valid h (GoSlice.fields p) →
  let '(c1, h1) := GoSlice.Child growcap p child h in
  let '(c2, h2) := GoSlice.Child growcap p other h1 in
  shown h1 c1 = Child (shown h p) child
  ∧ shown h1 p = shown h p
  ∧ shown h2 c2 = Child (shown h p) other
  ∧ shown h2 c1 = Child (shown h p) child
  ∧ shown h2 p = shown h p
  ∧ GoSlice.ptr (GoSlice.fields c1) ≠ GoSlice.ptr (GoSlice.fields c2).
Proof.
  intros Hv.
  destruct (Child_effect growcap h p child Hv) as (h1 & E1 & Hlt1 & Hnew1 & Hfr1).
  rewrite E1.
  destruct (Child_keeps_receiver _ _ _ _ _ _ Hv E1) as [Hv1 Hr1].
  destruct (Child_effect growcap h1 p other Hv1) as (h2 & E2 & Hlt2 & Hnew2 & Hfr2).
  rewrite E2.
  destruct (Child_keeps_receiver _ _ _ _ _ _ Hv1 E2) as [Hv2 Hr2].
  pose proof (read_length _ _ Hv) as Hlen.
  assert (Hc1 : h2 !! length h
                = Some (GoSlice.read h (GoSlice.fields p) ++ [child])).
  { assert (Hin : h1 !! length h
                  = Some (GoSlice.read h (GoSlice.fields p) ++ [child])) by done.
    destruct (Hfr2 _ _ Hin) as [Hsame | (Hpt & Hspare & _)]; [done|].
    destruct Hv as [_ [Hz | (arr & Ha & _)]]; [lia|].
    apply lookup_lt_Some in Ha. lia. }
  unfold shown, Child. simpl. repeat split.
  - f_equal. apply read_whole; [done | done |].
    simpl. rewrite length_app, Hlen. simpl. lia.
  - by f_equal.
  - f_equal. rewrite <- Hr1. apply read_whole; [done | done |].
    simpl. rewrite length_app, Hr1, Hlen. simpl. lia.
  - f_equal. apply read_whole; [done | done |].
    simpl. rewrite length_app, Hlen. simpl. lia.
  - f_equal. congruence.
  - lia.
Qed.

(** A parent with room for one more element in its array: the case in
    which [append] writes in place. *)
Lemma Child_appends_without_aliasing_witness :
  let h := [["a"; "b"; "spare"]] in
  let p := GoSlice.mkPath 0 (GoSlice.mkSlice 0 0 2 3) in
  let '(c1, h1) := GoSlice.Child (Nat.mul 2) p "x" h in
  let '(c2, h2) := GoSlice.Child (Nat.mul 2) p "y" h1 in
  shown h1 c1 = Child (shown h p) "x"
  ∧ shown h1 p = shown h p
  ∧ shown h2 c2 = Child (shown h p) "y"
  ∧ shown h2 c1 = Child (shown h p) "x"
  ∧ shown h2 p = shown h p
  ∧ GoSlice.ptr (GoSlice.fields c1) ≠ GoSlice.ptr (GoSlice.fields c2).
Proof.
  apply (Child_appends_without_aliasing (Nat.mul 2) [["a"; "b"; "spare"]]
           (GoSlice.mkPath 0 (GoSlice.mkSlice 0 0 2 3)) "x" "y").
  split; [simpl; lia|]. right. eexists. split; [reflexivity | simpl; lia].
Defined.

(** ** [Parser.Parse]: help before other errors *)

Lemma is_help_iff (a : string) :
  String.eqb a "-h" || String.eqb a "--help" = true ↔ a = "-h" ∨ a = "--help".
Proof.
  rewrite orb_true_iff, !String.eqb_eq. done.
Qed.

(** The loop of [Parse] answers true exactly when a help token stands
    before the first "--". *)
Lemma help_requested_iff (args : list string) :
  help_requested args = true ↔
  ∃ k a, args !! k = Some a ∧ (a = "-h" ∨ a = "--help")
         ∧ ∀ j b, j < k → args !! j = Some b → b ≠ "--".
Proof.
  induction args as [|x rest IH]; simpl.
  - split; [done|]. by intros (k & a & Hk & _).
  - destruct (String.eqb x "-h" || String.eqb x "--help") eqn:Hh.
    + split; [|done]. intros _. exists 0, x. simpl.
      split; [done|]. split; [by apply is_help_iff | lia].
    + destruct (String.eqb x "--") eqn:Hd.
      * split; [done|]. intros (k & a & Hk & Ha & Hno).
        destruct k as [|k]; simpl in Hk.
        -- injection Hk as ->. apply is_help_iff in Ha. congruence.
        -- apply String.eqb_eq in Hd. by destruct (Hno 0 x ltac:(lia) eq_refl).
      * rewrite IH. split.
        -- intros (k & a & Hk & Ha & Hno). exists (S k), a. simpl.
           split; [done|]. split; [done|]. intros [|j] b Hj Hb; simpl in Hb.
           ++ injection Hb as <-. by apply String.eqb_neq.
           ++ eapply Hno; [|done]. lia.
        -- intros (k & a & Hk & Ha & Hno).
           destruct k as [|k]; simpl in Hk.
           ++ injection Hk as ->. apply is_help_iff in Ha. congruence.
           ++ exists k, a. split; [done|]. split; [done|].
              intros j b Hj Hb. apply (Hno (S j) b); [lia | done].
Qed.

(** C4.  When processing fails with an error: if a token equal to "-h"
    or "--help" stands in the raw arguments with no "--" before it,
    [Parse] returns [ErrHelp] in place of the error; if there is no such
    token (every help token comes after a "--"), [Parse] returns the
    error of processing. *)
Theorem Parse_help_supersedes `{External} (environ : gmap string string)
    (p p' : Parser) (args : list string) (err : error) :
  process environ p args = (p', Ret err) →
  ((∃ k a, args !! k = Some a ∧ (a = "-h" ∨ a = "--help")
           ∧ ∀ j b, j < k → args !! j = Some b → b ≠ "--")
   → Parse environ p args = (p', Ret ErrHelp))
  ∧ (¬ (∃ k a, args !! k = Some a ∧ (a = "-h" ∨ a = "--help")
               ∧ ∀ j b, j < k → args !! j = Some b → b ≠ "--")
     → Parse environ p args = (p', Ret err)).
Proof.
  intros Hp. unfold Parse. rewrite Hp. split; intros Hh.
  - apply help_requested_iff in Hh. by rewrite Hh.
  - destruct (help_requested args) eqn:E; [|done].
    exfalso. apply Hh. by apply help_requested_iff.
Qed.

(** "--count" lacks its value; with "-h" behind it the outcome is the
    help signal. *)
Lemma Parse_help_supersedes_witness :
  Parse (H := Plain.runtime) ∅ Sample.program ["--count"; "-x"; "-h"]
  = (fst (process (H := Plain.runtime) ∅ Sample.program ["--count"; "-x"; "-h"]),
     Ret ErrHelp).
Proof.
  refine (proj1 (Parse_help_supersedes (H := Plain.runtime) ∅ Sample.program
                  (fst (process (H := Plain.runtime) ∅ Sample.program
                          ["--count"; "-x"; "-h"]))
                  ["--count"; "-x"; "-h"] (Errorf "missing value for --count")
                  _) _).
  - reflexivity.
  - exists 2, "-h". split; [reflexivity|]. split; [by left|].
    intros [|[|j]] b Hj Hb; simpl in Hb; try lia; injection Hb as <-; discriminate.
Defined.

(** ** [cmdFromStruct]: positionals and subcommands exclude each other *)

(** Induction on types that reaches the types of the fields. *)
Lemma rtype_nested_ind (P : rtype → Prop) :
  (∀ n k, P (TNamed n k)) →
  (∀ e, P e → P (TPtr e)) →
  (∀ e, P e → P (TSlice e)) →
  (∀ n fs, Forall (fun f => P (Type_ f)) fs → P (TStruct n fs)) →
  ∀ t, P t.
Proof.
  intros Hn Hp Hs Hst.
  fix IH 1. intros [n k | e | e | n fs].
  - apply Hn.
  - apply Hp, IH.
  - apply Hs, IH.
  - apply Hst. induction fs as [|f fs IHfs]; constructor.
    + apply IH.
    + apply IHfs.
Qed.

Lemma add_err_subs w e : subs_exclusive w → subs_exclusive (add_err w e).
Proof. done. Qed.

Section Exclusive.
Context `{External}.

Lemma tagKey_exclusive build owner field tag d key v :
  (∀ n nx c m, build n nx = inl (c, m) → exclusive c = true) →
  subs_exclusive (v_walk v) →
  subs_exclusive (v_walk (fst (tagKey build owner field tag d key v))).
Proof.
  intros Hb Hw. unfold tagKey.
  repeat case_match; simpl; try done;
    (apply Forall_app; split; [done|]; constructor; [|constructor];
     match goal with E : build _ _ = inl (?c, _) |- _ =>
       apply Hb in E; destruct c; simpl in *; exact E end).
Qed.

Lemma tagKeys_exclusive build owner field tag d keys : ∀ v,
  (∀ n nx c m, build n nx = inl (c, m) → exclusive c = true) →
  subs_exclusive (v_walk v) →
  subs_exclusive (v_walk (fst (tagKeys build owner field tag d keys v))).
Proof.
  induction keys as [|key keys IH]; intros v Hb Hw; simpl; [done|].
  pose proof (tagKey_exclusive build owner field tag d key v Hb Hw) as Hk.
  destruct (tagKey build owner field tag d key v) as [v' go_on]. simpl in Hk.
  destruct go_on; [by apply IH | done].
Qed.

Lemma visit_exclusive build d field t w :
  (∀ n dd nx c m, build (Type_ field) n dd nx = inl (c, m) → exclusive c = true) →
  subs_exclusive w →
  subs_exclusive (fst (visit build d field t w)).
Proof.
  intros Hb Hw. unfold visit.
  destruct (String.eqb (Get (Tag field) "arg") "-"); [done|].
  destruct (Anonymous field && Kind_eqb (Kind_of (Type_ field)) Struct); [done|].
  match goal with |- context [mkVars ?s false w] => set (v0 := mkVars s false w) end.
  assert (Hv : subs_exclusive
            (v_walk (fst (if negb (String.eqb (Get (Tag field) "arg") "")
                          then tagKeys
                                 (fun n => build (Type_ field) n (Child d (Name field)))
                                 t field (Get (Tag field) "arg") d
                                 (strings.Split (Get (Tag field) "arg") ",") v0
                          else (v0, true))))).
  { destruct (negb (String.eqb (Get (Tag field) "arg") "")); [|done].
    apply tagKeys_exclusive; [|done]. intros n nx c m. apply Hb. }
  destruct (if negb (String.eqb (Get (Tag field) "arg") "") then _ else _)
    as [v go_on]. simpl in Hv.
  destruct go_on; simpl; [|done].
  destruct (v_isSubcommand v); simpl; [done|].
  destruct (canParse (Type_ field)) as [[parseable isbool] ismult].
  destruct parseable; simpl; done.
Qed.

(** The invariant goes through the walk and through the build, at
    every depth of the type. *)
Lemma build_exclusive : ∀ t,
  (∀ name dest free c n,
     cmdFromStruct name dest t free = inl (c, n) → exclusive c = true)
  ∧ (∀ d w, subs_exclusive w →
       subs_exclusive
         (walkFields (visit (fun ft n dd nx => cmdFromStruct n dd ft nx) d) t w)).
Proof.
  apply rtype_nested_ind.
  - intros n k. split; [intros; discriminate | done].
  - intros e [_ IHw]. split; [|done].
    intros name dest free c n. simpl.
    destruct (negb (Kind_eqb (Kind_of e) Struct)); [discriminate|].
    set (w := walkFields _ e _).
    assert (Hw : subs_exclusive w) by (apply IHw; constructor).
    destruct (0 <? length (errs w)); [discriminate|].
    destruct (existsb _ (w_specs w) && (0 <? length (w_subcommands w))) eqn:Hx;
      [discriminate|].
    intros [= <- <-]. simpl. unfold hasPositional. rewrite Hx. simpl.
    apply forallb_forall. intros x Hin.
    unfold subs_exclusive in Hw. rewrite Forall_forall in Hw.
    apply Hw. by apply list_elem_of_In.
  - intros e _. split; [intros; discriminate | done].
  - intros n fs Hfs. split; [intros; discriminate|].
    intros d. simpl. generalize (TStruct n fs) as owner. intros owner.
    induction Hfs as [|f fs [Hf Hfw] Hfs IH]; intros w Hw; [done|].
    pose proof (visit_exclusive (fun ft n dd nx => cmdFromStruct n dd ft nx) d f
                  owner w Hf Hw) as Hv.
    destruct (visit _ d f owner w) as [st1 expand]. simpl in Hv.
    apply IH.
    destruct (expand && Kind_eqb (Kind_of (Type_ f)) Struct); [by apply Hfw | done].
Qed.

End Exclusive.

(** C7.  A [cmdFromStruct] that succeeds returns a command tree in
    which no level has both a positional spec and a subcommand; and
    when the walk of a struct leaves at least one positional spec and at
    least one subcommand at its level, [cmdFromStruct] returns an
    error. *)
Theorem cmdFromStruct_exclusive `{External}
    (name : string) (dest : path) (t : rtype) (free : nat) :
  (∀ c n, cmdFromStruct name dest t free = inl (c, n) → exclusive c = true)
  ∧ (∀ e, t = TPtr e →
       let w := walkFields (visit (fun ft n d nx => cmdFromStruct n d ft nx) dest)
                           e (mkWalk [] [] [] free) in
       hasPositional (w_specs w) = true → w_subcommands w ≠ [] →
       ∃ err, cmdFromStruct name dest t free = inr err).
Proof.
  split.
  - intros c n. apply build_exclusive.
  - intros e -> w Hpos Hsub. simpl. fold w.
    destruct (negb (Kind_eqb (Kind_of e) Struct)); [eauto|].
    destruct (0 <? length (errs w)); [eauto|].
    unfold hasPositional in Hpos. rewrite Hpos.
    destruct (w_subcommands w); [done|]. simpl. eauto.
Qed.

(** A struct with a positional field next to a subcommand field. *)
Lemma cmdFromStruct_exclusive_witness :
  ∃ err, cmdFromStruct (H := Plain.runtime) "prog" (mkPath 0 [])
           (TPtr Sample.bothT) 0 = inr err.
Proof.
  apply (proj2 (cmdFromStruct_exclusive (H := Plain.runtime) "prog" (mkPath 0 [])
                  (TPtr Sample.bothT) 0) Sample.bothT eq_refl).
  - reflexivity.
  - discriminate.
Defined.

(** ** [cmdFromStruct]: the errors of all fields are collected *)

Lemma walkFields_walkList {S : Type}
    (visit : StructField rtype → rtype → S → S * bool) n fs (st : S) :
  walkFields visit (TStruct n fs) st = walkList visit (TStruct n fs) fs st.
Proof.
  simpl. generalize (TStruct n fs) as owner. intros owner. revert st.
  induction fs as [|f fs IH]; intros st; simpl; [done|].
  destruct (visit f owner st) as [st1 expand]. apply IH.
Qed.

Lemma walkList_app {S : Type}
    (visit : StructField rtype → rtype → S → S * bool) owner l1 l2 : ∀ st : S,
  walkList visit owner (l1 ++ l2) st
  = walkList visit owner l2 (walkList visit owner l1 st).
Proof.
  induction l1 as [|f l1 IH]; intros st; simpl; [done|].
  destruct (visit f owner st) as [st1 expand]. apply IH.
Qed.

Section Accumulate.
Context `{External}.

Lemma tagKey_errs build owner field tag d key v :
  errs (v_walk v) `prefix_of` errs (v_walk (fst (tagKey build owner field tag d key v))).
Proof.
  unfold tagKey. repeat case_match; simpl; try done; by apply prefix_app_r.
Qed.

Lemma tagKeys_errs build owner field tag d keys : ∀ v,
  errs (v_walk v) `prefix_of` errs (v_walk (fst (tagKeys build owner field tag d keys v))).
Proof.
  induction keys as [|key keys IH]; intros v; simpl; [done|].
  pose proof (tagKey_errs build owner field tag d key v) as Hk.
  destruct (tagKey build owner field tag d key v) as [v' go_on]. simpl in Hk.
  destruct go_on; [|done]. etrans; [exact Hk | apply IH].
Qed.

(** The visitor only ever adds to [errs]. *)
Lemma visit_errs build d field t w :
  errs w `prefix_of` errs (fst (visit build d field t w)).
Proof.
  unfold visit.
  destruct (String.eqb (Get (Tag field) "arg") "-"); [done|].
  destruct (Anonymous field && Kind_eqb (Kind_of (Type_ field)) Struct); [done|].
  match goal with |- context [mkVars ?s false w] => set (v0 := mkVars s false w) end.
  assert (Hv : errs w `prefix_of`
            errs (v_walk (fst (if negb (String.eqb (Get (Tag field) "arg") "")
                          then tagKeys
                                 (fun n => build (Type_ field) n (Child d (Name field)))
                                 t field (Get (Tag field) "arg") d
                                 (strings.Split (Get (Tag field) "arg") ",") v0
                          else (v0, true))))).
  { destruct (negb (String.eqb (Get (Tag field) "arg") "")); [|done].
    apply (tagKeys_errs _ _ _ _ _ _ v0). }
  destruct (if negb (String.eqb (Get (Tag field) "arg") "") then _ else _)
    as [v go_on]. simpl in Hv.
  destruct go_on; simpl; [|done].
  destruct (v_isSubcommand v); simpl; [done|].
  destruct (canParse (Type_ field)) as [[parseable isbool] ismult].
  destruct parseable; simpl; [done|]. by apply prefix_app_r.
Qed.

Lemma walkFields_errs build d : ∀ t w,
  errs w `prefix_of` errs (walkFields (visit build d) t w).
Proof.
  apply (rtype_nested_ind (fun t => ∀ w, errs w `prefix_of`
                                     errs (walkFields (visit build d) t w)));
    try done.
  intros n fs Hfs w. rewrite walkFields_walkList.
  generalize (TStruct n fs) as owner. intros owner. revert w.
  induction Hfs as [|f fs Hf Hfs IH]; intros w; simpl; [done|].
  pose proof (visit_errs build d f owner w) as Hv.
  destruct (visit build d f owner w) as [st1 expand]. simpl in Hv.
  etrans; [exact Hv|]. etrans; [|apply IH].
  destruct (expand && Kind_eqb (Kind_of (Type_ f)) Struct); [apply Hf | done].
Qed.

Lemma walkList_errs build d owner l : ∀ w,
  errs w `prefix_of` errs (walkList (visit build d) owner l w).
Proof.
  induction l as [|f l IH]; intros w; simpl; [done|].
  pose proof (visit_errs build d f owner w) as Hv.
  destruct (visit build d f owner w) as [st1 expand]. simpl in Hv.
  etrans; [exact Hv|]. etrans; [|apply IH].
  destruct (expand && Kind_eqb (Kind_of (Type_ f)) Struct);
    [apply walkFields_errs | done].
Qed.

(** Every diagnostic recorded when a field is visited is a line of the
    error that [cmdFromStruct] returns, whatever fields come before it
    and after it. *)
Lemma cmdFromStruct_reports name dest n pre f post free d :
  let owner := TStruct n (pre ++ f :: post) in
  let V := visit (fun ft n d nx => cmdFromStruct n d ft nx) dest in
  d ∈ errs (fst (V f owner (walkList V owner pre (mkWalk [] [] [] free)))) →
  ∃ e, cmdFromStruct name dest (TPtr owner) free = inr e ∧ reported d e.
Proof.
  intros owner V Hd.
  assert (Hin : d ∈ errs (walkFields V owner (mkWalk [] [] [] free))).
  { unfold owner at 1. rewrite walkFields_walkList. fold owner.
    rewrite walkList_app. simpl.
    set (w1 := walkList V owner pre _) in *.
    pose proof (walkList_errs (fun ft n d nx => cmdFromStruct n d ft nx) dest owner post) as Hpost.
    fold V in Hpost.
    destruct (V f owner w1) as [st1 expand] eqn:E. simpl in Hd.
    eapply elem_of_prefix; [|apply Hpost].
    destruct (expand && Kind_eqb (Kind_of (Type_ f)) Struct); [|done].
    eapply elem_of_prefix; [exact Hd | apply walkFields_errs]. }
  change (cmdFromStruct name dest (TPtr owner) free) with
    (let w := walkFields V owner (mkWalk [] [] [] free) in
     if 0 <? length (errs w)
     then inr (Errorf (strings.Join (errs w) (String "010"%char EmptyString)))
     else if existsb (fun p => positional (pointee p)) (w_specs w)
             && (0 <? length (w_subcommands w))
          then inr (Errorf (path_String dest
                 +:+ " cannot have both subcommands and positional arguments"))
          else inl (mkCommand name "" dest (w_specs w) (w_subcommands w) None,
                    next w) : (command * nat) + error).
  cbv zeta. set (w := walkFields V owner _) in *.
  destruct (errs w) as [|x l] eqn:Ew; [by apply elem_of_nil in Hin|].
  change (0 <? length (x :: l)) with true. cbv iota. eexists. split; [reflexivity|]. exists (x :: l). done.
Qed.

Lemma prefix3_prefix2 (s : string) :
  strings.HasPrefix s "--" = false → strings.HasPrefix s "---" = false.
Proof.
  unfold strings.HasPrefix. destruct s as [|a [|b s]]; cbn [String.prefix].
  - done.
  - by destruct (ascii_dec "-" a).
  - destruct (ascii_dec "-" a); [|done].
    destruct (ascii_dec "-" b); [|done]. by destruct s.
Qed.

Lemma visit_unsupported build d f t w :
  unsupported_field f →
  errs (fst (visit build d f t w))
  = errs w ++ [Name_of t +:+ "." +:+ Name f +:+ ": " +:+ String_of (Type_ f)
               +:+ " fields are not supported"].
Proof.
  intros (Htag & Hemb & Hcan). unfold visit. rewrite Htag, Hemb. simpl.
  destruct (canParse (Type_ f)) as [[parseable isbool] ismult].
  simpl in Hcan. subst parseable. done.
Qed.

Lemma visit_long_short build d f t w :
  long_short_field f →
  errs (fst (visit build d f t w))
  = errs w ++ [Name_of t +:+ "." +:+ Name f
               +:+ ": short arguments must be one character only"].
Proof.
  intros (Hign & Hne & Hemb & key0 & more & Hsplit & H2 & H1 & Hlen).
  unfold visit. apply String.eqb_neq in Hign, Hne. rewrite Hign, Hne, Hemb.
  rewrite Hsplit. simpl. unfold tagKey. fold (tag_key key0).
  rewrite (prefix3_prefix2 _ H2), H2, H1.
  apply Nat.eqb_neq in Hlen. rewrite Hlen. done.
Qed.

End Accumulate.

(** C8.  [cmdFromStruct] goes on after an offending field: every
    diagnostic recorded when a field is visited is a line of the one
    error it returns, whatever stands before and after the field; a
    field of an inadmissible type and a field with an overlong short
    name, anywhere in one struct, are both reported under the name of
    the type and of the field.  The diagnostic for a tag key that is
    not known prints the tag where the field name belongs: for the
    struct [Sample.optsT] the error does not contain the name of the
    field [Port]. *)
Theorem cmdFromStruct_collects_field_errors `{External}
    (name : string) (dest : path) (n : string) (free : nat) :
  (∀ pre f post d,
     let owner := TStruct n (pre ++ f :: post) in
     let V := visit (fun ft n d nx => cmdFromStruct n d ft nx) dest in
     d ∈ errs (fst (V f owner (walkList V owner pre (mkWalk [] [] [] free)))) →
     ∃ e, cmdFromStruct name dest (TPtr owner) free = inr e ∧ reported d e)
  ∧ (∀ fs a b,
       a ∈ fs → b ∈ fs → unsupported_field a → long_short_field b →
       ∃ e, cmdFromStruct name dest (TPtr (TStruct n fs)) free = inr e
            ∧ reported (n +:+ "." +:+ Name a +:+ ": " +:+ String_of (Type_ a)
                        +:+ " fields are not supported") e
            ∧ reported (n +:+ "." +:+ Name b
                        +:+ ": short arguments must be one character only") e)
  ∧ (cmdFromStruct name dest (TPtr Sample.optsT) free
     = inr (Errorf ("unrecognized tag 'bogus' on field bogus" +:+ newline
                    +:+ "Opts.Level: short arguments must be one character only"))
     ∧ contains ("unrecognized tag 'bogus' on field bogus" +:+ newline
                 +:+ "Opts.Level: short arguments must be one character only")
                "Port" = false).
Proof.
  split; [|split].
  - intros pre f post d. apply cmdFromStruct_reports.
  - intros fs a b Ha Hb Hua Hlb.
    destruct (list_elem_of_split _ _ Ha) as (pa & qa & Ea).
    destruct (list_elem_of_split _ _ Hb) as (pb & qb & Eb).
    destruct (cmdFromStruct_reports name dest n pa a qa free
                (n +:+ "." +:+ Name a +:+ ": " +:+ String_of (Type_ a)
                 +:+ " fields are not supported")) as (e & He & Hra).
    { cbv zeta. rewrite visit_unsupported by done. simpl.
      apply elem_of_app. right. by apply list_elem_of_singleton. }
    destruct (cmdFromStruct_reports name dest n pb b qb free
                (n +:+ "." +:+ Name b
                 +:+ ": short arguments must be one character only"))
      as (e' & He' & Hrb).
    { cbv zeta. rewrite visit_long_short by done. simpl.
      apply elem_of_app. right. by apply list_elem_of_singleton. }
    rewrite <- Ea in He. rewrite <- Eb in He'.
    exists e. split; [done|]. split; [done|]. congruence.
  - split; reflexivity.
Qed.

(** A channel field and a two-letter short name in one struct. *)
Lemma cmdFromStruct_collects_field_errors_witness :
  ∃ e, cmdFromStruct (H := Plain.runtime) "prog" (mkPath 0 []) (TPtr Sample.badT) 0
       = inr e
       ∧ reported "Bad.Events: chan int fields are not supported" e
       ∧ reported "Bad.Level: short arguments must be one character only" e.
Proof.
  apply (proj1 (proj2 (cmdFromStruct_collects_field_errors (H := Plain.runtime)
                         "prog" (mkPath 0 []) "Bad" 0))
           [mkField "Events" (TNamed "chan int" Chan) false [];
            mkField "Level" Plain.tint false [("arg", "-xy")]]
           (mkField "Events" (TNamed "chan int" Chan) false [])
           (mkField "Level" Plain.tint false [("arg", "-xy")])).
  - apply list_elem_of_here.
  - apply list_elem_of_further, list_elem_of_here.
  - repeat split.
  - split; [discriminate|]. split; [discriminate|]. split; [reflexivity|].
    exists "-xy", []. repeat split. discriminate.
Defined.

(** ** Stores into the destination structs *)

(** Induction on values that reaches the fields of a struct. *)
Lemma value_nested_ind (P : value → Prop) :
  (∀ t d, P (VScalar t d)) →
  (∀ e p, P (VPtr e p)) →
  (∀ e l, P (VSlice e l)) →
  (∀ t fs, Forall (fun nx => P (snd nx)) fs → P (VStruct t fs)) →
  ∀ v, P v.
Proof.
  intros Hs Hp Hl Hst.
  fix IH 1. intros [t d | e p | e l | t fs].
  - apply Hs.
  - apply Hp.
  - apply Hl.
  - apply Hst. induction fs as [|[n x] fs IHfs]; constructor.
    + apply IH.
    + apply IHfs.
Qed.

Lemma direct_set_direct f y l x :
  direct f l = Some x → direct f (set_direct f y l) = Some y.
Proof.
  induction l as [|[n z] l IH]; simpl; [done|].
  destruct (String.eqb n f) eqn:E; simpl; rewrite E; [done | apply IH].
Qed.

(** A store through a field leaves the struct a struct. *)
Lemma SetField_struct t fs f y : ∃ fs', SetField (VStruct t fs) f y = VStruct t fs'.
Proof. simpl. destruct (direct f fs); eauto. Qed.

(** Reading a field back after a store through it. *)
Lemma FieldByName_SetField f y : ∀ s x,
  FieldByName s f = Some x → FieldByName (SetField s f y) f = Some y.
Proof.
  apply (value_nested_ind (fun s => ∀ x, FieldByName s f = Some x →
                                   FieldByName (SetField s f y) f = Some y));
    try done.
  intros t fs Hfs x. simpl.
  destruct (direct f fs) as [x0|] eqn:Hd.
  - intros _. simpl. by erewrite direct_set_direct.
  - simpl. revert Hd.
    induction Hfs as [|[n z] fs Hz Hfs IH]; simpl; [done|].
    destruct (String.eqb n f) eqn:En; [done|]. intros Hd Hp. simpl in Hz.
    destruct (embedded t n) eqn:Hemb.
    + destruct (FieldByName z f) as [z0|] eqn:Hz0.
      * simpl. rewrite En, Hd, Hemb. by erewrite Hz.
      * simpl. rewrite En.
        specialize (IH Hd Hp).
        destruct (direct f _) eqn:Hd'; [done|].
        by rewrite Hemb, Hz0.
    + simpl. rewrite En.
      specialize (IH Hd Hp).
      destruct (direct f _) eqn:Hd'; [done|].
      by rewrite Hemb.
Qed.

(** The value at a path, in terms of the struct the first step reads. *)
Lemma val_from_step v f rest old :
  val_from v (f :: rest) = RVal old →
  ∃ s x, (v = s ∨ ∃ e, v = VPtr e (Some s))
         ∧ (∃ t fs, s = VStruct t fs)
         ∧ FieldByName s f = Some x ∧ val_from x rest = RVal old.
Proof.
  simpl. destruct v as [t d | e [x|] | e l | t fs]; try done.
  - destruct x as [| | | t fs]; try done.
    destruct (FieldByName (VStruct t fs) f) as [x1|] eqn:E; [|done].
    intros Hv. exists (VStruct t fs), x1. eauto 10.
  - destruct (FieldByName (VStruct t fs) f) as [x1|] eqn:E; [|done].
    intros Hv. exists (VStruct t fs), x1. eauto 10.
Qed.

(** After a store through the value at [p], the value at [p] followed
    by [q] is what [q] reaches from the stored value. *)
Lemma val_from_assign_from p : ∀ v old new q,
  val_from v p = RVal old →
  val_from (assign_from v p new) (p ++ q) = val_from new q.
Proof.
  induction p as [|f rest IH]; intros v old new q Hv; [done|].
  destruct (val_from_step _ _ _ _ Hv) as (s & x & Hs & (t & fs & ->) & Hf & Hx).
  assert (Hin : ∀ z, val_from z (rest ++ q) = val_from new q →
                ∀ w, (w = SetField (VStruct t fs) f z
                      ∨ ∃ e, w = VPtr e (Some (SetField (VStruct t fs) f z))) →
                val_from w ((f :: rest) ++ q) = val_from new q).
  { intros z Hz w Hw.
    pose proof (FieldByName_SetField f z _ _ Hf) as Hget.
    destruct (SetField_struct t fs f z) as [fs' E]. rewrite E in *.
    destruct Hw as [-> | [e ->]]; simpl; simpl in Hget; by rewrite Hget. }
  destruct Hs as [-> | [e ->]]; cbn [assign_from]; rewrite Hf.
  - apply (Hin _ (IH _ _ _ _ Hx)). by left.
  - apply (Hin _ (IH _ _ _ _ Hx)). right. eauto.
Qed.

Lemma val_assign roots d old new q :
  val roots d = RVal old →
  val (assign roots d new) (mkPath (root d) (fields d ++ q)) = val_from new q.
Proof.
  unfold val, assign. simpl.
  destruct (roots !! root d) as [v|] eqn:E; [|done]. intros Hv.
  rewrite list_lookup_insert_eq by (by eapply lookup_lt_Some).
  by eapply val_from_assign_from.
Qed.

(** Reading back what was stored. *)
Lemma val_assign_same roots d old new :
  val roots d = RVal old → val (assign roots d new) d = RVal new.
Proof.
  intros Hv. pose proof (val_assign roots d old new [] Hv) as Hq.
  rewrite app_nil_r in Hq. by destruct d.
Qed.

(** ** The interpreter, piece by piece *)

Section InterpreterFacts.
Context `{External}.
Variable environ : gmap string string.

Lemma captureEnvVars_unset l : ∀ st,
  env_unset environ l = true → captureEnvVars environ l st = (st, Go tt).
Proof.
  induction l as [|sp l IH]; intros st Hu; simpl in *; [done|].
  apply andb_true_iff in Hu as [Hsp Hl].
  destruct (String.eqb (env (pointee sp)) ""); [by apply IH|].
  simpl in Hsp. destruct (environ !! env (pointee sp)); [done | by apply IH].
Qed.

Lemma process_positionals_none l : ∀ st,
  positionals st = [] → process_positionals l st = (st, Go tt).
Proof.
  induction l as [|sp l IH]; intros st Hp; simpl; [done|].
  destruct (negb (positional (pointee sp))); [by apply IH|]. by rewrite Hp.
Qed.

Lemma check_required_none l sp st :
  only_required l sp → present st sp = true → check_required l st = None.
Proof.
  intros Ho Hp. induction l as [|s l IH]; simpl; [done|].
  destruct (required (pointee s)) eqn:Hr; simpl.
  - rewrite (Ho s) by (done || apply list_elem_of_here). rewrite Hp. simpl.
    apply IH. intros s' Hs'. apply Ho. by apply list_elem_of_further.
  - apply IH. intros s' Hs'. apply Ho. by apply list_elem_of_further.
Qed.

Lemma check_required_missing l sp st :
  only_required l sp → sp ∈ l → required (pointee sp) = true →
  present st sp = false →
  check_required l st
  = Some (Errorf ((if negb (positional (pointee sp))
                   then "--" +:+ long (pointee sp) else long (pointee sp))
                  +:+ " is required")).
Proof.
  intros Ho Hin Hr Hp. induction l as [|s l IH]; simpl.
  - by apply elem_of_nil in Hin.
  - destruct (required (pointee s)) eqn:Hrs; simpl.
    + rewrite (Ho s) by (done || apply list_elem_of_here). by rewrite Hp.
    + apply IH.
      * intros s' Hs'. apply Ho. by apply list_elem_of_further.
      * apply elem_of_cons in Hin as [-> | Hin]; [congruence | done].
Qed.

Lemma loop_end fuel args i st :
  length args <= i → loop environ fuel args i st = (st, Go tt).
Proof.
  intros Hi. destruct fuel; simpl; (destruct (i <? length args) eqn:E;
    [apply Nat.ltb_lt in E; lia | done]).
Qed.

Lemma loop_go fuel args i st st' i' :
  i < length args → step environ args i st = (st', Go i') →
  loop environ (S fuel) args i st = loop environ fuel args i' st'.
Proof.
  intros Hi Hs. simpl. apply Nat.ltb_lt in Hi. by rewrite Hi, Hs.
Qed.

Lemma loop_ret fuel args i st st' e :
  i < length args → step environ args i st = (st', Ret e) →
  loop environ (S fuel) args i st = (st', Ret e).
Proof.
  intros Hi Hs. simpl. apply Nat.ltb_lt in Hi. by rewrite Hi, Hs.
Qed.

(** The loop body at a flag token goes to the flag branch. *)
Lemma step_flag st args i arg sp :
  flag_at st args i arg sp →
  step environ args i st = option_ args i arg (flag_value arg) sp st.
Proof.
  intros (Hi & Hdd & Hfl & Hall & Hh & Hhelp & Hver & Hfind).
  unfold step. rewrite Hi.
  apply String.eqb_neq in Hdd, Hh, Hhelp, Hver.
  by rewrite Hdd, Hfl, Hall, Hh, Hhelp, Hver, Hfind.
Qed.

(** *** The loop counter of the model is never used up *)

Lemma setSlice_fuel dest values trunc : snd (setSlice dest values trunc) ≠ OutOfFuel.
Proof. unfold setSlice. repeat case_match; simpl; done. Qed.

Lemma setSlice_at_fuel st d values trunc :
  snd (setSlice_at st d values trunc) ≠ OutOfFuel.
Proof.
  unfold setSlice_at. pose proof (setSlice_fuel (val (roots (parser st)) d) values trunc).
  by destruct (setSlice _ values trunc).
Qed.

Lemma parseValue_at_fuel st d s : snd (parseValue_at st d s) ≠ OutOfFuel.
Proof. unfold parseValue_at. repeat case_match; simpl; done. Qed.

Lemma captureEnvVars_fuel l : ∀ st, snd (captureEnvVars environ l st) ≠ OutOfFuel.
Proof.
  induction l as [|sp l IH]; intros st; simpl; [done|].
  destruct (String.eqb (env (pointee sp)) ""); [apply IH|].
  destruct (environ !! env (pointee sp)) as [value|]; [|apply IH].
  destruct (multiple (pointee sp)).
  - destruct (csv_Read value) as [values|err]; [|done].
    pose proof (setSlice_at_fuel st (dest (pointee sp)) values
                  (negb (separate (pointee sp)))) as Hf.
    destruct (setSlice_at _ _ values _) as [st' [[]|e| |]]; simpl in *;
      try done; apply IH.
  - pose proof (parseValue_at_fuel st (dest (pointee sp)) value) as Hf.
    destruct (parseValue_at _ _ value) as [st' [[]|e| |]]; simpl in *;
      try done; apply IH.
Qed.

Lemma enter_fuel subcmd st : snd (enter environ subcmd st) ≠ OutOfFuel.
Proof.
  unfold enter. destruct (val _ _) as [| |[]]; try done.
  match goal with |- context [captureEnvVars environ ?l ?s] =>
    pose proof (captureEnvVars_fuel l s) as Hf;
    destruct (captureEnvVars environ l s) as [st' [[]|e| |]] end; done.
Qed.

(** The flag branch moves the index forward. *)
Lemma option_forward args i arg value sp st :
  match snd (option_ args i arg value sp st) with
  | Go i' => i < i'
  | OutOfFuel => False
  | _ => True
  end.
Proof.
  unfold option_. destruct (multiple (pointee sp)).
  - match goal with |- context [setSlice_at ?a ?b ?c ?d] =>
      pose proof (setSlice_at_fuel a b c d) as Hf;
      destruct (setSlice_at a b c d) as [st' [[]|e| |]] end; simpl; try done.
    destruct (String.eqb value ""); lia.
  - destruct (if String.eqb _ "" then _ else _) as [[v i']|e| |] eqn:E; simpl;
      try done.
    + assert (i <= i').
      { destruct (String.eqb _ ""); [|injection E as _ <-; lia].
        destruct (args !! (i + 1)); [|done].
        destruct (negb _ && _); [done|]. injection E as _ <-. lia. }
      match goal with |- context [parseValue_at ?a ?b ?c] =>
        pose proof (parseValue_at_fuel a b c) as Hf;
        destruct (parseValue_at a b c) as [st' [[]|e| |]] end; simpl; try done.
      lia.
    + destruct (String.eqb _ ""); [|done].
      destruct (args !! (i + 1)); [|done]. by destruct (negb _ && _).
Qed.

(** So does every turn of the loop. *)
Lemma step_forward args i st :
  match snd (step environ args i st) with
  | Go i' => i < i'
  | OutOfFuel => False
  | _ => True
  end.
Proof.
  unfold step. destruct (args !! i) as [arg|]; [|done].
  destruct (String.eqb arg "--"); [simpl; lia|].
  destruct (negb (isFlag arg) || allpositional st).
  - destruct (length (subcommands (curCmd st)) =? 0); [simpl; lia|].
    destruct (findSubcommand _ arg) as [subcmd|]; [|done].
    pose proof (enter_fuel subcmd st) as Hf.
    destruct (enter environ subcmd st) as [st' [[]|e| |]]; simpl; try done. lia.
  - destruct (String.eqb arg "-h" || String.eqb arg "--help"); [done|].
    destruct (String.eqb arg "--version"); [done|].
    destruct (findOption _ _) as [sp|]; [|done]. apply option_forward.
Qed.

Lemma loop_fuel fuel : ∀ args i st,
  length args - i <= fuel → snd (loop environ fuel args i st) ≠ OutOfFuel.
Proof.
  induction fuel as [|fuel IH]; intros args i st Hf; simpl.
  - destruct (i <? length args) eqn:E; [apply Nat.ltb_lt in E; lia | done].
  - destruct (i <? length args) eqn:E; [|done]. apply Nat.ltb_lt in E.
    pose proof (step_forward args i st) as Hs.
    destruct (step environ args i st) as [st' [i'|e| |]]; simpl in *; try done.
    apply IH. lia.
Qed.

Lemma process_positionals_fuel l : ∀ st,
  snd (process_positionals l st) ≠ OutOfFuel.
Proof.
  induction l as [|sp l IH]; intros s0; simpl; [done|].
  destruct (negb (positional (pointee sp))); [apply IH|].
  destruct (positionals s0); [done|].
  destruct (multiple (pointee sp)).
  - match goal with |- context [setSlice_at ?a ?b ?c ?d] =>
      pose proof (setSlice_at_fuel a b c d) as Hf;
      destruct (setSlice_at a b c d) as [st' [[]|e| |]] end; simpl in *;
      try done; apply IH.
  - match goal with |- context [parseValue_at ?a ?b ?c] =>
      pose proof (parseValue_at_fuel a b c) as Hf;
      destruct (parseValue_at a b c) as [st' [[]|e| |]] end; simpl in *;
      try done; apply IH.
Qed.

(** [process] as modelled always ends the way the program can end: with
    the nil error, with an error, or with a panic. *)
Lemma process_total p args : snd (process environ p args) ≠ OutOfFuel.
Proof.
  unfold process.
  pose proof (captureEnvVars_fuel (active (start p)) (start p)) as Hc.
  destruct (captureEnvVars environ _ _) as [st1 [[]|e| |]]; simpl in *; try done.
  unfold process_args.
  pose proof (loop_fuel (length args) args 0 st1 ltac:(lia)) as Hl.
  destruct (loop environ _ args 0 st1) as [st2 [[]|e| |]]; simpl in *; try done.
  pose proof (process_positionals_fuel (active st2) st2) as Hp.
  destruct (process_positionals (active st2) st2) as [st3 [[]|e| |]];
    simpl in *; try done.
  destruct (positionals st3); [|done]. by destruct (check_required _ _).
Qed.

End InterpreterFacts.

(** ** Multiple-value options *)

Section MultipleValues.
Context `{External}.
Variable environ : gmap string string.

Lemma captureEnvVars_error l : ∀ st st' e,
  captureEnvVars environ l st = (st', Ret e) → ∃ m, e = Errorf (String "e" m).
Proof.
  induction l as [|sp l IH]; intros st st' e; simpl; [done|].
  destruct (String.eqb (env (pointee sp)) ""); [apply IH|].
  destruct (environ !! env (pointee sp)) as [value|]; [|apply IH].
  destruct (multiple (pointee sp)).
  - destruct (csv_Read value) as [values|err]; [|intros [= <- <-]; eauto].
    destruct (setSlice_at _ _ values _) as [st1 [[]|e1| |]]; simpl;
      try done; [apply IH | intros [= <- <-]; eauto].
  - destruct (parseValue_at _ _ value) as [st1 [[]|e1| |]]; simpl;
      try done; [apply IH | intros [= <- <-]; eauto].
Qed.

Lemma enter_error subcmd st st' e :
  enter environ subcmd st = (st', Ret e) → ∃ m, e = Errorf (String "e" m).
Proof.
  unfold enter. destruct (val _ _) as [| |[]]; try done.
  destruct (captureEnvVars environ _ _) as [st1 [[]|e1| |]] eqn:E; try done.
  intros [= <- <-]. by eapply captureEnvVars_error.
Qed.

(** The flag branch of a multiple-value spec reports no missing value. *)
Lemma option_multiple_error args i arg value sp st st' e :
  multiple (pointee sp) = true →
  option_ args i arg value sp st = (st', Ret e) → ∃ m, e = Errorf (String "e" m).
Proof.
  intros Hm. unfold option_. rewrite Hm.
  destruct (setSlice_at _ _ _ _) as [st1 [[]|e1| |]]; try done.
  intros [= <- <-]. eauto.
Qed.

Lemma collect_none separate args i :
  (∀ nxt, args !! (i + 1) = Some nxt → isFlag nxt = true) →
  collect separate (drop (i + 1) args) = [].
Proof.
  intros Hn. destruct (drop (i + 1) args) as [|a rest] eqn:E; [done|].
  simpl. rewrite (Hn a); [done|].
  pose proof (lookup_drop args (i + 1) 0) as Hl.
  rewrite E, Nat.add_0_r in Hl. done.
Qed.

Lemma present_put st d r sp : present (put st d r) sp = present st sp.
Proof. by destruct r. Qed.

Lemma present_mark st sp : present (mark_present st sp) sp = true.
Proof. unfold present, mark_present. simpl. by rewrite lookup_insert_eq. Qed.

End MultipleValues.

(** C10.  A turn of the loop that returns a "missing value" error is
    at a flag that resolves to a spec that is not multiple-valued: a
    multiple-valued option never gives that error.  And when the flag
    of a multiple-valued option has no inline value and is followed by
    the end of the arguments or by a flag, the turn goes on to the next
    token with the option marked as seen and the empty list of values
    written: a slice destination keeps its contents when the option is
    [separate] and is cut to length 0 (a nil slice stays nil) when it
    is not. *)
Theorem multiple_never_missing_value `{External}
    (environ : gmap string string) (st : session) (args : list string) (i : nat) :
  (∀ st' m,
     step environ args i st = (st', Ret (Errorf ("missing value for " +:+ m))) →
     ∃ arg sp, flag_at st args i arg sp ∧ multiple (pointee sp) = false)
  ∧ (∀ arg sp e l,
       flag_at st args i arg sp → multiple (pointee sp) = true →
       flag_value arg = "" →
       (∀ nxt, args !! (i + 1) = Some nxt → isFlag nxt = true) →
       val (roots (parser st)) (dest (pointee sp)) = RVal (VSlice e l) →
       ∃ st', step environ args i st = (st', Go (i + 1))
              ∧ present st' sp = true
              ∧ val (roots (parser st')) (dest (pointee sp))
                = RVal (VSlice e (if separate (pointee sp) then l
                                  else truncated l))).
Proof.
  split.
  - intros st' m. unfold step.
    destruct (args !! i) as [arg|] eqn:Hi; [|done].
    destruct (String.eqb arg "--") eqn:Hdd; [done|].
    destruct (negb (isFlag arg) || allpositional st) eqn:Hfl.
    { destruct (length (subcommands (curCmd st)) =? 0); [done|].
      destruct (findSubcommand _ arg) as [subcmd|]; [|done].
      destruct (enter environ subcmd st) as [st1 [[]|e1| |]] eqn:E; try done.
      intros [= <- ->]. by destruct (enter_error _ _ _ _ _ E). }
    destruct (String.eqb arg "-h" || String.eqb arg "--help") eqn:Hh; [done|].
    destruct (String.eqb arg "--version") eqn:Hv; [done|].
    destruct (findOption _ _) as [sp|] eqn:Hf; [|done].
    intros Ho. exists arg, sp. split.
    + apply orb_false_iff in Hfl as [Hfl Hall].
      apply orb_false_iff in Hh as [Hh1 Hh2].
      apply negb_false_iff in Hfl.
      repeat split; try done; by apply String.eqb_neq.
    + destruct (multiple (pointee sp)) eqn:Hm; [|done].
      by destruct (option_multiple_error _ _ _ _ _ _ _ _ Hm Ho).
  - intros arg sp e l Hat Hm Hval Hnext Hdest.
    rewrite (step_flag environ _ _ _ _ _ Hat), Hval.
    unfold option_. rewrite Hm. simpl.
    rewrite (collect_none _ _ _ Hnext). simpl.
    unfold setSlice_at. simpl. rewrite Hdest. simpl.
    eexists. split; [by rewrite Nat.add_0_r|].
    split; [exact (present_mark _ _)|].
    simpl. erewrite val_assign_same by done.
    do 2 f_equal. by destruct l, (separate (pointee sp)).
Qed.

(** "--names" alone, against a destination whose [Names] holds a
    default: the slice is cut to length 0. *)
Lemma multiple_never_missing_value_witness :
  ∃ st', step (H := Plain.runtime) ∅ ["--names"] 0 (start Sample.with_defaults)
         = (st', Go 1)
         ∧ present st' (Sample.spec_named "names") = true
         ∧ val (roots (parser st')) (mkPath 0 ["Names"])
           = RVal (VSlice Plain.tstring (Some [])).
Proof.
  apply (proj2 (multiple_never_missing_value (H := Plain.runtime) ∅
                  (start Sample.with_defaults) ["--names"] 0)
           "--names" (Sample.spec_named "names") Plain.tstring
           (Some [Sample.str "old"])).
  - repeat split; try reflexivity; discriminate.
  - reflexivity.
  - reflexivity.
  - intros nxt Hn. discriminate Hn.
  - reflexivity.
Defined.

(** ** Single-value options *)

Section SingleValue.
Context `{External}.
Variable environ : gmap string string.

(** A flag of a single-value, non-boolean option without inline value,
    followed by a token that is taken as its value. *)
Lemma step_single_next st args i arg sp nxt v v' :
  flag_at st args i arg sp →
  multiple (pointee sp) = false → boolean (pointee sp) = false →
  flag_value arg = "" →
  args !! (i + 1) = Some nxt →
  nextIsNumeric (typ (pointee sp)) nxt = true ∨ isFlag nxt = false →
  val (roots (parser st)) (dest (pointee sp)) = RVal v →
  parseValue true true v nxt = (v', None) →
  step environ args i st
  = (put (mark_present st sp) (dest (pointee sp)) (RVal v'), Go (i + 2)).
Proof.
  intros Hat Hm Hb Hval Hn Hok Hv Hp.
  rewrite (step_flag environ _ _ _ _ _ Hat), Hval.
  unfold option_. rewrite Hm, Hb. simpl. rewrite Hn.
  assert (negb (nextIsNumeric (typ (pointee sp)) nxt) && isFlag nxt = false) as ->.
  { destruct Hok as [-> | ->]; [done | apply andb_false_r]. }
  unfold parseValue_at. simpl. rewrite Hv, Hp.
  by replace (i + 1 + 1) with (i + 2) by lia.
Qed.

(** The same with the value written behind an equals sign, or a
    boolean flag on its own. *)
Lemma process_args_pair st arg nxt sp v v' :
  flag_at st [arg; nxt] 0 arg sp →
  multiple (pointee sp) = false → boolean (pointee sp) = false →
  flag_value arg = "" →
  nextIsNumeric (typ (pointee sp)) nxt = true ∨ isFlag nxt = false →
  val (roots (parser st)) (dest (pointee sp)) = RVal v →
  parseValue true true v nxt = (v', None) →
  positionals st = [] → only_required (active st) sp →
  process_args environ [arg; nxt] st
  = (put (mark_present st sp) (dest (pointee sp)) (RVal v'), Go tt).
Proof.
  intros Hat Hm Hb Hval Hok Hv Hp Hpos Hreq.
  unfold process_args.
  change (length [arg; nxt]) with 2.
  erewrite loop_go;
    [|simpl; lia | by eapply (step_single_next st [arg; nxt] 0 arg sp nxt v v')].
  rewrite loop_end by (simpl; lia).
  rewrite process_positionals_none by done.
  simpl. rewrite Hpos.
  by erewrite check_required_none; [|exact Hreq | exact (present_mark _ _)].
Qed.

End SingleValue.

(** A flag token that is none of the special ones and whose name the
    active specs resolve. *)
Lemma flag_at_intro st args i arg sp :
  args !! i = Some arg → allpositional st = false →
  String.eqb arg "--" = false → isFlag arg = true →
  String.eqb arg "-h" || String.eqb arg "--help" || String.eqb arg "--version"
  = false →
  findOption (active st) (flag_name arg) = Some sp →
  flag_at st args i arg sp.
Proof.
  intros Hi Hall Hdd Hfl Hs Hfind.
  apply orb_false_iff in Hs as [Hs Hv]. apply orb_false_iff in Hs as [Hh Hhelp].
  repeat split; try done; by apply String.eqb_neq.
Qed.

(** C5.  At a flag of a single-value option that is not boolean and
    has no inline value: a next token for which [nextIsNumeric] answers
    true is taken as the value, flag-shaped or not, and the turn goes
    on two tokens further with the coerced value stored; the turn
    returns the "missing value" error exactly when the arguments end
    behind the flag or the next token is flag-shaped and
    [nextIsNumeric] answers false.  So ["--count", "-5"] against an
    option [count] for whose type "-5" is numeric stores the value
    coerced from "-5" and returns no error. *)
Theorem numeric_value_after_flag `{External} (environ : gmap string string) :
  (∀ st args i arg sp,
     flag_at st args i arg sp →
     multiple (pointee sp) = false → boolean (pointee sp) = false →
     flag_value arg = "" →
     (∀ nxt v v',
        args !! (i + 1) = Some nxt →
        nextIsNumeric (typ (pointee sp)) nxt = true →
        val (roots (parser st)) (dest (pointee sp)) = RVal v →
        parseValue true true v nxt = (v', None) →
        ∃ st', step environ args i st = (st', Go (i + 2))
               ∧ present st' sp = true
               ∧ val (roots (parser st')) (dest (pointee sp)) = RVal v')
     ∧ ((∃ st', step environ args i st
                = (st', Ret (Errorf ("missing value for " +:+ arg))))
        ↔ (args !! (i + 1) = None
           ∨ ∃ nxt, args !! (i + 1) = Some nxt ∧ isFlag nxt = true
                    ∧ nextIsNumeric (typ (pointee sp)) nxt = false)))
  ∧ (∀ p sp v v',
       findOption (specs (cmd p)) "count" = Some sp →
       multiple (pointee sp) = false → boolean (pointee sp) = false →
       env_unset environ (specs (cmd p)) = true →
       only_required (specs (cmd p)) sp →
       nextIsNumeric (typ (pointee sp)) "-5" = true →
       val (roots p) (dest (pointee sp)) = RVal v →
       parseValue true true v "-5" = (v', None) →
       ∃ p', process environ p ["--count"; "-5"] = (p', Go tt)
             ∧ val (roots p') (dest (pointee sp)) = RVal v').
Proof.
  split.
  - intros st args i arg sp Hat Hm Hb Hval. split.
    + intros nxt v v' Hn Hnum Hv Hp.
      erewrite step_single_next by eauto.
      eexists. split; [done|]. split; [exact (present_mark _ _)|].
      simpl. by erewrite val_assign_same.
    + rewrite (step_flag environ _ _ _ _ _ Hat), Hval.
      unfold option_. rewrite Hm, Hb. simpl.
      destruct (args !! (i + 1)) as [nxt|] eqn:Hn.
      * destruct (negb (nextIsNumeric (typ (pointee sp)) nxt) && isFlag nxt)
          eqn:Hc.
        -- split; [|eauto]. intros _. right. exists nxt.
           apply andb_true_iff in Hc as [Hc1 Hc2].
           apply negb_true_iff in Hc1. done.
        -- split.
           ++ intros [st' Hs]. exfalso.
              destruct (parseValue_at _ _ nxt) as [st1 [[]|e1| |]];
                simpl in Hs; try done.
           ++ intros [Hnone | (nxt' & [= <-] & Hf & Hnn)]; [done|].
              by rewrite Hnn, Hf in Hc.
      * split; [|eauto]. intros _. by left.
  - intros p sp v v' Hfind Hm Hb Hu Hreq Hnum Hv Hp.
    unfold process. rewrite captureEnvVars_unset by done.
    assert (Hat : flag_at (start p) ["--count"; "-5"] 0 "--count" sp)
      by (by apply flag_at_intro).
    erewrite (process_args_pair environ (start p) "--count" "-5" sp v v');
      try done; [|by left].
    eexists. split; [done|]. simpl. by erewrite val_assign_same.
Qed.

(** On a concrete list of specs, [only_required] is settled spec by
    spec. *)
Ltac only_required_by_cases :=
  let s := fresh "s" in
  let Hs := fresh "Hs" in
  let Hr := fresh "Hr" in
  intros s Hs Hr; vm_compute in Hs;
  repeat (apply elem_of_cons in Hs as [-> | Hs];
          [first [discriminate Hr | reflexivity]|]);
  by apply elem_of_nil in Hs.

(** ["--count", "-5"] against the sample program, with decimal
    integers. *)
Lemma numeric_value_after_flag_witness :
  ∃ p', process (H := Plain.runtime) ∅ Sample.program ["--count"; "-5"] = (p', Go tt)
        ∧ val (roots p') (mkPath 0 ["Count"]) = RVal (Sample.int (-5)).
Proof.
  apply (proj2 (numeric_value_after_flag (H := Plain.runtime) ∅)
           Sample.program (Sample.spec_named "count") (Sample.int 0)
           (Sample.int (-5))); try (vm_compute; reflexivity).
  only_required_by_cases.
Defined.

(** ** The environment is read first *)

Section Environment.
Context `{External}.
Variable environ : gmap string string.

Lemma captureEnvVars_app l1 l2 st :
  captureEnvVars environ (l1 ++ l2) st
  = match captureEnvVars environ l1 st with
    | (st1, Go _) => captureEnvVars environ l2 st1
    | r => r
    end.
Proof.
  revert st. induction l1 as [|sp l1 IH]; intros st; simpl; [done|].
  destruct (String.eqb (env (pointee sp)) ""); [apply IH|].
  destruct (environ !! env (pointee sp)) as [value|]; [|apply IH].
  destruct (if multiple (pointee sp) then _ else _) as [st1 [[]|e| |]];
    [apply IH | done..].
Qed.

Lemma present_mark_other st sp sp' :
  present st sp = true → present (mark_present st sp') sp = true.
Proof.
  unfold present, mark_present. simpl. intros Hp.
  destruct (decide (addr sp' = addr sp)) as [->|Hne].
  - by rewrite lookup_insert_eq.
  - by rewrite lookup_insert_ne.
Qed.

Lemma setSlice_at_present st d values trunc sp :
  present (fst (setSlice_at st d values trunc)) sp = present st sp.
Proof.
  unfold setSlice_at. destruct (setSlice _ values trunc) as [r c]. simpl.
  apply present_put.
Qed.

Lemma parseValue_at_present st d s sp :
  present (fst (parseValue_at st d s)) sp = present st sp.
Proof.
  unfold parseValue_at. destruct (val _ d) as [| |v]; try done.
  by destruct (parseValue true true v s).
Qed.

(** What was seen stays seen while the environment is read. *)
Lemma captureEnvVars_keeps l sp : ∀ st,
  present st sp = true → present (fst (captureEnvVars environ l st)) sp = true.
Proof.
  induction l as [|s l IH]; intros st Hp; simpl; [done|].
  destruct (String.eqb (env (pointee s)) ""); [by apply IH|].
  destruct (environ !! env (pointee s)) as [value|]; [|by apply IH].
  destruct (multiple (pointee s)).
  - destruct (csv_Read value) as [values|err]; [|done].
    pose proof (setSlice_at_present st (dest (pointee s)) values
                  (negb (separate (pointee s))) sp) as Hs.
    destruct (setSlice_at _ _ values _) as [st1 [[]|e| |]]; simpl in *;
      try congruence.
    apply IH, present_mark_other. congruence.
  - pose proof (parseValue_at_present st (dest (pointee s)) value sp) as Hs.
    destruct (parseValue_at _ _ value) as [st1 [[]|e| |]]; simpl in *;
      try congruence.
    apply IH, present_mark_other. congruence.
Qed.

(** Every spec whose variable is set is marked when the environment
    was read without error. *)
Lemma captureEnvVars_marks l sp : ∀ st st',
  captureEnvVars environ l st = (st', Go tt) →
  sp ∈ l → env (pointee sp) ≠ "" → is_Some (environ !! env (pointee sp)) →
  present st' sp = true.
Proof.
  induction l as [|s l IH]; intros st st' Hc Hin Hne Hset.
  - by apply elem_of_nil in Hin.
  - simpl in Hc. apply elem_of_cons in Hin as [<- | Hin].
    + apply String.eqb_neq in Hne. rewrite Hne in Hc.
      destruct Hset as [value Hv]. rewrite Hv in Hc.
      destruct (if multiple (pointee sp) then _ else _) as [st1 [[]|e| |]];
        try done.
      pose proof (captureEnvVars_keeps l sp (mark_present st1 sp)
                    (present_mark _ _)) as Hk.
      by rewrite Hc in Hk.
    + destruct (String.eqb (env (pointee s)) ""); [by eapply IH|].
      destruct (environ !! env (pointee s)) as [value|]; [|by eapply IH].
      destruct (if multiple (pointee s) then _ else _) as [st1 [[]|e| |]];
        try done.
      by eapply IH.
Qed.

(** Reading the environment when exactly one single-value spec has its
    variable set. *)
Lemma captureEnvVars_one pre sp post st value v v' :
  env_unset environ pre = true → env_unset environ post = true →
  env (pointee sp) ≠ "" → environ !! env (pointee sp) = Some value →
  multiple (pointee sp) = false →
  val (roots (parser st)) (dest (pointee sp)) = RVal v →
  parseValue true true v value = (v', None) →
  captureEnvVars environ (pre ++ sp :: post) st
  = (mark_present (put st (dest (pointee sp)) (RVal v')) sp, Go tt).
Proof.
  intros Hpre Hpost Hne Hset Hm Hv Hp.
  rewrite captureEnvVars_app, captureEnvVars_unset by done.
  simpl. apply String.eqb_neq in Hne. rewrite Hne, Hset, Hm.
  unfold parseValue_at. rewrite Hv, Hp.
  by rewrite captureEnvVars_unset.
Qed.

(** The options of a subcommand are read from the environment in the
    turn that enters it. *)
Lemma enter_marks subcmd st st' sp :
  enter environ subcmd st = (st', Go tt) →
  sp ∈ specs subcmd → env (pointee sp) ≠ "" →
  is_Some (environ !! env (pointee sp)) → present st' sp = true.
Proof.
  unfold enter. destruct (val _ _) as [| |[]]; try done.
  destruct (captureEnvVars environ _ _) as [st3 [[]|e1| |]] eqn:E; try done.
  intros [= <-] Hin Hne Hset.
  exact (captureEnvVars_marks _ _ _ _ E Hin Hne Hset).
Qed.

End Environment.

(** C3.  The environment is read before any token: a failure there is
    what [process] returns whatever the arguments are, and when it
    succeeds every spec of the top-level command whose variable is set
    is marked as seen.  With FOO=5 and an option [foo] declared
    [env:FOO], the empty argument list leaves in [foo] the value coerced
    from "5", and ["--foo", "9"] leaves the value coerced from "9": the
    token overrides the environment.  The specs of a subcommand come
    into scope when its name is read, and are read from the environment
    and marked in that same turn, before any later token. *)
Theorem environment_then_tokens `{External} (environ : gmap string string)
    (p : Parser) :
  (∀ args st1 e,
     captureEnvVars environ (specs (cmd p)) (start p) = (st1, Ret e) →
     process environ p args = (parser st1, Ret e))
  ∧ (∀ st1 sp,
       captureEnvVars environ (specs (cmd p)) (start p) = (st1, Go tt) →
       sp ∈ specs (cmd p) → env (pointee sp) ≠ "" →
       is_Some (environ !! env (pointee sp)) → present st1 sp = true)
  ∧ (∀ pre sp post v0 v5 v9,
       specs (cmd p) = pre ++ sp :: post →
       env_unset environ pre = true → env_unset environ post = true →
       env (pointee sp) = "FOO" → environ !! "FOO" = Some "5" →
       findOption (specs (cmd p)) "foo" = Some sp →
       multiple (pointee sp) = false → boolean (pointee sp) = false →
       only_required (specs (cmd p)) sp →
       val (roots p) (dest (pointee sp)) = RVal v0 →
       parseValue true true v0 "5" = (v5, None) →
       parseValue true true v5 "9" = (v9, None) →
       (∃ p1, process environ p [] = (p1, Go tt)
              ∧ val (roots p1) (dest (pointee sp)) = RVal v5)
       ∧ (∃ p2, process environ p ["--foo"; "9"] = (p2, Go tt)
                ∧ val (roots p2) (dest (pointee sp)) = RVal v9))
  ∧ (∀ st subcmd st' sp,
       enter environ subcmd st = (st', Go tt) →
       sp ∈ specs subcmd → env (pointee sp) ≠ "" →
       is_Some (environ !! env (pointee sp)) → present st' sp = true).
Proof.
  split; [|split; [|split]]; [| | |intros st subcmd st' sp; apply enter_marks].
  - intros args st1 e Hc. unfold process. simpl. by rewrite Hc.
  - intros st1 sp Hc. by eapply captureEnvVars_marks.
  - intros pre sp post v0 v5 v9 Hsplit Hpre Hpost Henv Hset Hfind Hm Hb Hreq
      Hv0 Hp5 Hp9.
    assert (Hc : captureEnvVars environ (specs (cmd p)) (start p)
                 = (mark_present (put (start p) (dest (pointee sp)) (RVal v5)) sp,
                    Go tt)).
    { rewrite Hsplit. eapply captureEnvVars_one; try done.
      - by rewrite Henv.
      - by rewrite Henv. }
    set (st1 := mark_present _ sp) in Hc.
    assert (Hv5 : val (roots (parser st1)) (dest (pointee sp)) = RVal v5)
      by (simpl; by erewrite val_assign_same).
    split.
    + unfold process. simpl active. rewrite Hc.
      unfold process_args. simpl length. rewrite loop_end by (simpl; lia).
      rewrite process_positionals_none by done. simpl positionals.
      erewrite check_required_none; [|exact Hreq | exact (present_mark _ _)].
      eauto.
    + unfold process. simpl active. rewrite Hc.
      assert (Hat : flag_at st1 ["--foo"; "9"] 0 "--foo" sp)
        by (by apply flag_at_intro).
      erewrite (process_args_pair environ st1 "--foo" "9" sp v5 v9);
        try done; [|by right].
      eexists. split; [done|]. simpl. by erewrite val_assign_same.
Qed.

(** The sample program with FOO=5. *)
Lemma environment_then_tokens_witness :
  (∃ p1, process (H := Plain.runtime) {["FOO" := "5"]} Sample.program [] = (p1, Go tt)
         ∧ val (roots p1) (mkPath 0 ["Foo"]) = RVal (Sample.int 5))
  ∧ (∃ p2, process (H := Plain.runtime) {["FOO" := "5"]} Sample.program
             ["--foo"; "9"] = (p2, Go tt)
           ∧ val (roots p2) (mkPath 0 ["Foo"]) = RVal (Sample.int 9)).
Proof.
  apply (proj1 (proj2 (proj2 (environment_then_tokens (H := Plain.runtime)
                                {["FOO" := "5"]} Sample.program)))
           (take 2 (specs (cmd Sample.program))) (Sample.spec_named "foo")
           (drop 3 (specs (cmd Sample.program)))
           (Sample.int 0) (Sample.int 5) (Sample.int 9));
    try (vm_compute; reflexivity).
  only_required_by_cases.
Defined.

(** ** Values of a multiple-value option *)

Section Collected.
Context `{External}.
Variable environ : gmap string string.

Lemma setSlice_loop_coerced e values items : ∀ acc,
  coerced e values items →
  setSlice_loop e false acc values = (acc ++ items, None).
Proof.
  intros acc Hc. revert acc.
  induction Hc as [|s x values items Hs Hc IH]; intros acc; simpl.
  - by rewrite app_nil_r.
  - rewrite Hs, IH. by rewrite <- app_assoc.
Qed.

(** A flag of a multiple-value option without inline value, whose
    collected tokens are all coerced: the items go behind the contents
    of the slice, which were cut away first unless the option is
    [separate]. *)
Lemma step_multiple_values st args i arg sp e l x items :
  flag_at st args i arg sp →
  multiple (pointee sp) = true → flag_value arg = "" →
  val (roots (parser st)) (dest (pointee sp)) = RVal (VSlice e l) →
  Kind_eqb (Kind_of e) Ptr = false →
  coerced e (collect (separate (pointee sp)) (drop (i + 1) args)) (x :: items) →
  step environ args i st
  = (put (mark_present st sp) (dest (pointee sp))
       (RVal (VSlice e (Some ((if separate (pointee sp) then default [] l else [])
                              ++ x :: items)))),
     Go (i + length (x :: items) + 1)).
Proof.
  intros Hat Hm Hval Hv Hk Hc.
  rewrite (step_flag environ _ _ _ _ _ Hat), Hval.
  unfold option_. rewrite Hm. cbn [String.eqb].
  rewrite (Forall2_length _ _ _ Hc).
  unfold setSlice_at. cbn [mark_present parser roots]. rewrite Hv.
  unfold setSlice. rewrite Hk. cbn [andb].
  rewrite (setSlice_loop_coerced _ _ _ _ Hc).
  f_equal. f_equal. f_equal. f_equal.
  destruct (separate (pointee sp)), l as [xs|]; cbn; try done;
    by destruct xs.
Qed.

Lemma collect_separate_one args i a :
  args !! (i + 1) = Some a → isFlag a = false →
  collect true (drop (i + 1) args) = [a].
Proof.
  intros Ha Hf. destruct (drop (i + 1) args) as [|a' rest] eqn:E.
  - apply (f_equal length) in E. rewrite length_drop in E.
    apply lookup_lt_Some in Ha. simpl in E. lia.
  - pose proof (lookup_drop args (i + 1) 0) as Hl.
    rewrite E, Nat.add_0_r, Ha in Hl. injection Hl as ->.
    simpl. by rewrite Hf.
Qed.

End Collected.

(** C6.  At a flag of a [separate] multiple-value option that is
    followed by a token that is no flag, the turn consumes that one
    token and puts its coerced value behind the contents of the slice.
    So ["--tag", a, "--tag", b] leaves the slice holding what it held
    before, then the value of [a], then the value of [b]: for an empty
    or nil slice of strings, ["a", "b"] in that order. *)
Theorem separate_appends_in_order `{External} (environ : gmap string string) :
  (∀ st args i arg sp a e l xa,
     flag_at st args i arg sp →
     multiple (pointee sp) = true → separate (pointee sp) = true →
     flag_value arg = "" →
     args !! (i + 1) = Some a → isFlag a = false →
     val (roots (parser st)) (dest (pointee sp)) = RVal (VSlice e l) →
     Kind_eqb (Kind_of e) Ptr = false →
     parseValue true true (Zero e) a = (xa, None) →
     ∃ st', step environ args i st = (st', Go (i + 2))
            ∧ val (roots (parser st')) (dest (pointee sp))
              = RVal (VSlice e (Some (default [] l ++ [xa]))))
  ∧ (∀ p sp a b e l xa xb,
       findOption (specs (cmd p)) "tag" = Some sp →
       multiple (pointee sp) = true → separate (pointee sp) = true →
       env_unset environ (specs (cmd p)) = true →
       only_required (specs (cmd p)) sp →
       isFlag a = false → isFlag b = false →
       val (roots p) (dest (pointee sp)) = RVal (VSlice e l) →
       Kind_eqb (Kind_of e) Ptr = false →
       parseValue true true (Zero e) a = (xa, None) →
       parseValue true true (Zero e) b = (xb, None) →
       ∃ p', process environ p ["--tag"; a; "--tag"; b] = (p', Go tt)
             ∧ val (roots p') (dest (pointee sp))
               = RVal (VSlice e (Some (default [] l ++ [xa; xb])))).
Proof.
  split.
  - intros st args i arg sp a e l xa Hat Hm Hsep Hval Ha Hfa Hv Hk Hp.
    erewrite (step_multiple_values environ st args i arg sp e l xa []);
      try done.
    + rewrite Hsep. eexists. split; [by replace (i + 2) with (i + length [xa] + 1)
                                        by (simpl; lia)|].
      simpl. by erewrite val_assign_same.
    + rewrite Hsep, (collect_separate_one _ _ _ Ha Hfa).
      by repeat constructor.
  - intros p sp a b e l xa xb Hfind Hm Hsep Hu Hreq Hfa Hfb Hv Hk Hpa Hpb.
    unfold process. rewrite captureEnvVars_unset by done.
    set (args := ["--tag"; a; "--tag"; b]).
    set (st0 := start p).
    assert (Hat0 : flag_at st0 args 0 "--tag" sp) by (by apply flag_at_intro).
    pose proof (step_multiple_values environ st0 args 0 "--tag" sp e l xa []
                  Hat0 Hm eq_refl Hv Hk) as Hs0.
    rewrite Hsep in Hs0.
    rewrite (collect_separate_one args 0 a eq_refl Hfa) in Hs0.
    specialize (Hs0 ltac:(by repeat constructor)).
    set (st1 := put (mark_present st0 sp) _ _) in Hs0.
    assert (Hv1 : val (roots (parser st1)) (dest (pointee sp))
                  = RVal (VSlice e (Some (default [] l ++ [xa]))))
      by (simpl; by erewrite val_assign_same).
    assert (Hat1 : flag_at st1 args 2 "--tag" sp) by (by apply flag_at_intro).
    pose proof (step_multiple_values environ st1 args 2 "--tag" sp e _ xb []
                  Hat1 Hm eq_refl Hv1 Hk) as Hs1.
    rewrite Hsep in Hs1.
    rewrite (collect_separate_one args 2 b eq_refl Hfb) in Hs1.
    specialize (Hs1 ltac:(by repeat constructor)).
    set (st2 := put (mark_present st1 sp) _ _) in Hs1.
    unfold process_args. change (length args) with 4.
    erewrite loop_go; [|simpl; lia | exact Hs0].
    erewrite loop_go; [|simpl; lia | exact Hs1].
    rewrite loop_end by (simpl; lia).
    rewrite process_positionals_none by done.
    change (positionals st2) with (@nil string). cbv iota.
    erewrite check_required_none; [|exact Hreq | exact (present_mark _ _)].
    eexists. split; [done|].
    simpl. erewrite val_assign_same by done. by rewrite <- app_assoc.
Qed.

(** ["--tag", "a", "--tag", "b"] against the sample program: first on
    the zero destination, where [Tag] is nil. *)
Lemma separate_appends_in_order_witness :
  ∃ p', process (H := Plain.runtime) ∅ Sample.program ["--tag"; "a"; "--tag"; "b"]
        = (p', Go tt)
        ∧ val (roots p') (mkPath 0 ["Tag"])
          = RVal (VSlice Plain.tstring (Some [Sample.str "a"; Sample.str "b"])).
Proof.
  apply (proj2 (separate_appends_in_order (H := Plain.runtime) ∅)
           Sample.program (Sample.spec_named "tag") "a" "b" Plain.tstring None
           (Sample.str "a") (Sample.str "b"));
    try (vm_compute; reflexivity).
  only_required_by_cases.
Defined.

(** C2 as stated fails: with ["--names", "a", "--names", "b"] against
    the option [Names], which is not [separate], the second occurrence
    cuts away what the first one stored, so the slice ends as ["b"], not
    as ["a", "b"]. *)
Lemma later_occurrence_wipes_earlier :
  Sample.field_after
    (process (H := Plain.runtime) ∅ Sample.with_defaults
             ["--names"; "a"; "--names"; "b"]) ["Names"]
  = RVal (VSlice Plain.tstring (Some [Sample.str "b"]))
  ∧ Sample.field_after
      (process (H := Plain.runtime) ∅ Sample.with_defaults
               ["--names"; "a"; "--names"; "b"]) ["Names"]
    ≠ RVal (VSlice Plain.tstring (Some [Sample.str "a"; Sample.str "b"])).
Proof.
  assert (E : Sample.field_after
                (process (H := Plain.runtime) ∅ Sample.with_defaults
                         ["--names"; "a"; "--names"; "b"]) ["Names"]
              = RVal (VSlice Plain.tstring (Some [Sample.str "b"])))
    by (vm_compute; reflexivity).
  split; [exact E|]. rewrite E. discriminate.
Qed.

(** C2, amended.  At every occurrence of a flag of a multiple-value
    option that is not [separate], the slice is cut to length 0 before
    the values collected by that occurrence are appended: whatever the
    slice held, defaults or values of an earlier occurrence, it holds
    the values of this occurrence afterwards.  So
    ["--names", a, "--names", b] leaves the slice holding the value of
    [b] alone, whatever the defaults were. *)
Theorem each_occurrence_replaces `{External} (environ : gmap string string) :
  (∀ st args i arg sp e l x items,
     flag_at st args i arg sp →
     multiple (pointee sp) = true → separate (pointee sp) = false →
     flag_value arg = "" →
     val (roots (parser st)) (dest (pointee sp)) = RVal (VSlice e l) →
     Kind_eqb (Kind_of e) Ptr = false →
     coerced e (collect false (drop (i + 1) args)) (x :: items) →
     ∃ st', step environ args i st = (st', Go (i + length (x :: items) + 1))
            ∧ val (roots (parser st')) (dest (pointee sp))
              = RVal (VSlice e (Some (x :: items))))
  ∧ (∀ p sp a b e l xa xb,
       findOption (specs (cmd p)) "names" = Some sp →
       multiple (pointee sp) = true → separate (pointee sp) = false →
       env_unset environ (specs (cmd p)) = true →
       only_required (specs (cmd p)) sp →
       isFlag a = false → isFlag b = false →
       val (roots p) (dest (pointee sp)) = RVal (VSlice e l) →
       Kind_eqb (Kind_of e) Ptr = false →
       parseValue true true (Zero e) a = (xa, None) →
       parseValue true true (Zero e) b = (xb, None) →
       ∃ p', process environ p ["--names"; a; "--names"; b] = (p', Go tt)
             ∧ val (roots p') (dest (pointee sp)) = RVal (VSlice e (Some [xb]))).
Proof.
  split.
  - intros st args i arg sp e l x items Hat Hm Hsep Hval Hv Hk Hc.
    erewrite (step_multiple_values environ st args i arg sp e l x items);
      try done; [|by rewrite Hsep].
    rewrite Hsep. eexists. split; [done|].
    simpl. by erewrite val_assign_same.
  - intros p sp a b e l xa xb Hfind Hm Hsep Hu Hreq Hfa Hfb Hv Hk Hpa Hpb.
    unfold process. rewrite captureEnvVars_unset by done.
    set (args := ["--names"; a; "--names"; b]).
    set (st0 := start p).
    assert (Hat0 : flag_at st0 args 0 "--names" sp) by (by apply flag_at_intro).
    pose proof (step_multiple_values environ st0 args 0 "--names" sp e l xa []
                  Hat0 Hm eq_refl Hv Hk) as Hs0.
    rewrite Hsep in Hs0.
    assert (Hc0 : collect false (drop (0 + 1) args) = [a])
      by (simpl; by rewrite Hfa).
    rewrite Hc0 in Hs0.
    specialize (Hs0 ltac:(by repeat constructor)).
    set (st1 := put (mark_present st0 sp) _ _) in Hs0.
    assert (Hv1 : val (roots (parser st1)) (dest (pointee sp))
                  = RVal (VSlice e (Some ([] ++ [xa]))))
      by (simpl; by erewrite val_assign_same).
    assert (Hat1 : flag_at st1 args 2 "--names" sp) by (by apply flag_at_intro).
    pose proof (step_multiple_values environ st1 args 2 "--names" sp e _ xb []
                  Hat1 Hm eq_refl Hv1 Hk) as Hs1.
    rewrite Hsep in Hs1.
    assert (Hc1 : collect false (drop (2 + 1) args) = [b])
      by (simpl; by rewrite Hfb).
    rewrite Hc1 in Hs1.
    specialize (Hs1 ltac:(by repeat constructor)).
    set (st2 := put (mark_present st1 sp) _ _) in Hs1.
    unfold process_args. change (length args) with 4.
    erewrite loop_go; [|simpl; lia | exact Hs0].
    erewrite loop_go; [|simpl; lia | exact Hs1].
    rewrite loop_end by (simpl; lia).
    rewrite process_positionals_none by done.
    change (positionals st2) with (@nil string). cbv iota.
    erewrite check_required_none; [|exact Hreq | exact (present_mark _ _)].
    eexists. split; [done|].
    simpl. by erewrite val_assign_same.
Qed.

(** ["--names", "a", "--names", "b"] against a destination whose
    [Names] holds the default "old". *)
Lemma each_occurrence_replaces_witness :
  ∃ p', process (H := Plain.runtime) ∅ Sample.with_defaults
          ["--names"; "a"; "--names"; "b"] = (p', Go tt)
        ∧ val (roots p') (mkPath 0 ["Names"])
          = RVal (VSlice Plain.tstring (Some [Sample.str "b"])).
Proof.
  apply (proj2 (each_occurrence_replaces (H := Plain.runtime) ∅)
           Sample.with_defaults (Sample.spec_named "names") "a" "b" Plain.tstring
           (Some [Sample.str "old"]) (Sample.str "a") (Sample.str "b"));
    try (vm_compute; reflexivity).
  only_required_by_cases.
Defined.

(** ** Subcommands *)

Section Subcommands.
Context `{External}.
Variable environ : gmap string string.

Lemma env_unset_app l1 l2 :
  env_unset environ (l1 ++ l2) = true →
  env_unset environ l1 = true ∧ env_unset environ l2 = true.
Proof. unfold env_unset. rewrite forallb_app. apply andb_true_iff. Qed.

Lemma findSubcommand_nonempty cmds nm c :
  findSubcommand cmds nm = Some c → (length cmds =? 0) = false.
Proof. by destruct cmds. Qed.

Lemma findOption_nonpositional l nm sp :
  findOption l nm = Some sp → positional (pointee sp) = false.
Proof.
  induction l as [|s l IH]; simpl; [done|].
  destruct (positional (pointee s)) eqn:E; [done|].
  destruct (_ || _); [by intros [= <-] | done].
Qed.

(** Entering a subcommand none of whose options has its variable set. *)
Lemma enter_quiet subcmd st e old :
  val (roots (parser st)) (cmd_dest subcmd) = RVal (VPtr e old) →
  env_unset environ (specs subcmd) = true →
  enter environ subcmd st
  = (mkSession (mkParser (cmd (parser st))
                  (assign (roots (parser st)) (cmd_dest subcmd)
                          (VPtr e (Some (Zero e))))
                  (Some subcmd))
               (wasPresent st) subcmd (active st ++ specs subcmd)
               (allpositional st) (positionals st),
     Go tt).
Proof.
  intros Hv Hu. unfold enter. rewrite Hv. by rewrite captureEnvVars_unset.
Qed.

(** The loop body at a token that names a subcommand. *)
Lemma step_subcommand st args i tok subcmd e old :
  args !! i = Some tok → String.eqb tok "--" = false → isFlag tok = false →
  findSubcommand (subcommands (curCmd st)) tok = Some subcmd →
  val (roots (parser st)) (cmd_dest subcmd) = RVal (VPtr e old) →
  env_unset environ (specs subcmd) = true →
  step environ args i st
  = (mkSession (mkParser (cmd (parser st))
                  (assign (roots (parser st)) (cmd_dest subcmd)
                          (VPtr e (Some (Zero e))))
                  (Some subcmd))
               (wasPresent st) subcmd (active st ++ specs subcmd)
               (allpositional st) (positionals st),
     Go (i + 1)).
Proof.
  intros Hi Hdd Hfl Hfind Hv Hu. unfold step.
  rewrite Hi, Hdd, Hfl. cbn [negb orb].
  rewrite (findSubcommand_nonempty _ _ _ Hfind), Hfind.
  by erewrite enter_quiet.
Qed.

End Subcommands.

(** C1.  For a schema whose root finds the subcommand [serve] under
    that name, where "port" resolves to a required single-value option
    of [serve] stored in a field of the struct that the subcommand's
    pointer field points to, with no environment variable of an option
    in scope set and no other required option in scope: the token
    "serve" makes the subcommand's field point to a new zero struct,
    adds the subcommand's specs behind the active ones and makes it the
    current command; ["serve", "--port", "8080"] ends without error
    with the value coerced from "8080" in the field; ["serve"] returns
    "--port is required"; and a token that is no flag and names no
    subcommand, such as "launch", returns "invalid subcommand". *)
Theorem subcommand_dispatch `{External} (environ : gmap string string)
    (p : Parser) (serve : command) (sp : specptr) (e : rtype)
    (old : option value) (fname : string) (v0 v8080 : value) :
  findSubcommand (subcommands (cmd p)) "serve" = Some serve →
  env_unset environ (specs (cmd p) ++ specs serve) = true →
  val (roots p) (cmd_dest serve) = RVal (VPtr e old) →
  findOption (specs (cmd p) ++ specs serve) "port" = Some sp →
  sp ∈ specs serve → long (pointee sp) = "port" →
  required (pointee sp) = true →
  multiple (pointee sp) = false → boolean (pointee sp) = false →
  only_required (specs (cmd p) ++ specs serve) sp →
  dest (pointee sp) = Child (cmd_dest serve) fname →
  val_from (VPtr e (Some (Zero e))) [fname] = RVal v0 →
  parseValue true true v0 "8080" = (v8080, None) →
  (∃ st1, step environ ["serve"; "--port"; "8080"] 0 (start p) = (st1, Go 1)
          ∧ active st1 = specs (cmd p) ++ specs serve
          ∧ curCmd st1 = serve
          ∧ val (roots (parser st1)) (cmd_dest serve)
            = RVal (VPtr e (Some (Zero e))))
  ∧ (∃ p1, process environ p ["serve"; "--port"; "8080"] = (p1, Go tt)
           ∧ val (roots p1) (dest (pointee sp)) = RVal v8080
           ∧ lastCmd p1 = Some serve)
  ∧ (∃ p2, process environ p ["serve"]
           = (p2, Ret (Errorf "--port is required")))
  ∧ (∀ tok, isFlag tok = false → tok ≠ "--" →
       findSubcommand (subcommands (cmd p)) tok = None →
       ∃ p3, process environ p [tok]
             = (p3, Ret (Errorf ("invalid subcommand: " +:+ tok)))).
Proof.
  intros Hserve Hu Hv Hfind Hin Hlong Hreq Hm Hb Honly Hdest Hv0 Hp.
  destruct (env_unset_app environ _ _ Hu) as [Hu1 Hu2].
  set (st0 := start p).
  assert (Hstep : ∀ args, args !! 0 = Some "serve" →
            step environ args 0 st0
            = (mkSession (mkParser (cmd p)
                            (assign (roots p) (cmd_dest serve)
                                    (VPtr e (Some (Zero e))))
                            (Some serve))
                         ∅ serve (specs (cmd p) ++ specs serve) false [],
               Go 1)).
  { intros args Ha.
    by erewrite (step_subcommand environ st0 args 0 "serve" serve e old). }
  set (st1 := mkSession _ ∅ serve _ false []) in Hstep.
  assert (Hserve1 : val (roots (parser st1)) (cmd_dest serve)
                    = RVal (VPtr e (Some (Zero e))))
    by (simpl; by erewrite val_assign_same).
  assert (Hport1 : val (roots (parser st1)) (dest (pointee sp)) = RVal v0).
  { rewrite Hdest. unfold Child. simpl. by erewrite val_assign. }
  split; [|split; [|split]].
  - exists st1. by rewrite Hstep.
  - unfold process. rewrite captureEnvVars_unset by done.
    unfold process_args. simpl length.
    erewrite loop_go; [|simpl; lia | by apply Hstep].
    assert (Hat : flag_at st1 ["serve"; "--port"; "8080"] 1 "--port" sp)
      by (by apply flag_at_intro).
    erewrite loop_go;
      [|simpl; lia
       |by eapply (step_single_next environ st1 _ 1 "--port" sp "8080" v0 v8080);
          [..|right|idtac|idtac]].
    rewrite loop_end by (simpl; lia).
    rewrite process_positionals_none by done. simpl positionals.
    erewrite check_required_none; [|exact Honly | exact (present_mark _ _)].
    eexists. split; [done|]. split; [|done].
    simpl. by erewrite val_assign_same.
  - unfold process. rewrite captureEnvVars_unset by done.
    unfold process_args. simpl length.
    erewrite loop_go; [|simpl; lia | by apply Hstep].
    rewrite loop_end by (simpl; lia).
    rewrite process_positionals_none by done. simpl positionals.
    erewrite check_required_missing; [|exact Honly| | |]; try done.
    + rewrite (findOption_nonpositional _ _ _ Hfind), Hlong. eauto.
    + apply elem_of_app. by right.
  - intros tok Hfl Hdd Hnone.
    unfold process. rewrite captureEnvVars_unset by done.
    unfold process_args. simpl length.
    erewrite loop_ret; [eauto | simpl; lia |].
    unfold step. simpl lookup. cbv iota beta. apply String.eqb_neq in Hdd.
    rewrite Hdd, Hfl. cbn [negb orb].
    simpl curCmd. by rewrite (findSubcommand_nonempty _ _ _ Hserve), Hnone.
Qed.

(** The sample program: [Serve *ServeCmd] with [Port int], required. *)
Lemma subcommand_dispatch_witness :
  (∃ p1, process (H := Plain.runtime) ∅ Sample.program ["serve"; "--port"; "8080"]
         = (p1, Go tt)
         ∧ val (roots p1) (mkPath 0 ["Serve"; "Port"]) = RVal (Sample.int 8080)
         ∧ lastCmd p1 = Some Sample.serve_cmd)
  ∧ (∃ p2, process (H := Plain.runtime) ∅ Sample.program ["serve"]
           = (p2, Ret (Errorf "--port is required")))
  ∧ (∃ p3, process (H := Plain.runtime) ∅ Sample.program ["launch"]
           = (p3, Ret (Errorf "invalid subcommand: launch"))).
Proof.
  destruct (subcommand_dispatch (H := Plain.runtime) ∅ Sample.program
              Sample.serve_cmd Sample.port_spec Sample.serveT None "Port"
              (Sample.int 0) (Sample.int 8080))
    as (_ & H1 & H2 & H3); try (vm_compute; reflexivity).
  - vm_compute. apply list_elem_of_here.
  - only_required_by_cases.
  - split; [exact H1|]. split; [exact H2|].
    apply (H3 "launch"); [reflexivity | discriminate | reflexivity].
Defined.

(** * Further properties of the code *)

(** ** [isFlag] *)

Lemma TrimLeft_dashes (s : string) :
  strings.TrimLeft s "-" = "" ↔ only_dashes s = true.
Proof.
  induction s as [|c s IH]; simpl; [done|].
  destruct (Ascii.eqb c "-") eqn:E; simpl; [done|].
  split; discriminate.
Qed.

(** X1.  A token is a flag exactly when it starts with a dash and holds
    a byte that is no dash: the empty token, "-", "--" and every longer
    run of dashes are no flags, and no token that starts with another
    byte is one. *)
Theorem isFlag_iff (s : string) :
  isFlag s = true ↔ ∃ rest, s = String "-" rest ∧ only_dashes rest = false.
Proof.
  unfold isFlag, strings.HasPrefix.
  destruct s as [|c s].
  { split; [done|]. by intros (rest & ? & _). }
  cbn [String.prefix].
  destruct (ascii_dec "-" c) as [<-|Hne].
  - assert (String.prefix "" s = true) as -> by (by destruct s).
    change (strings.TrimLeft (String "-" s) "-") with (strings.TrimLeft s "-").
    cbn [andb]. rewrite negb_true_iff.
    pose proof (TrimLeft_dashes s) as Ht.
    split.
    + intros Hn. exists s. split; [done|].
      destruct (only_dashes s); [|done].
      apply String.eqb_neq in Hn. exfalso. apply Hn. by apply Ht.
    + intros (rest & [= <-] & Hd). apply String.eqb_neq. intros Ht'.
      apply Ht in Ht'. congruence.
  - split; [done|]. intros (rest & [= ->] & _). done.
Qed.

(** ** The name and the inline value of a flag token *)

Lemma append_empty (s : string) : "" +:+ s = s.
Proof. reflexivity. Qed.

Lemma append_String (a : ascii) (s r : string) :
  String a s +:+ r = String a (s +:+ r).
Proof. reflexivity. Qed.

Lemma index_byte_first (c : ascii) (n r : string) :
  strings.mem_ascii c n = false →
  String.index 0 (String c EmptyString) (n +:+ String c r) = Some (String.length n).
Proof.
  induction n as [|a n IH]; intros Hn.
  - rewrite append_empty. cbn [String.index String.prefix String.length].
    destruct (ascii_dec c c); [|congruence]. by destruct r.
  - cbn [strings.mem_ascii] in Hn.
    destruct (Ascii.eqb c a) eqn:E; [done|]. apply Ascii.eqb_neq in E.
    rewrite append_String.
    cbn [String.index String.prefix String.length].
    destruct (ascii_dec c a); [done|]. by rewrite IH.
Qed.

Lemma index_byte_none (c : ascii) (n : string) :
  strings.mem_ascii c n = false →
  String.index 0 (String c EmptyString) n = None.
Proof.
  induction n as [|a n IH]; intros Hn; [done|].
  cbn [strings.mem_ascii] in Hn.
  destruct (Ascii.eqb c a) eqn:E; [done|]. apply Ascii.eqb_neq in E.
  cbn [String.index String.prefix].
  destruct (ascii_dec c a); [done|]. by rewrite IH.
Qed.

Lemma substring_whole (s : string) : String.substring 0 (String.length s) s = s.
Proof. induction s as [|a s IH]; [done|]. simpl. by rewrite IH. Qed.

Lemma substring_front (n r : string) :
  String.substring 0 (String.length n) (n +:+ r) = n.
Proof.
  induction n as [|a n IH]; [by destruct r|].
  rewrite append_String. simpl. by rewrite IH.
Qed.

Lemma substring_back (n r : string) (m : nat) :
  String.substring (String.length n) m (n +:+ r) = String.substring 0 m r.
Proof. induction n as [|a n IH]; [done|]. rewrite append_String. simpl. by rewrite IH. Qed.

Lemma length_append (a b : string) :
  String.length (a +:+ b) = String.length a + String.length b.
Proof. induction a as [|c a IH]; [done|]. rewrite append_String. simpl. by rewrite IH. Qed.

Lemma TrimLeft_not_dash (s : string) :
  strings.HasPrefix s "-" = false → strings.TrimLeft s "-" = s.
Proof.
  destruct s as [|a s]; [done|]. unfold strings.HasPrefix.
  cbn [String.prefix strings.TrimLeft strings.mem_ascii].
  destruct (ascii_dec "-" a) as [<-|Hne]; [by destruct s|]. intros _.
  destruct (Ascii.eqb a "-") eqn:E; [|done].
  apply Ascii.eqb_eq in E. congruence.
Qed.

Lemma TrimLeft_dashes_then (d s : string) :
  only_dashes d = true → strings.TrimLeft (d +:+ s) "-" = strings.TrimLeft s "-".
Proof.
  induction d as [|a d IH]; [done|]. cbn [only_dashes]. intros Hd.
  apply andb_true_iff in Hd as [Ha Hd].
  rewrite append_String. cbn [strings.TrimLeft strings.mem_ascii]. rewrite Ha.
  by apply IH.
Qed.

Lemma HasPrefix_dash_append (n r : string) (c : ascii) :
  c ≠ "-"%char → strings.HasPrefix n "-" = false →
  strings.HasPrefix (n +:+ String c r) "-" = false.
Proof.
  intros Hc. destruct n as [|a n].
  2:{ rewrite append_String. unfold strings.HasPrefix. cbn [String.prefix].
      destruct (ascii_dec "-" a); [by destruct n | done]. }
  intros _. rewrite append_empty. unfold strings.HasPrefix. cbn [String.prefix].
  destruct (ascii_dec "-" c); [congruence | done].
Qed.

Lemma flag_with_value (d n v : string) :
  only_dashes d = true →
  strings.HasPrefix n "-" = false →
  strings.mem_ascii "=" n = false →
  flag_name (d +:+ n +:+ "=" +:+ v) = n
  ∧ flag_value (d +:+ n +:+ "=" +:+ v) = v.
Proof.
  intros Hd Hn Heq.
  assert (Ht : strings.TrimLeft (d +:+ n +:+ "=" +:+ v) "-" = n +:+ "=" +:+ v).
  { rewrite TrimLeft_dashes_then by done. apply TrimLeft_not_dash.
    by apply HasPrefix_dash_append. }
  unfold flag_name, flag_value. cbv zeta. rewrite Ht.
  unfold strings.Index.
  change ("=" +:+ v) with (String "=" v).
  rewrite (index_byte_first "=" n v Heq).
  assert ((Z.of_nat (String.length n) =? -1)%Z = false) as ->
    by (apply Z.eqb_neq; lia).
  unfold strings.upto, strings.after. rewrite Nat2Z.id.
  split.
  - apply substring_front.
  - rewrite length_append. cbn [String.length].
    replace (String.length n + 1) with (String.length (n +:+ "=")).
    + change (n +:+ String "=" v) with (n +:+ ("=" +:+ v)).
      replace (n +:+ ("=" +:+ v)) with ((n +:+ "=") +:+ v).
      * rewrite substring_back.
        replace (String.length n + S (String.length v) - String.length (n +:+ "="))
          with (String.length v) by (rewrite length_append; simpl; lia).
        apply substring_whole.
      * clear. induction n as [|a n IH]; [done|].
        rewrite !append_String. by rewrite IH.
    + rewrite length_append. simpl. lia.
Qed.

Lemma flag_without_value (d n : string) :
  only_dashes d = true →
  strings.HasPrefix n "-" = false →
  strings.mem_ascii "=" n = false →
  flag_name (d +:+ n) = n ∧ flag_value (d +:+ n) = "".
Proof.
  intros Hd Hn Heq.
  assert (Ht : strings.TrimLeft (d +:+ n) "-" = n).
  { rewrite TrimLeft_dashes_then by done. by apply TrimLeft_not_dash. }
  unfold flag_name, flag_value. cbv zeta. rewrite Ht.
  unfold strings.Index. by rewrite (index_byte_none "=" n Heq).
Qed.

(** X2.  A flag token made of dashes, a name that holds no equals sign
    and does not start with a dash, an equals sign and a text is split
    into that name and that text, the text being cut at the first equals
    sign only; without the equals sign the name is what follows the
    dashes and the inline value is empty. *)
Theorem flag_token_split (d n v : string) :
  only_dashes d = true →
  strings.HasPrefix n "-" = false →
  strings.mem_ascii "=" n = false →
  flag_name (d +:+ n +:+ "=" +:+ v) = n
  ∧ flag_value (d +:+ n +:+ "=" +:+ v) = v
  ∧ flag_name (d +:+ n) = n
  ∧ flag_value (d +:+ n) = "".
Proof.
  intros Hd Hn Heq.
  destruct (flag_with_value d n v Hd Hn Heq) as [? ?].
  destruct (flag_without_value d n Hd Hn Heq) as [? ?].
  done.
Qed.

(** ["--foo=a=b"]: the name is [foo], the value [a=b]. *)
Lemma flag_token_split_witness :
  flag_name "--foo=a=b" = "foo" ∧ flag_value "--foo=a=b" = "a=b"
  ∧ flag_name "--foo" = "foo" ∧ flag_value "--foo" = "".
Proof.
  apply (flag_token_split "--" "foo" "a=b"); reflexivity.
Defined.

(** ** [findOption] and [findSubcommand] *)

(** X3.  [findOption] returns the first spec of the list that is not
    positional and has the name as its long or short name; the specs
    before it do not answer to the name.  It returns nil exactly when
    no spec of the list answers. *)
Theorem findOption_first_match (l : list specptr) (nm : string) :
  match findOption l nm with
  | Some sp =>
      ∃ pre post, l = pre ++ sp :: post ∧ answers sp nm = true
                  ∧ Forall (fun q => answers q nm = false) pre
  | None => Forall (fun q => answers q nm = false) l
  end.
Proof.
  induction l as [|q l IH]; [by constructor|].
  cbn [findOption]. unfold answers at 1 3.
  destruct (positional (pointee q)) eqn:Hp.
  - destruct (findOption l nm) as [sp|].
    + destruct IH as (pre & post & -> & Ha & Hpre).
      exists (q :: pre), post. repeat split; [done|].
      constructor; [|done]. unfold answers. by rewrite Hp.
    + constructor; [|done]. unfold answers. by rewrite Hp.
  - destruct (String.eqb (long (pointee q)) nm || String.eqb (short (pointee q)) nm)
      eqn:Hm.
    + exists [], l. repeat split; [|by constructor].
      unfold answers. by rewrite Hp, Hm.
    + destruct (findOption l nm) as [sp|].
      * destruct IH as (pre & post & -> & Ha & Hpre).
        exists (q :: pre), post. repeat split; [done|].
        constructor; [|done]. unfold answers. by rewrite Hp, Hm.
      * constructor; [|done]. unfold answers. by rewrite Hp, Hm.
Qed.

(** X4.  [findSubcommand] returns the first command of the list that
    has the name, and nil exactly when no command of the list has it. *)
Theorem findSubcommand_first_match (l : list command) (nm : string) :
  match findSubcommand l nm with
  | Some c =>
      ∃ pre post, l = pre ++ c :: post ∧ name c = nm
                  ∧ Forall (fun q => name q ≠ nm) pre
  | None => Forall (fun q => name q ≠ nm) l
  end.
Proof.
  induction l as [|q l IH]; [by constructor|].
  cbn [findSubcommand].
  destruct (String.eqb (name q) nm) eqn:E.
  - apply String.eqb_eq in E. exists [], l. repeat split; [done|by constructor].
  - apply String.eqb_neq in E.
    destruct (findSubcommand l nm) as [c|].
    + destruct IH as (pre & post & -> & Ha & Hpre).
      exists (q :: pre), post. repeat split; [done|]. by constructor.
    + by constructor.
Qed.

(** X5.  A flag token whose name part is empty, such as [--=v], is not
    refused: it is resolved to the first option of the list that has no
    short name, since the empty name equals the short name that was
    never set. *)
Theorem findOption_empty_name (pre post : list specptr) (sp : specptr)
    (d v : string) :
  only_dashes d = true →
  Forall (fun q => answers q "" = false) pre →
  positional (pointee sp) = false →
  short (pointee sp) = "" →
  isFlag (String "-" d +:+ "=" +:+ v) = true
  ∧ findOption (pre ++ sp :: post) (flag_name (String "-" d +:+ "=" +:+ v)) = Some sp
  ∧ flag_value (String "-" d +:+ "=" +:+ v) = v.
Proof.
  intros Hd Hpre Hp Hs.
  assert (Hd' : only_dashes (String "-" d) = true) by done.
  destruct (flag_with_value (String "-" d) "" v Hd' eq_refl eq_refl)
    as (Hn & Hv).
  rewrite append_empty in Hn, Hv. split; [|split; [|done]].
  - unfold isFlag.
    rewrite (TrimLeft_dashes_then (String "-" d) ("=" +:+ v) Hd').
    rewrite append_String. change ("=" +:+ v) with (String "=" v).
    by destruct (d +:+ String "=" v).
  - rewrite Hn. induction Hpre as [|q pre Hq Hpre IH]; simpl.
    + rewrite Hp, Hs. by rewrite orb_true_r.
    + unfold answers in Hq. destruct (positional (pointee q)); [done|].
      simpl in Hq. by rewrite Hq.
Qed.

Lemma findOption_empty_name_witness :
  isFlag "--=5" = true
  ∧ findOption (specs (cmd Sample.copy)) (flag_name "--=5")
    = Some (Sample.copy_spec "Name")
  ∧ flag_value "--=5" = "5".
Proof.
  assert (E : specs (cmd Sample.copy)
              = take 3 (specs (cmd Sample.copy))
                ++ Sample.copy_spec "Name" :: drop 4 (specs (cmd Sample.copy)))
    by (vm_compute; reflexivity).
  rewrite E at 1.
  apply (findOption_empty_name
           (take 3 (specs (cmd Sample.copy))) (drop 4 (specs (cmd Sample.copy)))
           (Sample.copy_spec "Name") "-" "5").
  - reflexivity.
  - vm_compute. repeat constructor.
  - reflexivity.
  - reflexivity.
Defined.

(** ** Paths *)

Lemma append_assoc (a b c : string) : (a +:+ b) +:+ c = a +:+ (b +:+ c).
Proof.
  induction a as [|x a IH]; [done|]. rewrite !append_String. by rewrite IH.
Qed.

Lemma concat_snoc (sep a f : string) (l : list string) :
  String.concat sep ((a :: l) ++ [f]) = String.concat sep (a :: l) +:+ sep +:+ f.
Proof.
  revert a. induction l as [|b l IH]; intros a; [done|].
  change (String.concat sep ((a :: b :: l) ++ [f]))
    with (a +:+ sep +:+ String.concat sep ((b :: l) ++ [f])).
  change (String.concat sep (a :: b :: l))
    with (a +:+ sep +:+ String.concat sep (b :: l)).
  rewrite IH. by rewrite !append_assoc.
Qed.

(** X6.  The text of a child path is the text of the path it was made
    from, a dot, and the name of the child; the root stays the same. *)
Theorem path_String_Child (p : path) (child : string) :
  path_String (Child p child) = path_String p +:+ "." +:+ child
  ∧ root (Child p child) = root p.
Proof.
  split; [|done]. destruct p as [r fs]. unfold path_String, Child. simpl.
  destruct fs as [|a fs]; [done|].
  change ((a :: fs) ++ [child]) with (a :: fs ++ [child]).
  destruct (fs ++ [child]) as [|b l] eqn:E.
  { by destruct fs. }
  rewrite <- E. unfold strings.Join.
  change (a :: fs ++ [child]) with ((a :: fs) ++ [child]).
  rewrite concat_snoc. by rewrite append_assoc.
Qed.

(** ** The loop over the arguments after a double dash *)

Section AfterDoubleDash.
Context `{External}.
Variable environ : gmap string string.

Lemma loop_all_positional fuel : ∀ args i st,
  allpositional st = true →
  subcommands (curCmd st) = [] →
  length args - i <= fuel →
  loop environ fuel args i st
  = (with_positionals st
       (positionals st
        ++ List.filter (fun a => negb (String.eqb a "--")) (drop i args)),
     Go tt).
Proof.
  induction fuel as [|fuel IH]; intros args i st Hall Hsub Hf.
  - rewrite loop_end by lia. rewrite drop_ge by lia. simpl.
    rewrite app_nil_r. by destruct st.
  - destruct (decide (i < length args)) as [Hi|Hi].
    2:{ rewrite loop_end by lia. rewrite drop_ge by lia. simpl.
        rewrite app_nil_r. by destruct st. }
    destruct (lookup_lt_is_Some_2 args i Hi) as [arg Harg].
    rewrite (drop_S _ _ _ Harg). cbn [List.filter].
    destruct (String.eqb arg "--") eqn:Edd.
    + erewrite loop_go; [| done |].
      2:{ unfold step. rewrite Harg, Edd. reflexivity. }
      rewrite IH; [| done | done | lia]. simpl.
      replace (i + 1) with (S i) by lia.
      destruct st. simpl in *. by subst.
    + erewrite loop_go; [| done |].
      2:{ unfold step. rewrite Harg, Edd, Hall, orb_true_r, Hsub. reflexivity. }
      rewrite IH; [| done | done | simpl; lia]. simpl.
      replace (i + 1) with (S i) by lia.
      unfold with_positionals. simpl. by rewrite <- app_assoc.
Qed.

End AfterDoubleDash.

(** X7.  From a double dash on, at a command without subcommands, no
    token is read as a flag: every later token, [-h] and [--help]
    included, is put behind the positionals in order, except further
    double dashes, which are dropped.  Nothing else of the state moves. *)
Theorem after_double_dash `{External} (environ : gmap string string)
    (args : list string) (i : nat) (st : session) :
  args !! i = Some "--" →
  subcommands (curCmd st) = [] →
  loop environ (length args) args i st
  = (mkSession (parser st) (wasPresent st) (curCmd st) (active st) true
       (positionals st
        ++ List.filter (fun a => negb (String.eqb a "--")) (drop (S i) args)),
     Go tt).
Proof.
  intros Harg Hsub.
  pose proof (lookup_lt_Some _ _ _ Harg) as Hi.
  destruct (length args) as [|n] eqn:En; [lia|].
  erewrite loop_go; [| lia |].
  2:{ unfold step. rewrite Harg. reflexivity. }
  rewrite loop_all_positional; [| done | done | simpl; lia].
  by replace (i + 1) with (S i) by lia.
Qed.

(** ["a", "--", "-b", "--", "--help"] from the double dash on. *)
Lemma after_double_dash_witness :
  positionals
    (fst (loop (H := Plain.runtime) ∅ 5 ["a"; "--"; "-b"; "--"; "--help"] 1
               (start Sample.copy)))
  = ["-b"; "--help"].
Proof.
  pose proof (after_double_dash (H := Plain.runtime) ∅
                ["a"; "--"; "-b"; "--"; "--help"] 1 (start Sample.copy)
                eq_refl ltac:(vm_compute; reflexivity)) as W.
  change (length ["a"; "--"; "-b"; "--"; "--help"]) with 5 in W.
  rewrite W. vm_compute. reflexivity.
Defined.

(** ** Handing out the positionals *)

Section Positionals.
Context `{External}.

Lemma parseValue_at_positionals st d s :
  positionals (fst (parseValue_at st d s)) = positionals st.
Proof.
  unfold parseValue_at. destruct (val _ d) as [| |v]; try done.
  by destruct (parseValue true true v s).
Qed.

Lemma setSlice_at_positionals st d values trunc :
  positionals (fst (setSlice_at st d values trunc)) = positionals st.
Proof.
  unfold setSlice_at. destruct (setSlice _ values trunc) as [r c]. simpl.
  by destruct r.
Qed.

End Positionals.

(** X8.  When the specs hold a positional that takes multiple values
    and the positionals are handed out without error, none is left
    over: with such a spec in scope the "too many positional arguments"
    error cannot follow. *)
Theorem multiple_positional_takes_all `{External} (l : list specptr)
    (st st' : session) :
  Exists (fun sp => positional (pointee sp) = true
                    ∧ multiple (pointee sp) = true) l →
  process_positionals l st = (st', Go tt) →
  positionals st' = [].
Proof.
  revert st st'. induction l as [|sp l IH]; intros st st' Hex; [by inversion Hex|].
  cbn [process_positionals]. cbv zeta.
  destruct (positional (pointee sp)) eqn:Hp; simpl.
  2:{ apply IH. inversion Hex as [? ? [Hc _]|]; [congruence | done]. }
  destruct (positionals st) as [|first others] eqn:Hpos.
  { by intros [= <-]. }
  destruct (multiple (pointee sp)) eqn:Hm.
  - destruct (setSlice_at _ _ _ _) as [st2 [[]|e| |]]; try done.
    by rewrite process_positionals_none; [intros [= <-]|].
  - destruct (parseValue_at _ _ _) as [st2 [[]|e| |]]; try done.
    apply IH. inversion Hex as [? ? [_ Hc]|]; [congruence | done].
Qed.

(** [cp a b c]: [Input] takes the first, [Output] all the others. *)
Lemma multiple_positional_takes_all_witness :
  positionals
    (fst (process_positionals (H := Plain.runtime) (specs (cmd Sample.copy))
            (with_positionals (start Sample.copy) ["a"; "b"; "c"])))
  = [].
Proof.
  apply (multiple_positional_takes_all (H := Plain.runtime)
           (specs (cmd Sample.copy))
           (with_positionals (start Sample.copy) ["a"; "b"; "c"])).
  - vm_compute. apply Exists_cons_tl, Exists_cons_hd. by split.
  - vm_compute. reflexivity.
Defined.

(** X9.  When no positional spec takes multiple values and the
    positionals are handed out without error, each positional spec took
    one token in the order of the specs: what is left over is the
    tokens behind as many as there are positional specs. *)
Theorem single_positionals_take_one_each `{External} (l : list specptr)
    (st st' : session) :
  Forall (fun sp => positional (pointee sp) = true
                    → multiple (pointee sp) = false) l →
  process_positionals l st = (st', Go tt) →
  positionals st'
  = drop (length (List.filter (fun sp => positional (pointee sp)) l))
         (positionals st).
Proof.
  revert st st'. induction l as [|sp l IH]; intros st st' Hall.
  { by intros [= <-]. }
  apply Forall_cons in Hall as [Hsp Hall].
  cbn [process_positionals List.filter]. cbv zeta.
  destruct (positional (pointee sp)) eqn:Hp; simpl.
  2:{ by apply IH. }
  destruct (positionals st) as [|first others] eqn:Hpos.
  { intros [= <-]. by rewrite Hpos. }
  rewrite Hsp by done.
  pose proof (parseValue_at_positionals (mark_present st sp) (dest (pointee sp))
                first) as Hk.
  destruct (parseValue_at _ _ _) as [st2 [[]|e| |]]; try done.
  intros Hr. by rewrite (IH _ _ Hall Hr).
Qed.

(** The specs of [Input] and [Name] of the copy program with the
    tokens [a] and [b]: [Input] takes [a], [b] is left over. *)
Lemma single_positionals_take_one_each_witness :
  positionals
    (fst (process_positionals (H := Plain.runtime)
            [Sample.copy_spec "Input"; Sample.copy_spec "Name"]
            (with_positionals (start Sample.copy) ["a"; "b"])))
  = drop (length (List.filter (fun sp => positional (pointee sp))
                    [Sample.copy_spec "Input"; Sample.copy_spec "Name"]))
         ["a"; "b"].
Proof.
  apply (single_positionals_take_one_each (H := Plain.runtime)
           [Sample.copy_spec "Input"; Sample.copy_spec "Name"]
           (with_positionals (start Sample.copy) ["a"; "b"])).
  - vm_compute. repeat constructor.
  - vm_compute. reflexivity.
Defined.

(** X10.  The last loop of [process] reports the first spec of the
    list that is required and was not seen, positional specs under
    their name and options under their name after two dashes; it
    reports nothing exactly when every required spec was seen. *)
Theorem check_required_first_missing (l : list specptr) (st : session) :
  match check_required l st with
  | Some e =>
      ∃ pre sp post,
        l = pre ++ sp :: post
        ∧ required (pointee sp) = true ∧ present st sp = false
        ∧ Forall (fun q => required (pointee q) = true → present st q = true) pre
        ∧ e = Errorf (required_name (pointee sp) +:+ " is required")
  | None =>
      Forall (fun q => required (pointee q) = true → present st q = true) l
  end.
Proof.
  induction l as [|q l IH]; [by constructor|].
  cbn [check_required]. cbv zeta.
  destruct (required (pointee q)) eqn:Hr; simpl.
  - destruct (present st q) eqn:Hp; simpl.
    + destruct (check_required l st) as [e|].
      * destruct IH as (pre & sp & post & -> & ? & ? & ? & ->).
        exists (q :: pre), sp, post. repeat split; try done; by constructor.
      * by constructor.
    + exists [], q, l. repeat split; try done; by constructor.
  - destruct (check_required l st) as [e|].
    + destruct IH as (pre & sp & post & -> & ? & ? & ? & ->).
      exists (q :: pre), sp, post. repeat split; try done.
      constructor; [congruence | done].
    + constructor; [congruence | done].
Qed.

(** ** [setSlice] when a value is refused *)

Section SliceErrors.
Context `{External}.

Lemma setSlice_loop_refused e values items bad rest y err : ∀ acc,
  coerced e values items →
  parseValue true true (Zero e) bad = (y, Some err) →
  setSlice_loop e false acc (values ++ bad :: rest) = (acc ++ items, Some err).
Proof.
  intros acc Hc Hbad. revert acc.
  induction Hc as [|s x values items Hs Hc IH]; intros acc; simpl.
  - by rewrite Hbad, app_nil_r.
  - rewrite Hs, IH. by rewrite <- app_assoc.
Qed.

End SliceErrors.

(** X11.  [setSlice] stops at the first value that cannot be coerced
    and returns its error, but it does not undo what it did before:
    the slice was cut to length 0 when asked to, and it holds the
    values that came before the refused one.  When the very first
    value is refused, a slice with contents is left cut, or as it
    was. *)
Theorem setSlice_keeps_values_before_error `{External} (e : rtype)
    (l : option (list value)) (trunc : bool) (bad : string)
    (rest : list string) (y : value) (err : error) :
  Kind_eqb (Kind_of e) Ptr = false →
  parseValue true true (Zero e) bad = (y, Some err) →
  setSlice (RVal (VSlice e l)) (bad :: rest) trunc
  = (RVal (VSlice e (if trunc then truncated l else l)), Ret err)
  ∧ ∀ values x items,
      coerced e values (x :: items) →
      setSlice (RVal (VSlice e l)) (values ++ bad :: rest) trunc
      = (RVal (VSlice e (Some ((if trunc then [] else default [] l)
                               ++ x :: items))),
         Ret err).
Proof.
  intros Hk Hbad. split.
  - assert (Hc : coerced e [] []) by constructor.
    assert (Hl : ∀ acc, setSlice_loop e false acc (bad :: rest) = (acc, Some err)).
    { intros acc.
      pose proof (setSlice_loop_refused e [] [] bad rest y err acc Hc Hbad) as Hl.
      by rewrite app_nil_r in Hl. }
    unfold setSlice. rewrite Hk. cbn [andb]. rewrite Hl.
    destruct trunc, l as [xs|]; cbn; try done; by destruct xs.
  - intros values x items Hc. unfold setSlice. rewrite Hk. cbn [andb].
    rewrite (setSlice_loop_refused e values (x :: items) bad rest y err _ Hc Hbad).
    destruct trunc, l as [xs|]; cbn; try done; by destruct xs.
Qed.

(** A slice of integers holding [7], truncated, given ["1"; "x"; "3"]:
    it ends holding [1], and the error of ["x"] is returned. *)
Lemma setSlice_keeps_values_before_error_witness :
  setSlice (H := Plain.runtime)
    (RVal (VSlice Plain.tint (Some [Sample.int 7]))) ["1"; "x"; "3"] true
  = (RVal (VSlice Plain.tint (Some [Sample.int 1])),
     Ret (default ErrHelp
            (snd (parseValue (H := Plain.runtime) true true (Zero Plain.tint) "x")))).
Proof.
  exact (proj2 (setSlice_keeps_values_before_error (H := Plain.runtime)
                  Plain.tint (Some [Sample.int 7]) true "x" ["3"]
                  (fst (parseValue (H := Plain.runtime) true true
                                   (Zero Plain.tint) "x"))
                  (default ErrHelp
                     (snd (parseValue (H := Plain.runtime) true true
                                      (Zero Plain.tint) "x")))
                  eq_refl ltac:(vm_compute; reflexivity))
               ["1"] (Sample.int 1) []
               ltac:(repeat constructor)).
Defined.

(** ** [nextIsNumeric] and values that look like flags *)

Section Numeric.
Context `{External}.
Variable environ : gmap string string.

Lemma nextIsNumeric_strip (t : rtype) (s : string) :
  nextIsNumeric t s
  = is_numeric_kind (Kind_of (strip_ptr t))
    && bool_decide
         (snd (parseValue false false
                 (VPtr (strip_ptr t) (Some (Zero (strip_ptr t)))) s) = None).
Proof.
  induction t as [n k|e IH|e IH|n fs]; cbn [nextIsNumeric strip_ptr]; [|done| |].
  all: destruct (is_numeric_kind _); [|done].
  all: by destruct (parseValue false false _ s) as [v [err|]].
Qed.

End Numeric.

(** X12.  [nextIsNumeric] answers true exactly when the type, with
    the pointers around it taken off, is of a numeric kind and the
    token can be parsed as a fresh value of that type. *)
Theorem nextIsNumeric_iff `{External} (t : rtype) (s : string) :
  nextIsNumeric t s = true
  ↔ is_numeric_kind (Kind_of (strip_ptr t)) = true
    ∧ snd (parseValue false false
             (VPtr (strip_ptr t) (Some (Zero (strip_ptr t)))) s) = None.
Proof.
  rewrite nextIsNumeric_strip, andb_true_iff, bool_decide_eq_true. done.
Qed.

(** X13.  At a flag without inline value of an option that takes one
    value, is no boolean and is not of a numeric kind, a following
    token that looks like a flag is never taken as the value: the turn
    ends with the "missing value" error, the option already marked as
    seen. *)
Theorem flag_like_value_is_missing `{External} (environ : gmap string string)
    (st : session) (args : list string) (i : nat) (arg nxt : string)
    (sp : specptr) :
  flag_at st args i arg sp →
  flag_value arg = "" →
  multiple (pointee sp) = false →
  boolean (pointee sp) = false →
  is_numeric_kind (Kind_of (strip_ptr (typ (pointee sp)))) = false →
  args !! (i + 1) = Some nxt →
  isFlag nxt = true →
  step environ args i st
  = (mark_present st sp, Ret (Errorf ("missing value for " +:+ arg))).
Proof.
  intros Hat Hv Hm Hb Hk Hn Hf.
  rewrite (step_flag environ _ _ _ _ _ Hat), Hv.
  unfold option_. rewrite Hm, Hb. cbn [andb String.eqb]. rewrite Hn.
  rewrite nextIsNumeric_strip, Hk, Hf. reflexivity.
Qed.

(** [cp --name -x]: the string option [Name] does not take [-x]. *)
Lemma flag_like_value_is_missing_witness :
  step (H := Plain.runtime) ∅ ["--name"; "-x"] 0 (start Sample.copy)
  = (mark_present (start Sample.copy) (Sample.copy_spec "Name"),
     Ret (Errorf ("missing value for " +:+ "--name"))).
Proof.
  apply (flag_like_value_is_missing (H := Plain.runtime) ∅ (start Sample.copy)
           ["--name"; "-x"] 0 "--name" "-x" (Sample.copy_spec "Name"));
    try (vm_compute; reflexivity).
  repeat split; try (vm_compute; reflexivity); discriminate.
Defined.

(** ** [canParse] on slices *)

(** X14.  For an element type that can be parsed, a slice of it and a
    pointer to a slice of it are parseable and take multiple values,
    unless the slice type, or the pointer type, is parseable as it is;
    so does a slice of pointers to it. *)
Theorem canParse_slices `{External} (e : rtype) :
  canParseWrapped e = true →
  (canParseWrapped (TSlice e) = false →
   canParse (TSlice e) = (true, isBoolean e, true))
  ∧ (canParseWrapped (TPtr (TSlice e)) = false →
     canParse (TPtr (TSlice e)) = (true, isBoolean e, true))
  ∧ (canParseWrapped (TSlice (TPtr e)) = false →
     fst (fst (canParse (TSlice (TPtr e)))) = true
     ∧ snd (canParse (TSlice (TPtr e))) = true).
Proof.
  intros He. split; [|split]; intros Hs; unfold canParse; rewrite Hs; cbv zeta.
  - change (unwrap Ptr (TSlice e)) with (TSlice e).
    change (unwrap Slice (TSlice e)) with e.
    change (Kind_eqb (Kind_of (TSlice e)) Slice) with true.
    by rewrite He.
  - change (unwrap Ptr (TPtr (TSlice e))) with (TSlice e).
    change (unwrap Slice (TSlice e)) with e.
    change (Kind_eqb (Kind_of (TSlice e)) Slice) with true.
    by rewrite He.
  - change (unwrap Ptr (TSlice (TPtr e))) with (TSlice (TPtr e)).
    change (unwrap Slice (TSlice (TPtr e))) with (TPtr e).
    change (unwrap Ptr (TPtr e)) with e.
    change (Kind_eqb (Kind_of (TSlice (TPtr e))) Slice) with true.
    destruct (canParseWrapped (TPtr e)); [done|]. by rewrite He.
Qed.

Lemma canParse_slices_witness :
  canParse (H := Plain.runtime) (TSlice Plain.tint) = (true, false, true)
  ∧ canParse (H := Plain.runtime) (TPtr (TSlice Plain.tint)) = (true, false, true).
Proof.
  destruct (canParse_slices (H := Plain.runtime) Plain.tint eq_refl)
    as (H1 & H2 & _).
  split; [exact (H1 eq_refl) | exact (H2 eq_refl)].
Defined.

(** X15.  A slice of slices is not parseable, whatever the element
    type, unless the type itself or its element type is parseable as it
    is: only one level of slice is looked into. *)
Theorem canParse_slice_of_slices `{External} (e : rtype) :
  canParseWrapped (TSlice (TSlice e)) = false →
  canParseWrapped (TSlice e) = false →
  canParse (TSlice (TSlice e)) = (false, false, false).
Proof.
  intros H2 H1. unfold canParse. rewrite H2. cbv zeta.
  change (unwrap Ptr (TSlice (TSlice e))) with (TSlice (TSlice e)).
  change (unwrap Slice (TSlice (TSlice e))) with (TSlice e).
  change (unwrap Ptr (TSlice e)) with (TSlice e).
  by rewrite H1.
Qed.

Lemma canParse_slice_of_slices_witness :
  canParse (H := Plain.runtime) (TSlice (TSlice Plain.tint)) = (false, false, false).
Proof.
  exact (canParse_slice_of_slices (H := Plain.runtime) Plain.tint eq_refl eq_refl).
Defined.

(** ** What the loop keeps *)

Section Kept.
Context `{External}.
Variable environ : gmap string string.

Lemma put_active st d r : active (put st d r) = active st.
Proof. by destruct r. Qed.

Lemma parseValue_at_active st d s :
  active (fst (parseValue_at st d s)) = active st.
Proof.
  unfold parseValue_at. destruct (val _ d) as [| |v]; try done.
  by destruct (parseValue true true v s).
Qed.

Lemma setSlice_at_active st d values trunc :
  active (fst (setSlice_at st d values trunc)) = active st.
Proof.
  unfold setSlice_at. destruct (setSlice _ values trunc) as [r c]. simpl.
  apply put_active.
Qed.

Lemma captureEnvVars_active l : ∀ st,
  active (fst (captureEnvVars environ l st)) = active st.
Proof.
  induction l as [|s l IH]; intros st; simpl; [done|].
  destruct (String.eqb (env (pointee s)) ""); [by apply IH|].
  destruct (environ !! env (pointee s)) as [value|]; [|by apply IH].
  destruct (multiple (pointee s)).
  - destruct (csv_Read value) as [values|err]; [|done].
    pose proof (setSlice_at_active st (dest (pointee s)) values
                  (negb (separate (pointee s)))) as Ha.
    destruct (setSlice_at _ _ _ _) as [st1 [[]|e| |]]; simpl in *; try done.
    by rewrite IH.
  - pose proof (parseValue_at_active st (dest (pointee s)) value) as Ha.
    destruct (parseValue_at _ _ _) as [st1 [[]|e| |]]; simpl in *; try done.
    by rewrite IH.
Qed.

Lemma option_active args i arg value sp st :
  active (fst (option_ args i arg value sp st)) = active st.
Proof.
  unfold option_. destruct (multiple (pointee sp)).
  - pose proof (setSlice_at_active (mark_present st sp) (dest (pointee sp))
                  (if String.eqb value ""
                   then collect (separate (pointee sp)) (drop (i + 1) args)
                   else [value])
                  (negb (separate (pointee sp)))) as Ha.
    by destruct (setSlice_at _ _ _ _) as [st1 [[]|e| |]].
  - match goal with
    | |- context [match ?nv with Go _ => _ | Ret _ => _ | Pan => _
                  | OutOfFuel => _ end] => destruct nv as [[v2 i']|e| |]
    end; try done.
    pose proof (parseValue_at_active (mark_present st sp) (dest (pointee sp)) v2)
      as Ha.
    by destruct (parseValue_at _ _ _) as [st1 [[]|e| |]].
Qed.

Lemma enter_active subcmd st :
  active st `prefix_of` active (fst (enter environ subcmd st)).
Proof.
  unfold enter. destruct (val _ _) as [| |[]]; try done.
  match goal with
  | |- context [captureEnvVars environ ?l ?s] =>
      pose proof (captureEnvVars_active l s) as Ha;
      destruct (captureEnvVars environ l s) as [st3 [[]|e| |]]
  end; simpl in *; rewrite Ha; by apply prefix_app_r.
Qed.

Lemma step_active args i st :
  active st `prefix_of` active (fst (step environ args i st)).
Proof.
  unfold step. destruct (args !! i) as [arg|]; [|done].
  destruct (String.eqb arg "--"); [done|].
  destruct (negb (isFlag arg) || allpositional st).
  - destruct (length (subcommands (curCmd st)) =? 0); [done|].
    destruct (findSubcommand _ arg) as [subcmd|]; [|done].
    pose proof (enter_active subcmd st) as Ha.
    by destruct (enter environ subcmd st) as [st' [[]|e| |]].
  - destruct (String.eqb arg "-h" || String.eqb arg "--help"); [done|].
    destruct (String.eqb arg "--version"); [done|].
    destruct (findOption _ _) as [sp|]; [|done].
    by rewrite option_active.
Qed.

Lemma loop_active fuel : ∀ args i st,
  active st `prefix_of` active (fst (loop environ fuel args i st)).
Proof.
  induction fuel as [|fuel IH]; intros args i st; simpl.
  - by destruct (i <? length args).
  - destruct (i <? length args); [|done].
    pose proof (step_active args i st) as Hs.
    destruct (step environ args i st) as [st' [i'|e| |]]; simpl in *; try done.
    etrans; [exact Hs | apply IH].
Qed.

Lemma findOption_app l more nm sp :
  findOption l nm = Some sp → findOption (l ++ more) nm = Some sp.
Proof.
  induction l as [|q l IH]; [done|]. simpl.
  destruct (positional (pointee q)); [done|].
  by destruct (String.eqb (long (pointee q)) nm || String.eqb (short (pointee q)) nm).
Qed.

(** Marks are never taken back. *)
Lemma put_present st d r sp : present (put st d r) sp = present st sp.
Proof. by destruct r. Qed.

Lemma option_keeps args i arg value q st sp :
  present st sp = true →
  present (fst (option_ args i arg value q st)) sp = true.
Proof.
  intros Hp. apply (present_mark_other _ _ q) in Hp.
  unfold option_. destruct (multiple (pointee q)).
  - pose proof (setSlice_at_present (mark_present st q) (dest (pointee q))
                  (if String.eqb value ""
                   then collect (separate (pointee q)) (drop (i + 1) args)
                   else [value])
                  (negb (separate (pointee q))) sp) as Ha.
    destruct (setSlice_at _ _ _ _) as [st1 [[]|e| |]]; simpl in *; congruence.
  - match goal with
    | |- context [match ?nv with Go _ => _ | Ret _ => _ | Pan => _
                  | OutOfFuel => _ end] => destruct nv as [[v2 i']|e| |]
    end; try done.
    pose proof (parseValue_at_present (mark_present st q) (dest (pointee q)) v2 sp)
      as Ha.
    destruct (parseValue_at _ _ _) as [st1 [[]|e| |]]; simpl in *; congruence.
Qed.

Lemma enter_keeps subcmd st sp :
  present st sp = true → present (fst (enter environ subcmd st)) sp = true.
Proof.
  intros Hp. unfold enter. destruct (val _ _) as [| |[]]; try done.
  match goal with
  | |- context [captureEnvVars environ ?l ?s] =>
      pose proof (captureEnvVars_keeps environ l sp s) as Ha;
      destruct (captureEnvVars environ l s) as [st3 [[]|e| |]]
  end; simpl in *; apply Ha; by rewrite <- Hp.
Qed.

Lemma step_keeps args i st sp :
  present st sp = true → present (fst (step environ args i st)) sp = true.
Proof.
  intros Hp. unfold step. destruct (args !! i) as [arg|]; [|done].
  destruct (String.eqb arg "--"); [done|].
  destruct (negb (isFlag arg) || allpositional st).
  - destruct (length (subcommands (curCmd st)) =? 0); [done|].
    destruct (findSubcommand _ arg) as [subcmd|]; [|done].
    pose proof (enter_keeps subcmd st sp Hp) as Ha.
    by destruct (enter environ subcmd st) as [st' [[]|e| |]].
  - destruct (String.eqb arg "-h" || String.eqb arg "--help"); [done|].
    destruct (String.eqb arg "--version"); [done|].
    destruct (findOption _ _) as [q|]; [|done].
    by apply option_keeps.
Qed.

End Kept.

(** X16.  While the arguments are walked, the list of specs in scope
    only grows at its end, so the name of an option that was in scope
    keeps resolving to the same spec: an option of a subcommand entered
    later that bears the same name is shadowed. *)
Theorem outer_option_shadows `{External} (environ : gmap string string)
    (fuel : nat) (args : list string) (i : nat) (st : session)
    (nm : string) (sp : specptr) :
  findOption (active st) nm = Some sp →
  findOption (active (fst (loop environ fuel args i st))) nm = Some sp.
Proof.
  intros Hf. destruct (loop_active environ fuel args i st) as [more ->].
  by apply findOption_app.
Qed.

(** [prog serve] : [--count] still resolves to the option of the
    top-level command after [serve] was entered. *)
Lemma outer_option_shadows_witness :
  findOption
    (active (fst (loop (H := Plain.runtime) ∅ 1 ["serve"] 0 (start Sample.program))))
    "count"
  = Some (Sample.spec_named "count").
Proof.
  apply (outer_option_shadows (H := Plain.runtime) ∅ 1 ["serve"] 0
           (start Sample.program) "count" (Sample.spec_named "count")).
  vm_compute. reflexivity.
Defined.

(** X17.  A spec that was seen, from the environment or from an
    earlier token, stays seen through every later turn of the loop,
    whether the loop ends well or with an error. *)
Theorem seen_stays_seen `{External} (environ : gmap string string)
    (fuel : nat) (args : list string) (i : nat) (st : session)
    (sp : specptr) :
  present st sp = true →
  present (fst (loop environ fuel args i st)) sp = true.
Proof.
  revert args i st. induction fuel as [|fuel IH]; intros args i st Hp; simpl.
  - by destruct (i <? length args).
  - destruct (i <? length args); [|done].
    pose proof (step_keeps environ args i st sp Hp) as Hs.
    destruct (step environ args i st) as [st' [i'|e| |]]; simpl in *; try done.
    by apply IH.
Qed.

Lemma seen_stays_seen_witness :
  present
    (fst (loop (H := Plain.runtime) ∅ 2 ["--count"; "x"] 0
            (mark_present (start Sample.program) (Sample.spec_named "names"))))
    (Sample.spec_named "names")
  = true.
Proof.
  apply (seen_stays_seen (H := Plain.runtime) ∅ 2 ["--count"; "x"] 0
           (mark_present (start Sample.program) (Sample.spec_named "names"))
           (Sample.spec_named "names")).
  vm_compute. reflexivity.
Defined.

(** ** [process] on the first token, and on no token *)

Section FirstToken.
Context `{External}.
Variable environ : gmap string string.

Lemma check_required_unseen l st :
  wasPresent st = ∅ →
  check_required l st
  = match List.find (fun sp => required (pointee sp)) l with
    | Some sp => Some (Errorf (required_name (pointee sp) +:+ " is required"))
    | None => None
    end.
Proof.
  intros Hw. induction l as [|sp l IH]; [done|]. simpl.
  unfold present. rewrite Hw, lookup_empty. simpl.
  destruct (required (pointee sp)); [done | exact IH].
Qed.

Lemma process_first_error p arg rest e :
  env_unset environ (specs (cmd p)) = true →
  step environ (arg :: rest) 0 (start p) = (start p, Ret e) →
  process environ p (arg :: rest)
  = (mkParser (cmd p) (roots p) (Some (cmd p)), Ret e).
Proof.
  intros Hu Hs. unfold process.
  change (active (start p)) with (specs (cmd p)).
  rewrite captureEnvVars_unset by done.
  unfold process_args. cbn [length].
  rewrite (loop_ret environ (length rest) (arg :: rest) 0 (start p) (start p) e);
    [done | simpl; lia | done].
Qed.

End FirstToken.

(** X18.  With no arguments and none of the environment variables
    set, [process] stores nothing: it returns the error of the first
    required spec of the top-level command, or nil when there is
    none. *)
Theorem process_no_arguments `{External} (environ : gmap string string)
    (p : Parser) :
  env_unset environ (specs (cmd p)) = true →
  process environ p []
  = (mkParser (cmd p) (roots p) (Some (cmd p)),
     match List.find (fun sp => required (pointee sp)) (specs (cmd p)) with
     | Some sp => Ret (Errorf (required_name (pointee sp) +:+ " is required"))
     | None => Go tt
     end).
Proof.
  intros Hu. unfold process.
  change (active (start p)) with (specs (cmd p)).
  rewrite captureEnvVars_unset by done.
  unfold process_args. rewrite loop_end by (simpl; lia).
  rewrite process_positionals_none by done.
  change (positionals (start p)) with (@nil string). cbv iota.
  rewrite check_required_unseen by done.
  change (active (start p)) with (specs (cmd p)).
  by destruct (List.find _ _).
Qed.

(** [cp] alone: [input is required]. *)
Lemma process_no_arguments_witness :
  process (H := Plain.runtime) ∅ Sample.copy []
  = (mkParser (cmd Sample.copy) (roots Sample.copy) (Some (cmd Sample.copy)),
     Ret (Errorf "input is required")).
Proof.
  rewrite (process_no_arguments (H := Plain.runtime) ∅ Sample.copy);
    vm_compute; reflexivity.
Defined.

(** X19.  When the first token is a flag whose name no option of the
    top-level command bears, [process] returns "unknown argument" with
    the whole token, whatever follows: an option of a subcommand is not
    known before the subcommand is named. *)
Theorem unknown_option_first `{External} (environ : gmap string string)
    (p : Parser) (arg : string) (rest : list string) :
  env_unset environ (specs (cmd p)) = true →
  isFlag arg = true →
  arg ≠ "-h" → arg ≠ "--help" → arg ≠ "--version" →
  findOption (specs (cmd p)) (flag_name arg) = None →
  process environ p (arg :: rest)
  = (mkParser (cmd p) (roots p) (Some (cmd p)),
     Ret (Errorf ("unknown argument " +:+ arg))).
Proof.
  intros Hu Hf Hh Hhelp Hv Hno. apply process_first_error; [done|].
  unfold step. cbn [lookup list_lookup].
  destruct (String.eqb arg "--") eqn:Edd.
  { apply String.eqb_eq in Edd. by subst. }
  apply String.eqb_neq in Hh, Hhelp, Hv.
  rewrite Hf, Hh, Hhelp, Hv. cbn [negb orb allpositional start].
  change (active (start p)) with (specs (cmd p)). by rewrite Hno.
Qed.

(** [prog --port 80]: [port] is an option of [serve]. *)
Lemma unknown_option_first_witness :
  process (H := Plain.runtime) ∅ Sample.program ["--port"; "80"]
  = (mkParser (cmd Sample.program) (roots Sample.program)
              (Some (cmd Sample.program)),
     Ret (Errorf ("unknown argument " +:+ "--port"))).
Proof.
  apply (unknown_option_first (H := Plain.runtime) ∅ Sample.program
           "--port" ["80"]); try (vm_compute; reflexivity); discriminate.
Defined.

(** X20.  At a command that has subcommands, a first token that is no
    flag and names none of them is an error: [process] returns
    "invalid subcommand" with the token, whatever follows. *)
Theorem invalid_subcommand_first `{External} (environ : gmap string string)
    (p : Parser) (tok : string) (rest : list string) :
  env_unset environ (specs (cmd p)) = true →
  subcommands (cmd p) ≠ [] →
  isFlag tok = false → tok ≠ "--" →
  findSubcommand (subcommands (cmd p)) tok = None →
  process environ p (tok :: rest)
  = (mkParser (cmd p) (roots p) (Some (cmd p)),
     Ret (Errorf ("invalid subcommand: " +:+ tok))).
Proof.
  intros Hu Hsub Hf Hdd Hno. apply process_first_error; [done|].
  unfold step. cbn [lookup list_lookup].
  apply String.eqb_neq in Hdd. rewrite Hdd, Hf.
  cbn [negb orb curCmd start].
  destruct (subcommands (cmd p)) as [|c cs] eqn:Es; [done|].
  cbn [length Nat.eqb]. by rewrite Hno.
Qed.

Lemma invalid_subcommand_first_witness :
  process (H := Plain.runtime) ∅ Sample.program ["run"; "serve"]
  = (mkParser (cmd Sample.program) (roots Sample.program)
              (Some (cmd Sample.program)),
     Ret (Errorf ("invalid subcommand: " +:+ "run"))).
Proof.
  apply (invalid_subcommand_first (H := Plain.runtime) ∅ Sample.program
           "run" ["serve"]); try (vm_compute; reflexivity).
  - vm_compute. discriminate.
  - discriminate.
Defined.

(** X21.  The flag of a boolean option without inline value stores
    ["true"] and takes one token: the token after it is left for the
    next turn, also when it reads [false]. *)
Theorem boolean_flag_takes_no_token `{External} (environ : gmap string string)
    (st st' : session) (args : list string) (i : nat) (arg : string)
    (sp : specptr) :
  flag_at st args i arg sp →
  flag_value arg = "" →
  multiple (pointee sp) = false →
  boolean (pointee sp) = true →
  parseValue_at (mark_present st sp) (dest (pointee sp)) "true" = (st', Go tt) →
  step environ args i st = (st', Go (i + 1)).
Proof.
  intros Hat Hv Hm Hb Hp.
  rewrite (step_flag environ _ _ _ _ _ Hat), Hv.
  unfold option_. rewrite Hm, Hb. cbn [andb String.eqb]. cbv iota.
  by rewrite Hp.
Qed.

(** [cp -f false]: [Force] is set, and the loop goes on at [false]. *)
Lemma boolean_flag_takes_no_token_witness :
  snd (step (H := Plain.runtime) ∅ ["-f"; "false"] 0 (start Sample.copy))
  = Go 1
  ∧ val (roots (parser (fst (step (H := Plain.runtime) ∅ ["-f"; "false"] 0
                               (start Sample.copy)))))
        (mkPath 0 ["Force"])
    = RVal (VScalar Plain.tbool (DBool true)).
Proof.
  rewrite (boolean_flag_takes_no_token (H := Plain.runtime) ∅ (start Sample.copy)
             (fst (parseValue_at (H := Plain.runtime)
                     (mark_present (start Sample.copy) (Sample.copy_spec "Force"))
                     (dest (pointee (Sample.copy_spec "Force"))) "true"))
             ["-f"; "false"] 0 "-f" (Sample.copy_spec "Force")).
  - split; [reflexivity | vm_compute; reflexivity].
  - repeat split; try (vm_compute; reflexivity); discriminate.
  - vm_compute; reflexivity.
  - vm_compute; reflexivity.
  - vm_compute; reflexivity.
  - vm_compute; reflexivity.
Defined.

(** ** Building the command tree *)

Section Fields.
Context `{External}.

Lemma tagKey_owner build o1 o2 field tag d key v :
  Name_of o1 = Name_of o2 →
  tagKey build o1 field tag d key v = tagKey build o2 field tag d key v.
Proof. intros Hn. unfold tagKey. by rewrite Hn. Qed.

Lemma tagKeys_owner build o1 o2 field tag d keys : ∀ v,
  Name_of o1 = Name_of o2 →
  tagKeys build o1 field tag d keys v = tagKeys build o2 field tag d keys v.
Proof.
  induction keys as [|key keys IH]; intros v Hn; simpl; [done|].
  rewrite (tagKey_owner build o1 o2) by done.
  destruct (tagKey build o2 field tag d key v) as [v' []]; [by apply IH | done].
Qed.

Lemma visit_owner build d f o1 o2 w :
  Name_of o1 = Name_of o2 → visit build d f o1 w = visit build d f o2 w.
Proof.
  intros Hn. unfold visit.
  rewrite (tagKeys_owner _ o1 o2) by done. by rewrite Hn.
Qed.

Lemma walkList_owner build d o1 o2 l : ∀ w,
  Name_of o1 = Name_of o2 →
  walkList (visit build d) o1 l w = walkList (visit build d) o2 l w.
Proof.
  induction l as [|f l IH]; intros w Hn; simpl; [done|].
  rewrite (visit_owner build d f o1 o2) by done.
  destruct (visit build d f o2 w) as [w1 expand]. by apply IH.
Qed.

Lemma visit_ignored build d f t w :
  Get (Tag f) "arg" = "-" → visit build d f t w = (w, false).
Proof. intros Ht. unfold visit. by rewrite Ht. Qed.




End Fields.

(** X22.  A field whose [arg] tag is a single dash is left out
    altogether: the command built from the struct is the one built
    from the struct without that field, whatever the type of the field
    is. *)
Theorem ignored_field_is_invisible `{External} (nm : string) (d : path)
    (n : string) (fs1 fs2 : list (StructField rtype)) (f : StructField rtype)
    (free : nat) :
  Get (Tag f) "arg" = "-" →
  cmdFromStruct nm d (TPtr (TStruct n (fs1 ++ f :: fs2))) free
  = cmdFromStruct nm d (TPtr (TStruct n (fs1 ++ fs2))) free.
Proof.
  intros Ht. cbn [cmdFromStruct]. cbn [Kind_of Kind_eqb negb].
  rewrite !walkFields_walkList, !walkList_app. cbn [walkList].
  rewrite visit_ignored by done. cbn [andb].
  rewrite (walkList_owner _ d (TStruct n (fs1 ++ f :: fs2))
             (TStruct n (fs1 ++ fs2)) fs1) by done.
  by rewrite (walkList_owner _ d (TStruct n (fs1 ++ f :: fs2))
                (TStruct n (fs1 ++ fs2)) fs2) by done.
Qed.

(** [Quiet] with and without its channel field [Events]. *)
Lemma ignored_field_is_invisible_witness :
  cmdFromStruct (H := Plain.runtime) "quiet" (mkPath 0 []) (TPtr Sample.quietT) 0
  = cmdFromStruct (H := Plain.runtime) "quiet" (mkPath 0 [])
      (TPtr (TStruct "Quiet"
               [mkField "Level" Plain.tint false [];
                mkField "Name" Plain.tstring false []])) 0.
Proof.
  exact (ignored_field_is_invisible (H := Plain.runtime) "quiet" (mkPath 0 [])
           "Quiet" [mkField "Level" Plain.tint false []]
           [mkField "Name" Plain.tstring false []]
           (mkField "Events" (TNamed "chan int" Chan) false [("arg", "-")])
           0 eq_refl).
Defined.



(** ** [NewParser] with several destinations *)

Section Destinations.
Context `{External}.

Lemma cmdFromStruct_pointer nm d t free r :
  cmdFromStruct nm d t free = inl r → Kind_eqb (Kind_of t) Ptr = true.
Proof. by destruct t. Qed.

Lemma NewParser_two prog d1 d2 c1 c2 n1 n2 :
  cmdFromStruct prog (mkPath 0 []) (Type_of d1) 0 = inl (c1, n1) →
  cmdFromStruct prog (mkPath 1 []) (Type_of d2) n1 = inl (c2, n2) →
  NewParser prog [d1; d2]
  = Go (mkParser
          (mkCommand prog "" (mkPath 0 []) (specs c1 ++ specs c2)
                     (subcommands c1 ++ subcommands c2) None)
          [d1; d2] None).
Proof.
  intros H1 H2. unfold NewParser. cbn [NewParser_loop].
  rewrite (cmdFromStruct_pointer _ _ _ _ _ H1), H1. cbn [negb].
  rewrite (cmdFromStruct_pointer _ _ _ _ _ H2), H2. cbn [negb].
  reflexivity.
Qed.

End Destinations.

(** X24.  [NewParser] with two destinations builds a command from each
    and joins them: the specs of the first followed by the specs of the
    second, and likewise the subcommands, under the program name. *)
Theorem NewParser_joins_destinations `{External} (prog : string)
    (d1 d2 : value) (c1 c2 : command) (n1 n2 : nat) :
  cmdFromStruct prog (mkPath 0 []) (Type_of d1) 0 = inl (c1, n1) →
  cmdFromStruct prog (mkPath 1 []) (Type_of d2) n1 = inl (c2, n2) →
  ∃ p, NewParser prog [d1; d2] = Go p
       ∧ name (cmd p) = prog
       ∧ specs (cmd p) = specs c1 ++ specs c2
       ∧ subcommands (cmd p) = subcommands c1 ++ subcommands c2
       ∧ roots p = [d1; d2].
Proof.
  intros H1 H2. eexists. split; [by eapply NewParser_two|]. done.
Qed.

(** [NewParser(Config{Program: "prog"}, &Files{}, &Cmds{})] *)
Lemma NewParser_joins_destinations_witness :
  ∃ p, NewParser (H := Plain.runtime) "prog" [Sample.files0; Sample.cmds0] = Go p
       ∧ name (cmd p) = "prog"
       ∧ specs (cmd p)
         = specs (fst Sample.files_built) ++ specs (fst Sample.cmds_built)
       ∧ subcommands (cmd p)
         = subcommands (fst Sample.files_built)
           ++ subcommands (fst Sample.cmds_built)
       ∧ roots p = [Sample.files0; Sample.cmds0].
Proof.
  apply (NewParser_joins_destinations (H := Plain.runtime) "prog"
           Sample.files0 Sample.cmds0
           (fst Sample.files_built) (fst Sample.cmds_built)
           (snd Sample.files_built) (snd Sample.cmds_built));
    vm_compute; reflexivity.
Defined.

(** X25.  The check that a command has no positionals beside
    subcommands is made for each destination on its own, not for the
    joined command: with a positional in the first destination and a
    subcommand in the second, [NewParser] returns a parser whose
    top-level command has both. *)
Theorem NewParser_mixes_across_destinations `{External} (prog : string)
    (d1 d2 : value) (c1 c2 : command) (n1 n2 : nat) :
  cmdFromStruct prog (mkPath 0 []) (Type_of d1) 0 = inl (c1, n1) →
  cmdFromStruct prog (mkPath 1 []) (Type_of d2) n1 = inl (c2, n2) →
  hasPositional (specs c1) = true →
  subcommands c2 ≠ [] →
  ∃ p, NewParser prog [d1; d2] = Go p
       ∧ hasPositional (specs (cmd p)) = true
       ∧ subcommands (cmd p) ≠ []
       ∧ exclusive (cmd p) = false.
Proof.
  intros H1 H2 Hpos Hsub. eexists. split; [by eapply NewParser_two|].
  cbn [cmd specs subcommands exclusive].
  assert (Hp : hasPositional (specs c1 ++ specs c2) = true).
  { unfold hasPositional in *. by rewrite existsb_app, Hpos. }
  assert (Hs : (0 <? length (subcommands c1 ++ subcommands c2)) = true).
  { apply Nat.ltb_lt. rewrite length_app.
    destruct (subcommands c2); [done | simpl; lia]. }
  repeat split; [done | | by rewrite Hp, Hs].
  intros E. apply (f_equal length) in E. apply Nat.ltb_lt in Hs.
  rewrite E in Hs. simpl in Hs. lia.
Qed.

(** [Files] has the positional [Input], [Cmds] the subcommand [serve]. *)
Lemma NewParser_mixes_across_destinations_witness :
  ∃ p, NewParser (H := Plain.runtime) "prog" [Sample.files0; Sample.cmds0] = Go p
       ∧ hasPositional (specs (cmd p)) = true
       ∧ subcommands (cmd p) ≠ []
       ∧ exclusive (cmd p) = false.
Proof.
  apply (NewParser_mixes_across_destinations (H := Plain.runtime) "prog"
           Sample.files0 Sample.cmds0
           (fst Sample.files_built) (fst Sample.cmds_built)
           (snd Sample.files_built) (snd Sample.cmds_built));
    try (vm_compute; reflexivity).
  vm_compute. discriminate.
Defined.

(** ** Reserved flags, and the values of a multiple-value option *)

(** X26.  Before a double dash, the tokens [-h] and [--help] end the
    turn with [ErrHelp] and [--version] with [ErrVersion] without the
    options in scope being looked at: an option that bears the short
    name [h] or the long name [help] or [version] is never reached by
    these tokens.  The state is left as it was. *)
Theorem reserved_flags_shadow_options `{External}
    (environ : gmap string string) (args : list string) (i : nat)
    (st : session) (arg : string) :
  args !! i = Some arg →
  allpositional st = false →
  (arg = "-h" ∨ arg = "--help" → step environ args i st = (st, Ret ErrHelp))
  ∧ (arg = "--version" → step environ args i st = (st, Ret ErrVersion)).
Proof.
  intros Harg Hall. unfold step. rewrite Harg, Hall.
  split; [intros [-> | ->] | intros ->]; reflexivity.
Qed.

(** [-h] against a session in which an option has the short name [h]. *)
Lemma reserved_flags_shadow_options_witness :
  findOption
    (active (mkSession Sample.copy ∅ (cmd Sample.copy)
               [mkPtr 9 (mkSpec (mkPath 0 ["Name"]) Plain.tstring "host" "h"
                           false false false false "" "" false)]
               false []))
    "h"
  ≠ None
  ∧ step (H := Plain.runtime) ∅ ["-h"; "x"] 0
      (mkSession Sample.copy ∅ (cmd Sample.copy)
         [mkPtr 9 (mkSpec (mkPath 0 ["Name"]) Plain.tstring "host" "h"
                     false false false false "" "" false)]
         false [])
    = (mkSession Sample.copy ∅ (cmd Sample.copy)
         [mkPtr 9 (mkSpec (mkPath 0 ["Name"]) Plain.tstring "host" "h"
                     false false false false "" "" false)]
         false [],
       Ret ErrHelp).
Proof.
  split; [discriminate|].
  apply (proj1 (reserved_flags_shadow_options (H := Plain.runtime) ∅
                  ["-h"; "x"] 0
                  (mkSession Sample.copy ∅ (cmd Sample.copy)
                     [mkPtr 9 (mkSpec (mkPath 0 ["Name"]) Plain.tstring "host" "h"
                                 false false false false "" "" false)]
                     false [])
                  "-h" eq_refl eq_refl)).
  by left.
Defined.

(** X27.  The values gathered for a multiple-value option without
    inline value are the tokens after the flag up to, and without, the
    first one that looks like a flag, or up to the end; a double dash
    among them is gathered like any other token.  A [separate] option
    gathers the first of them only. *)
Theorem collect_until_flag (rest : list string) :
  (∃ tail,
     rest = collect false rest ++ tail
     ∧ Forall (fun a => isFlag a = false) (collect false rest)
     ∧ match tail with
       | [] => True
       | a :: _ => isFlag a = true
       end)
  ∧ collect true rest = take 1 (collect false rest)
  ∧ collect false ("--" :: rest) = "--" :: collect false rest.
Proof.
  split; [|split; [|done]].
  - induction rest as [|a rest (tail & Hr & Hall & Ht)]; [by exists []|].
    cbn [collect]. destruct (isFlag a) eqn:Hf.
    + by exists (a :: rest).
    + exists tail. cbn [app]. rewrite <- Hr. repeat split; [|done].
      by constructor.
  - destruct rest as [|a rest]; [done|]. cbn [collect].
    by destruct (isFlag a).
Qed.
